(** * Multi-armed bandit: value estimation, player loop and benchmark

    A shallow embedding of [src/bandit_utils.py] and [src/strategies.py].

    Numbers.  The program computes on IEEE doubles held in numpy arrays.
    The properties below are about exact arithmetic, so a float is
    modelled as an extended real [xreal]: a real number, one of the two
    infinities, or NaN.  Finite values are combined exactly (no rounding,
    no overflow, no signed zero); the special values follow IEEE 754,
    which is what numpy does on a division by zero (a warning, never an
    exception).

    Randomness.  [np.random] is a process-wide generator; it is modelled
    as an explicit state [rng] threaded through every operation that
    draws from it.

    Exceptions.  A Python exception aborts the whole call chain (nothing
    in the repository catches one), so fallible operations return a
    [result].

    Integers.  The arm count [n] of a bandit is a Python integer and is
    kept in [Z].  Step and epoch budgets, array indices and action counts
    are natural numbers: [np.zeros] refuses a negative length, the
    indices come from [np.random.randint(0, n)] and [np.argmax], and the
    counts start at zero and are only incremented.  Rewards and true
    values of arms are real numbers.

    Objects.  Every player owns its bandit (a deep copy) and its strategy
    instance, so the mutable objects of the program are fields of the
    player record, and a method that mutates [self] returns the new
    record.  Plotting and logging are left out. *)

From Stdlib Require Import Reals Lra Lia List ZArith Bool Arith.
Import ListNotations.

Local Open Scope R_scope.

(** ** Exceptions and the error monad *)

Inductive exn : Type :=
| ValueError
| IndexError
| ZeroDivisionError.

Inductive result (A : Type) : Type :=
| Ok (a : A)
| Err (e : exn).

Arguments Ok {A} a.
Arguments Err {A} e.

Definition bind {A B : Type} (m : result A) (k : A -> result B) : result B :=
  match m with
  | Ok a => k a
  | Err e => Err e
  end.

Notation "x <- m ;; k" := (bind m (fun x => k))
  (at level 61, m at next level, right associativity).
Notation "' p <- m ;; k" := (bind m (fun x => let p := x in k))
  (at level 61, p pattern, m at next level, right associativity).

(** ** Floats in exact arithmetic *)

Inductive xreal : Type :=
| Fin (r : R)
| PInf
| NInf
| NaN.

Definition xneg (a : xreal) : xreal :=
  match a with
  | Fin r => Fin (- r)
  | PInf => NInf
  | NInf => PInf
  | NaN => NaN
  end.

Definition xadd (a b : xreal) : xreal :=
  match a, b with
  | NaN, _ | _, NaN => NaN
  | Fin x, Fin y => Fin (x + y)
  | PInf, NInf | NInf, PInf => NaN
  | PInf, _ | _, PInf => PInf
  | NInf, _ | _, NInf => NInf
  end.

Definition xsub (a b : xreal) : xreal := xadd a (xneg b).

(** The sign of a real: [Some true] positive, [Some false] negative,
    [None] zero. *)
Definition Rsign (r : R) : option bool :=
  if Rlt_dec 0 r then Some true
  else if Rlt_dec r 0 then Some false
  else None.

Definition xinf (positive : bool) : xreal := if positive then PInf else NInf.

Definition xmul (a b : xreal) : xreal :=
  match a, b with
  | NaN, _ | _, NaN => NaN
  | Fin x, Fin y => Fin (x * y)
  | Fin x, PInf | PInf, Fin x =>
      match Rsign x with Some s => xinf s | None => NaN end
  | Fin x, NInf | NInf, Fin x =>
      match Rsign x with Some s => xinf (negb s) | None => NaN end
  | PInf, PInf | NInf, NInf => PInf
  | PInf, NInf | NInf, PInf => NInf
  end.

Definition xdiv (a b : xreal) : xreal :=
  match a, b with
  | NaN, _ | _, NaN => NaN
  | Fin x, Fin y =>
      if Req_dec_T y 0
      then match Rsign x with Some s => xinf s | None => NaN end
      else Fin (x / y)
  | Fin _, (PInf | NInf) => Fin 0
  | PInf, Fin y => if Rlt_dec y 0 then NInf else PInf
  | NInf, Fin y => if Rlt_dec y 0 then PInf else NInf
  | (PInf | NInf), (PInf | NInf) => NaN
  end.

(** [x ** 0.5] on a numpy array is computed by [np.sqrt]. *)
Definition xsqrt (a : xreal) : xreal :=
  match a with
  | Fin x => if Rlt_dec x 0 then NaN else Fin (sqrt x)
  | PInf => PInf
  | NInf => NaN
  | NaN => NaN
  end.

Definition xexp (a : xreal) : xreal :=
  match a with
  | Fin x => Fin (exp x)
  | PInf => PInf
  | NInf => Fin 0
  | NaN => NaN
  end.

(** [np.log] of a Python integer. *)
Definition xlog_int (t : Z) : xreal :=
  if (0 <? t)%Z then Fin (ln (IZR t))
  else if (t =? 0)%Z then NInf
  else NaN.

Definition is_nan (a : xreal) : bool :=
  match a with NaN => true | _ => false end.

Definition is_fin (a : xreal) : Prop :=
  match a with Fin _ => True | _ => False end.

(** [a <= b] on floats; false as soon as one side is NaN. *)
Definition xleb (a b : xreal) : bool :=
  match a, b with
  | NaN, _ | _, NaN => false
  | NInf, _ => true
  | _, PInf => true
  | PInf, _ => false
  | _, NInf => false
  | Fin x, Fin y => if Rle_dec x y then true else false
  end.

(** ** Arrays *)

Section Arrays.
Context {A : Type}.

(** [a[i]], with [IndexError] out of range.  Indices are the natural
    numbers: every index the program computes comes from
    [np.random.randint(0, n)] or [np.argmax]. *)
Definition get (a : list A) (i : nat) : result A :=
  match nth_error a i with
  | Some x => Ok x
  | None => Err IndexError
  end.

Fixpoint upd (a : list A) (i : nat) (v : A) : list A :=
  match a, i with
  | [], _ => []
  | _ :: t, O => v :: t
  | h :: t, S j => h :: upd t j v
  end.

(** [a[i] = v]. *)
Definition set (a : list A) (i : nat) (v : A) : result (list A) :=
  if (i <? length a)%nat then Ok (upd a i v) else Err IndexError.

Fixpoint zip_with (f : A -> A -> A) (a b : list A) : list A :=
  match a, b with
  | x :: a', y :: b' => f x y :: zip_with f a' b'
  | _, _ => []
  end.

(** [a op b] on one-dimensional arrays: shapes must agree, or one of
    the two has length one and is broadcast. *)
Definition broadcast2 (f : A -> A -> A) (a b : list A) : result (list A) :=
  if (length a =? length b)%nat then Ok (zip_with f a b)
  else match a, b with
       | [x], _ => Ok (map (f x) b)
       | _, [y] => Ok (map (fun x => f x y) a)
       | _, _ => Err ValueError
       end.

(** [a op= b]: the result is stored in [a], so only [b] may be
    broadcast. *)
Definition inplace2 (f : A -> A -> A) (a b : list A) : result (list A) :=
  if (length a =? length b)%nat then Ok (zip_with f a b)
  else match b with
       | [y] => Ok (map (fun x => f x y) a)
       | _ => Err ValueError
       end.
End Arrays.

(** [np.argmax]: the first index of the maximum; a NaN counts as the
    maximum.  [argmax_from best bi i a] scans [a], whose head has index
    [i], with the running maximum [best] found at index [bi]. *)
Fixpoint argmax_from (best : xreal) (bi i : nat) (a : list xreal) : nat :=
  match a with
  | [] => bi
  | x :: a' =>
      if is_nan best then bi
      else if xleb x best then argmax_from best bi (S i) a'
      else argmax_from x i (S i) a'
  end.

Definition argmax (a : list xreal) : result nat :=
  match a with
  | [] => Err ValueError
  | x :: a' => Ok (argmax_from x 0 1 a')
  end.

(** [a % b] on Python integers: the result has the sign of [b], and a
    zero [b] raises. *)
Definition py_mod (a b : Z) : result Z :=
  if (b =? 0)%Z then Err ZeroDivisionError else Ok (a mod b)%Z.

(** ** The random generator *)

Record rng : Type := mk_rng {
  normal_draws : nat -> R;    (* standard normal samples *)
  uniform_draws : nat -> R;   (* uniform samples of [0, 1) *)
  int_draws : nat -> nat;     (* raw integer samples *)
  normal_pos : nat;
  uniform_pos : nat;
  int_pos : nat
}.

(** [np.random.normal(loc, scale)]. *)
Definition random_normal (loc scale : R) (g : rng) : result (R * rng) :=
  if Rlt_dec scale 0 then Err ValueError
  else Ok (loc + scale * normal_draws g (normal_pos g),
           mk_rng (normal_draws g) (uniform_draws g) (int_draws g)
                  (S (normal_pos g)) (uniform_pos g) (int_pos g)).

(** [np.random.normal()] and [np.random.normal(loc)]: the scale is 1, so
    the call cannot fail. *)
Definition random_normal1 (loc : R) (g : rng) : R * rng :=
  (loc + 1 * normal_draws g (normal_pos g),
   mk_rng (normal_draws g) (uniform_draws g) (int_draws g)
          (S (normal_pos g)) (uniform_pos g) (int_pos g)).

(** [np.random.binomial(1, p)]. *)
Definition random_binomial1 (p : R) (g : rng) : result (nat * rng) :=
  if Rlt_dec p 0 then Err ValueError
  else if Rlt_dec 1 p then Err ValueError
  else Ok (if Rlt_dec (uniform_draws g (uniform_pos g)) p then 1%nat else 0%nat,
           mk_rng (normal_draws g) (uniform_draws g) (int_draws g)
                  (normal_pos g) (S (uniform_pos g)) (int_pos g)).

(** [np.random.randint(0, high)]. *)
Definition random_randint0 (high : Z) (g : rng) : result (nat * rng) :=
  if (high <=? 0)%Z then Err ValueError
  else Ok ((int_draws g (int_pos g) mod Z.to_nat high)%nat,
           mk_rng (normal_draws g) (uniform_draws g) (int_draws g)
                  (normal_pos g) (uniform_pos g) (S (int_pos g))).

(** ** [bandit_utils.Arm] *)

Module Arm.

Record t : Type := mk { q : R; incr_dev : R }.

(** [Arm(incr_dev, q)]: the setter of [q] draws a standard normal value
    when [q] is [None]. *)
Definition init (incr_dev : R) (q : option R) (g : rng) : t * rng :=
  match q with
  | None => let '(v, g') := random_normal1 0 g in (mk v incr_dev, g')
  | Some v => (mk v incr_dev, g)
  end.

Definition action (a : t) (g : rng) : R * rng := random_normal1 (q a) g.

Definition reset_q (a : t) (g : rng) : result (t * rng) :=
  if Req_dec_T (incr_dev a) 0 then Ok (a, g)
  else '(d, g') <- random_normal 0 (incr_dev a) g ;;
       Ok (mk (q a + d) (incr_dev a), g').

End Arm.

(** ** [bandit_utils.Bandit] *)

Module Bandit.

Record t : Type := mk {
  n : Z;
  q : list (option R);
  incr_dev : R;
  arms : list Arm.t
}.

(** The list comprehension [[Arm(incr_dev, v) for v in q]]. *)
Fixpoint make_arms (incr_dev : R) (q : list (option R)) (g : rng)
  : list Arm.t * rng :=
  match q with
  | [] => ([], g)
  | v :: q' =>
      let '(a, g1) := Arm.init incr_dev v g in
      let '(l, g2) := make_arms incr_dev q' g1 in
      (a :: l, g2)
  end.

(** The setter of [q]. *)
Definition set_q (n : Z) (value : option (list (option R)))
  : result (list (option R)) :=
  match value with
  | None => Ok (repeat None (Z.to_nat n))
  | Some v =>
      if negb (Z.of_nat (length v) =? n)%Z then Err ValueError
      else Ok v
  end.

(** [Bandit(n, q, incr_dev)]. *)
Definition init (n : Z) (q : option (list (option R))) (incr_dev : R)
  (g : rng) : result (t * rng) :=
  q' <- set_q n q ;;
  let '(l, g') := make_arms incr_dev q' g in
  Ok (mk n q' incr_dev l, g').

Definition reset (b : t) (g : rng) : t * rng :=
  let '(l, g') := make_arms (incr_dev b) (q b) g in
  (mk (n b) (q b) (incr_dev b) l, g').

(** The loop [for arm in self.arms: arm.reset_q()]. *)
Fixpoint drift (l : list Arm.t) (g : rng) : result (list Arm.t * rng) :=
  match l with
  | [] => Ok ([], g)
  | a :: l' =>
      '(a', g1) <- Arm.reset_q a g ;;
      '(l'', g2) <- drift l' g1 ;;
      Ok (a' :: l'', g2)
  end.

Definition action (b : t) (indx : nat) (g : rng) : result (R * t * rng) :=
  '(l, g1) <- drift (arms b) g ;;
  a <- get l indx ;;
  let '(r, g2) := Arm.action a g1 in
  Ok (r, mk (n b) (q b) (incr_dev b) l, g2).

End Bandit.

(** ** [strategies.py] *)

(** The sample-average step [old + 1 / count * (reward - old)], shared by
    [SampleAverages] and by the internal values of [UCB].  [count] is an
    entry of the float array [number_of_actions], so a zero count divides
    to an infinity instead of raising. *)
Definition sample_average_step (old : xreal) (count : nat) (reward : R) : xreal :=
  xadd old (xmul (xdiv (Fin 1) (Fin (INR count))) (xsub (Fin reward) old)).

Arguments sample_average_step : simpl never.

Module SampleAverages.

Definition estimate_values (preferences : list xreal)
  (number_of_actions : list nat) (indx : nat) (reward : R)
  : result (list xreal) :=
  old <- get preferences indx ;;
  k <- get number_of_actions indx ;;
  set preferences indx (sample_average_step old k reward).

End SampleAverages.

Module ConstantStepSize.

Definition estimate_values (alpha : R) (preferences : list xreal)
  (number_of_actions : list nat) (indx : nat) (reward : R)
  : result (list xreal) :=
  old <- get preferences indx ;;
  set preferences indx
    (xadd old (xmul (Fin alpha) (xsub (Fin reward) old))).

End ConstantStepSize.

Module UCB.

Record t : Type := mk {
  c : R;
  time : Z;
  values : option (list xreal)
}.

(** [UCB(c)]. *)
Definition init (c : R) : t := mk c 1 None.

(** [_init_values]: [np.zeros(length)] unless the array exists. *)
Definition init_values (values : option (list xreal)) (length : nat)
  : list xreal :=
  match values with
  | None => repeat (Fin 0) length
  | Some v => v
  end.

(** The exploration bonus [c * (np.log(time) / number_of_actions) ** 0.5]
    of one arm. *)
Definition bonus (c : R) (time : Z) (count : nat) : xreal :=
  xmul (Fin c) (xsqrt (xdiv (xlog_int time) (Fin (INR count)))).

Definition estimate_values (s : t) (preferences : list xreal)
  (number_of_actions : list nat) (indx : nat) (reward : R)
  : result (t * list xreal) :=
  let vals := init_values (values s) (length preferences) in
  let time' := (time s + 1)%Z in
  old <- get vals indx ;;
  k <- get number_of_actions indx ;;
  vals' <- set vals indx (sample_average_step old k reward) ;;
  out <- broadcast2 xadd vals' (map (bonus (c s) time') number_of_actions) ;;
  Ok (mk (c s) time' (Some vals'), out).

End UCB.

Module GradientBandit.

Record t : Type := mk {
  alpha : R;
  mean_reward : R;
  time : Z;
  probs : option (list xreal)
}.

(** [GradientBandit(alpha)]. *)
Definition init (alpha : R) : t := mk alpha 0 0 None.

(** [_init_probs]: [np.ones(length) / length] unless the array exists. *)
Definition init_probs (probs : option (list xreal)) (length : nat)
  : list xreal :=
  match probs with
  | None => map (fun x => xdiv x (Fin (INR length))) (repeat (Fin 1) length)
  | Some p => p
  end.

(** The builtin [sum], which adds the entries to 0 from left to right. *)
Definition xsum (a : list xreal) : xreal := fold_left xadd a (Fin 0).

(** [_derive_probs]: exponentiate, then divide by the sum. *)
Definition derive_probs (preferences : list xreal) : list xreal :=
  let e := map xexp preferences in
  let s := xsum e in
  map (fun x => xdiv x s) e.

(** [1 / self.time] divides Python integers, so it raises on zero. *)
Definition estimate_values (s : t) (preferences : list xreal)
  (number_of_actions : list nat) (indx : nat) (reward : R)
  : result (t * list xreal) :=
  let ps := init_probs (probs s) (length preferences) in
  let time' := (time s + 1)%Z in
  if (time' =? 0)%Z then Err ZeroDivisionError
  else
    let mean' := mean_reward s + 1 / IZR time' * (reward - mean_reward s) in
    let step := alpha s * (reward - mean') in
    prefs1 <- inplace2 xsub preferences (map (xmul (Fin step)) ps) ;;
    old <- get prefs1 indx ;;
    prefs2 <- set prefs1 indx (xadd old (Fin step)) ;;
    Ok (mk (alpha s) mean' time' (Some (derive_probs prefs2)), prefs2).

End GradientBandit.

(** The closed family of strategies, each carrying its own state. *)
Module Strategy.

Inductive t : Type :=
| SA
| CSS (alpha : R)
| Ucb (s : UCB.t)
| GB (s : GradientBandit.t).

(** Dynamic dispatch of [strategy.estimate_values]. *)
Definition estimate_values (s : t) (preferences : list xreal)
  (number_of_actions : list nat) (indx : nat) (reward : R)
  : result (t * list xreal) :=
  match s with
  | SA =>
      p <- SampleAverages.estimate_values preferences number_of_actions
             indx reward ;;
      Ok (SA, p)
  | CSS a =>
      p <- ConstantStepSize.estimate_values a preferences number_of_actions
             indx reward ;;
      Ok (CSS a, p)
  | Ucb u =>
      '(u', p) <- UCB.estimate_values u preferences number_of_actions
                    indx reward ;;
      Ok (Ucb u', p)
  | GB b =>
      '(b', p) <- GradientBandit.estimate_values b preferences
                    number_of_actions indx reward ;;
      Ok (GB b', p)
  end.

End Strategy.

(** ** [bandit_utils.BanditPlayer] *)

Module BanditPlayer.

Record t : Type := mk {
  eps : R;
  n_steps : nat;
  strategy : Strategy.t;
  optimist : bool;
  baseline : R;
  bandit : Bandit.t;
  rewards : list R;
  number_of_actions : list nat;
  preferences : list xreal
}.

(** [np.zeros(n)] for a Python integer [n]. *)
Definition zeros {A : Type} (zero : A) (n : Z) : result (list A) :=
  if (n <? 0)%Z then Err ValueError else Ok (repeat zero (Z.to_nat n)).

(** The preference vector of a fresh or reset player:
    [np.zeros(n)], plus the baseline for an optimist. *)
Definition initial_preferences (optimist : bool) (baseline : R) (n : Z)
  : result (list xreal) :=
  z <- zeros (Fin 0) n ;;
  Ok (if optimist then map (fun x => xadd x (Fin baseline)) z else z).

(** [BanditPlayer(bandit, eps, n_steps, strategy, optimist, baseline)];
    the deep copy of the bandit is the value itself. *)
Definition init (bandit : Bandit.t) (eps : R) (n_steps : nat)
  (strategy : Strategy.t) (optimist : bool) (baseline : R) : result t :=
  counts <- zeros 0%nat (Bandit.n bandit) ;;
  prefs <- initial_preferences optimist baseline (Bandit.n bandit) ;;
  Ok (mk eps n_steps strategy optimist baseline bandit
         (repeat 0 n_steps) counts prefs).

Definition get_arms_id (p : t) (g : rng) : result (nat * rng) :=
  '(coin, g1) <- random_binomial1 (eps p) g ;;
  if (coin =? 1)%nat then random_randint0 (Bandit.n (bandit p)) g1
  else indx <- argmax (preferences p) ;; Ok (indx, g1).

Definition use_arm (p : t) (indx : nat) (g : rng) : result (R * t * rng) :=
  k <- get (number_of_actions p) indx ;;
  counts <- set (number_of_actions p) indx (k + 1)%nat ;;
  '(reward, b, g') <- Bandit.action (bandit p) indx g ;;
  '(s, prefs) <- Strategy.estimate_values (strategy p) (preferences p)
                   counts indx reward ;;
  Ok (reward,
      mk (eps p) (n_steps p) s (optimist p) (baseline p) b
         (rewards p) counts prefs,
      g').

(** One iteration of the loop of [run]. *)
Definition run_step (p : t) (step : nat) (g : rng) : result (t * rng) :=
  '(indx, g1) <- get_arms_id p g ;;
  '(reward, p', g2) <- use_arm p indx g1 ;;
  rs <- set (rewards p') step reward ;;
  Ok (mk (eps p') (n_steps p') (strategy p') (optimist p') (baseline p')
         (bandit p') rs (number_of_actions p') (preferences p'),
      g2).

(** The iterations [first], [first + 1], ..., [first + count - 1]. *)
Fixpoint steps (p : t) (first count : nat) (g : rng) : result (t * rng) :=
  match count with
  | O => Ok (p, g)
  | S count' =>
      '(p', g') <- run_step p first g ;;
      steps p' (S first) count' g'
  end.

Definition run (p : t) (g : rng) : result (t * rng) :=
  steps p 0 (n_steps p) g.

Definition reset (p : t) (g : rng) : result (t * rng) :=
  let '(b, g') := Bandit.reset (bandit p) g in
  counts <- zeros 0%nat (Bandit.n b) ;;
  prefs <- initial_preferences (optimist p) (baseline p) (Bandit.n b) ;;
  Ok (mk (eps p) (n_steps p) (strategy p) (optimist p) (baseline p) b
         (repeat 0 (n_steps p)) counts prefs,
      g').

End BanditPlayer.

(** ** [bandit_utils.Benchmark] *)

Module Benchmark.

(** The name and [print_log] only feed the plot and the console and are
    left out; [log_time] is kept, since [run] divides by it. *)
Record t : Type := mk {
  n_epochs : nat;
  players : list BanditPlayer.t;
  avg_rewards : list (list R);
  log_time : Z
}.

(** [Benchmark(players, n_epochs, log_time=log_time)]. *)
Definition init (players : list BanditPlayer.t) (n_epochs : nat)
  (log_time : Z) : t :=
  mk n_epochs players
     (map (fun p => repeat 0 (BanditPlayer.n_steps p)) players)
     log_time.

(** [plot_graphs(last)] hands the names and the averages to matplotlib;
    nothing of the benchmark changes. *)
Definition plot_graphs (avgs : list (list R)) (last : bool) : unit := tt.

(** [avg += 1 / epoch * (rewards - avg)]. *)
Definition fold_rewards (epoch : nat) (avg rewards : list R)
  : result (list R) :=
  d <- broadcast2 Rminus rewards avg ;;
  inplace2 Rplus avg (map (Rmult (1 / INR epoch)) d).

(** The inner loop over the players, for one epoch. *)
Fixpoint run_players (epoch : nat) (ps : list BanditPlayer.t)
  (avgs : list (list R)) (g : rng)
  : result (list BanditPlayer.t * list (list R) * rng) :=
  match ps with
  | [] => Ok ([], avgs, g)
  | p :: ps' =>
      '(p1, g1) <- BanditPlayer.run p g ;;
      avg <- get avgs 0 ;;
      avg' <- fold_rewards epoch avg (BanditPlayer.rewards p1) ;;
      '(p2, g2) <- BanditPlayer.reset p1 g1 ;;
      '(ps'', avgs', g3) <- run_players epoch ps' (tl avgs) g2 ;;
      Ok (p2 :: ps'', avg' :: avgs', g3)
  end.

(** The epochs [epoch], [epoch + 1], ..., [epoch + count - 1]: the
    players run, then [epoch % log_time] decides whether to plot. *)
Fixpoint run_epochs (log_time : Z) (epoch count : nat)
  (ps : list BanditPlayer.t) (avgs : list (list R)) (g : rng)
  : result (list BanditPlayer.t * list (list R) * rng) :=
  match count with
  | O => Ok (ps, avgs, g)
  | S count' =>
      '(ps', avgs', g') <- run_players epoch ps avgs g ;;
      m <- py_mod (Z.of_nat epoch) log_time ;;
      let _ := if (m =? 0)%Z then plot_graphs avgs' false else tt in
      run_epochs log_time (S epoch) count' ps' avgs' g'
  end.

Definition run (b : t) (g : rng) : result (t * rng) :=
  '(ps, avgs, g') <-
    run_epochs (log_time b) 1 (n_epochs b) (players b) (avg_rewards b) g ;;
  let _ := plot_graphs avgs true in
  Ok (mk (n_epochs b) ps avgs (log_time b), g').

End Benchmark.

(** * Vocabulary of the properties

    Drivers that iterate an operation of the program, and the arithmetic
    means the program is compared with. *)

(** A sequence of [Bandit.action] calls, one per index. *)
Fixpoint bandit_actions (b : Bandit.t) (idxs : list nat) (g : rng)
  : result (list R * Bandit.t * rng) :=
  match idxs with
  | [] => Ok ([], b, g)
  | i :: idxs' =>
      '(r, b1, g1) <- Bandit.action b i g ;;
      '(rs, b2, g2) <- bandit_actions b1 idxs' g1 ;;
      Ok (r :: rs, b2, g2)
  end.

(** A generator whose every draw is the same: [z] for the standard
    normal samples, [u] for the uniform ones, [k] for the integers. *)
Definition constant_rng (z u : R) (k : nat) : rng :=
  mk_rng (fun _ => z) (fun _ => u) (fun _ => k) 0 0 0.

(** The player [p] holding the preference vector [prefs] instead of its
    own. *)
Definition with_preferences (p : BanditPlayer.t) (prefs : list xreal)
  : BanditPlayer.t :=
  BanditPlayer.mk (BanditPlayer.eps p) (BanditPlayer.n_steps p)
    (BanditPlayer.strategy p) (BanditPlayer.optimist p)
    (BanditPlayer.baseline p) (BanditPlayer.bandit p)
    (BanditPlayer.rewards p) (BanditPlayer.number_of_actions p) prefs.

(** What [use_arm] has computed when it reaches the call of
    [strategy.estimate_values]: the four arguments of the call, with the
    bandit and the generator left by [bandit.action]. *)
Definition use_arm_call (p : BanditPlayer.t) (indx : nat) (g : rng)
  : result (list xreal * list nat * nat * R * Bandit.t * rng) :=
  k <- get (BanditPlayer.number_of_actions p) indx ;;
  counts <- set (BanditPlayer.number_of_actions p) indx (k + 1)%nat ;;
  '(reward, b, g') <- Bandit.action (BanditPlayer.bandit p) indx g ;;
  Ok (BanditPlayer.preferences p, counts, indx, reward, b, g').

(** A stationary bandit with the explicit true values 1 and -1, as
    [Bandit(n=2, q=[1.0, -1.0])] builds it, and a fresh greedy player on
    it, as [BanditPlayer(two_arms, eps=0, n_steps, strategy)] builds it. *)
Definition two_arms : Bandit.t :=
  Bandit.mk 2 [Some 1; Some (-1)] 0 [Arm.mk 1 0; Arm.mk (-1) 0].

Definition fresh_player (s : Strategy.t) (n_steps : nat) : BanditPlayer.t :=
  BanditPlayer.mk 0 n_steps s false 5 two_arms (repeat 0 n_steps)
    [0; 0]%nat [Fin 0; Fin 0].

(** The sum of a list of reals, added from left to right as the builtin
    [sum] does. *)
Definition Rsum (l : list R) : R := fold_left Rplus l 0.

(** The arithmetic mean. *)
Definition mean (l : list R) : R := Rsum l / INR (length l).

(** The preference vector [GradientBandit.estimate_values] computes from
    real preferences [qs] and real probabilities [ps], written with the
    two phases of the source: subtract [step * p] from every entry, then
    add [step] to the chosen entry. *)
Definition gradient_two_phase (step : R) (qs ps : list R) (a : nat) : list R :=
  let qs1 := zip_with (fun q y => q + - y) qs (map (Rmult step) ps) in
  upd qs1 a (nth a qs1 0 + step).

(** The upper confidence bound of an arm whose internal value is [v],
    after [n] pulls: infinite for an arm never pulled. *)
Definition ucb_preference (c : R) (time : Z) (v : R) (n : nat) : xreal :=
  if (n =? 0)%nat then PInf
  else Fin (v + c * sqrt (ln (IZR time) / INR n)).

(** A sequence of [use_arm] calls, one per index, in order: any
    interleaving of the arms. *)
Fixpoint use_arms (p : BanditPlayer.t) (idxs : list nat) (g : rng)
  : result (list R * BanditPlayer.t * rng) :=
  match idxs with
  | [] => Ok ([], p, g)
  | i :: idxs' =>
      '(r, p1, g1) <- BanditPlayer.use_arm p i g ;;
      '(rs, p2, g2) <- use_arms p1 idxs' g1 ;;
      Ok (r :: rs, p2, g2)
  end.

(** The rewards arm [a] received, in order, when the arms [idxs] were
    pulled and returned the rewards [rs]. *)
Fixpoint pulls_of (a : nat) (idxs : list nat) (rs : list R) : list R :=
  match idxs, rs with
  | i :: idxs', r :: rs' =>
      if (i =? a)%nat then r :: pulls_of a idxs' rs' else pulls_of a idxs' rs'
  | _, _ => []
  end.

(** What a player of [n] arms that follows [SampleAverages] holds after
    the history [idxs], [rs]: for every arm the number of its pulls and a
    real preference, which is the mean of its rewards once it was
    pulled. *)
Definition averages_history (n : nat) (p : BanditPlayer.t) (idxs : list nat)
  (rs : list R) : Prop :=
  length idxs = length rs /\
  length (BanditPlayer.number_of_actions p) = n /\
  length (BanditPlayer.preferences p) = n /\
  forall a, (a < n)%nat ->
    nth_error (BanditPlayer.number_of_actions p) a =
      Some (length (pulls_of a idxs rs)) /\
    exists v, nth_error (BanditPlayer.preferences p) a = Some (Fin v) /\
              (pulls_of a idxs rs <> [] -> v = mean (pulls_of a idxs rs)).

(** [BanditPlayer.steps] with a log: the same loop, which also returns
    the index chosen and the reward received at every iteration. *)
Fixpoint steps_log (p : BanditPlayer.t) (first count : nat) (g : rng)
  : result (list nat * list R * BanditPlayer.t * rng) :=
  match count with
  | O => Ok ([], [], p, g)
  | S count' =>
      '(indx, g1) <- BanditPlayer.get_arms_id p g ;;
      '(reward, p1, g2) <- BanditPlayer.use_arm p indx g1 ;;
      rs <- set (BanditPlayer.rewards p1) first reward ;;
      '(idxs, rws, p', g') <-
        steps_log
          (BanditPlayer.mk (BanditPlayer.eps p1) (BanditPlayer.n_steps p1)
             (BanditPlayer.strategy p1) (BanditPlayer.optimist p1)
             (BanditPlayer.baseline p1) (BanditPlayer.bandit p1) rs
             (BanditPlayer.number_of_actions p1)
             (BanditPlayer.preferences p1))
          (S first) count' g2 ;;
      Ok (indx :: idxs, reward :: rws, p', g')
  end.

(** The optimistic player [BanditPlayer(two_arms, eps=0, n_steps,
    strategy, optimist=True, baseline=5)]. *)
Definition optimistic_player (s : Strategy.t) (n_steps : nat)
  : BanditPlayer.t :=
  BanditPlayer.mk 0 n_steps s true 5 two_arms (repeat 0 n_steps)
    [0; 0]%nat [Fin (0 + 5); Fin (0 + 5)].

(** A generator whose [k]-th standard normal sample is [k]. *)
Definition counting_rng : rng :=
  mk_rng (fun k => INR k) (fun _ => 0) (fun _ => 0%nat) 0 0 0.

(** The running average fed with a fixed sequence of per-epoch reward
    arrays [rss], for the epochs [epoch], [epoch + 1], ... *)
Fixpoint average_epochs (epoch : nat) (avg : list R) (rss : list (list R))
  : result (list R) :=
  match rss with
  | [] => Ok avg
  | rs :: rss' =>
      avg' <- Benchmark.fold_rewards epoch avg rs ;;
      average_epochs (S epoch) avg' rss'
  end.

(** The rewards at step [t] of every epoch of [rss]. *)
Definition at_step (t : nat) (rss : list (list R)) : list R :=
  map (fun rs => nth t rs 0) rss.

(** [Benchmark.run_players] with a log: the same loop, which also
    returns the reward array of every player, taken right after its
    run. *)
Fixpoint run_players_log (epoch : nat) (ps : list BanditPlayer.t)
  (avgs : list (list R)) (g : rng)
  : result (list (list R) * list BanditPlayer.t * list (list R) * rng) :=
  match ps with
  | [] => Ok ([], [], avgs, g)
  | p :: ps' =>
      '(p1, g1) <- BanditPlayer.run p g ;;
      avg <- get avgs 0 ;;
      avg' <- Benchmark.fold_rewards epoch avg (BanditPlayer.rewards p1) ;;
      '(p2, g2) <- BanditPlayer.reset p1 g1 ;;
      '(log, ps'', avgs', g3) <- run_players_log epoch ps' (tl avgs) g2 ;;
      Ok (BanditPlayer.rewards p1 :: log, p2 :: ps'', avg' :: avgs', g3)
  end.

(** [Benchmark.run_epochs] with a log: one entry per epoch, which holds
    the reward array of every player. *)
Fixpoint run_epochs_log (log_time : Z) (epoch count : nat)
  (ps : list BanditPlayer.t) (avgs : list (list R)) (g : rng)
  : result (list (list (list R)) * list BanditPlayer.t * list (list R) * rng) :=
  match count with
  | O => Ok ([], ps, avgs, g)
  | S count' =>
      '(log, ps', avgs', g') <- run_players_log epoch ps avgs g ;;
      m <- py_mod (Z.of_nat epoch) log_time ;;
      let _ := if (m =? 0)%Z then Benchmark.plot_graphs avgs' false else tt in
      '(logs, ps'', avgs'', g'') <-
        run_epochs_log log_time (S epoch) count' ps' avgs' g' ;;
      Ok (log :: logs, ps'', avgs'', g'')
  end.

(** The reward arrays of player [i], one per epoch. *)
Definition of_player (i : nat) (logs : list (list (list R))) : list (list R) :=
  map (fun log => nth i log []) logs.

(** The class invariant of a player: the reward array has [n_steps]
    entries. *)
Definition rewards_shape (p : BanditPlayer.t) : Prop :=
  length (BanditPlayer.rewards p) = BanditPlayer.n_steps p.

(** A sequence of [ConstantStepSize.estimate_values] calls on the same
    arm, one per reward. *)
Fixpoint constant_steps (alpha : R) (prefs : list xreal) (counts : list nat)
  (indx : nat) (rs : list R) : result (list xreal) :=
  match rs with
  | [] => Ok prefs
  | r :: rs' =>
      prefs' <- ConstantStepSize.estimate_values alpha prefs counts indx r ;;
      constant_steps alpha prefs' counts indx rs'
  end.

(** The recency-weighted sum of rewards listed from the newest to the
    oldest: the newest has weight [alpha], and every step back in time
    multiplies the weight by [1 - alpha]. *)
Fixpoint recency_sum (alpha : R) (newest_first : list R) : R :=
  match newest_first with
  | [] => 0
  | r :: older => alpha * r + (1 - alpha) * recency_sum alpha older
  end.

(** The generator after [k] more standard normal draws. *)
Definition skip_normal (k : nat) (g : rng) : rng :=
  mk_rng (normal_draws g) (uniform_draws g) (int_draws g)
         (k + normal_pos g) (uniform_pos g) (int_pos g).

(** The standard normal sample that the [k]-th next draw returns. *)
Definition next_normal (k : nat) (g : rng) : R :=
  normal_draws g (k + normal_pos g).

(** The bandit of true values 1 and -1 whose arms drift with the
    deviation [d], as [Bandit(n=2, q=[1.0, -1.0], incr_dev=d)] builds
    it. *)
Definition drifting_arms (d : R) : Bandit.t :=
  Bandit.mk 2 [Some 1; Some (-1)] d [Arm.mk 1 d; Arm.mk (-1) d].

(** The internal arrays of a strategy fit a bandit of [n] arms, and the
    time of a gradient bandit is not negative. *)
Definition strategy_fits (n : nat) (s : Strategy.t) : Prop :=
  match s with
  | Strategy.SA | Strategy.CSS _ => True
  | Strategy.Ucb u =>
      match UCB.values u with
      | None => True
      | Some v => length v = n
      end
  | Strategy.GB b =>
      (0 <= GradientBandit.time b)%Z /\
      match GradientBandit.probs b with
      | None => True
      | Some ps => length ps = n
      end
  end.

(** A player that can run: [eps] is a probability, the bandit has
    [n >= 1] arms and as many entries in its specification, no drift
    deviation is negative, and the counts, the preferences and the arrays
    of the strategy have [n] entries. *)
Definition can_run (p : BanditPlayer.t) : Prop :=
  0 <= BanditPlayer.eps p <= 1 /\
  (1 <= Bandit.n (BanditPlayer.bandit p))%Z /\
  length (Bandit.q (BanditPlayer.bandit p)) =
    Z.to_nat (Bandit.n (BanditPlayer.bandit p)) /\
  0 <= Bandit.incr_dev (BanditPlayer.bandit p) /\
  length (Bandit.arms (BanditPlayer.bandit p)) =
    Z.to_nat (Bandit.n (BanditPlayer.bandit p)) /\
  Forall (fun a => 0 <= Arm.incr_dev a) (Bandit.arms (BanditPlayer.bandit p)) /\
  length (BanditPlayer.number_of_actions p) =
    Z.to_nat (Bandit.n (BanditPlayer.bandit p)) /\
  length (BanditPlayer.preferences p) =
    Z.to_nat (Bandit.n (BanditPlayer.bandit p)) /\
  strategy_fits (Z.to_nat (Bandit.n (BanditPlayer.bandit p)))
    (BanditPlayer.strategy p).

(** A player as [reset] leaves it: a reward array of zeros, zero counts
    and the initial preferences. *)
Definition is_reset (p : BanditPlayer.t) : Prop :=
  BanditPlayer.rewards p = repeat 0 (BanditPlayer.n_steps p) /\
  BanditPlayer.zeros 0%nat (Bandit.n (BanditPlayer.bandit p)) =
    Ok (BanditPlayer.number_of_actions p) /\
  BanditPlayer.initial_preferences (BanditPlayer.optimist p)
    (BanditPlayer.baseline p) (Bandit.n (BanditPlayer.bandit p)) =
    Ok (BanditPlayer.preferences p).

(** Every player has its average, with one entry per step. *)
Definition averages_shape (ps : list BanditPlayer.t) (avgs : list (list R))
  : Prop :=
  Forall2 (fun p avg => length avg = BanditPlayer.n_steps p) ps avgs.

(** A generator whose uniform samples are not negative, as samples of
    [0, 1) are. *)
Definition uniform_nonneg (g : rng) : Prop :=
  forall k, 0 <= uniform_draws g k.

(** A greedy [UCB] player of [n] arms that has pulled the arms
    [0, ..., k - 1] once each and no other arm: the counts say so, the
    internal values are real, and from the first pull on the preferences
    of the pulled arms are real and those of the others infinite. *)
Definition exploring (n k : nat) (p : BanditPlayer.t) : Prop :=
  can_run p /\
  Z.to_nat (Bandit.n (BanditPlayer.bandit p)) = n /\
  BanditPlayer.eps p = 0 /\
  (exists u vs,
     BanditPlayer.strategy p = Strategy.Ucb u /\
     0 < UCB.c u /\ (1 <= UCB.time u)%Z /\
     UCB.init_values (UCB.values u) n = map Fin vs /\ length vs = n) /\
  BanditPlayer.number_of_actions p = repeat 1%nat k ++ repeat 0%nat (n - k) /\
  (k = 0%nat -> exists x, BanditPlayer.preferences p = repeat (Fin x) n) /\
  ((1 <= k)%nat -> forall i y,
     nth_error (BanditPlayer.preferences p) i = Some y ->
     if (i <? k)%nat then is_fin y else y = PInf).

(** * Properties *)

(** ** Generic facts: the error monad and arrays *)

Lemma bind_ok {A B : Type} (m : result A) (k : A -> result B) (b : B) :
  bind m k = Ok b -> exists a, m = Ok a /\ k a = Ok b.
Proof.
  destruct m as [a|e]; simpl; intros H; [eauto | discriminate].
Qed.

(** Invert a chain of successful binds. *)
Ltac inv_ok :=
  repeat match goal with
  | H : bind _ _ = Ok _ |- _ =>
      let x := fresh "x" in
      let Hx := fresh "Hx" in
      apply bind_ok in H; destruct H as (x & Hx & H)
  | H : Ok _ = Ok _ |- _ => inversion H; subst; clear H
  | H : Err _ = Ok _ |- _ => discriminate H
  | H : (let '(_, _) := ?x in _) = Ok _ |- _ => destruct x
  | H : _ = Ok _ |- _ => progress cbv zeta in H
  end.

(** Evaluating the program on an example: unfold its operations, compute,
    and decide the comparisons of concrete reals on the way. *)
Create HintDb program discriminated.

#[local] Hint Unfold
  bind get set broadcast2 inplace2 argmax xsub Rsign xinf xlog_int
  random_normal random_normal1 random_binomial1 random_randint0
  Arm.init Arm.action Arm.reset_q
  Bandit.set_q Bandit.init Bandit.reset Bandit.action
  sample_average_step
  SampleAverages.estimate_values ConstantStepSize.estimate_values
  UCB.init UCB.init_values UCB.bonus UCB.estimate_values
  GradientBandit.init GradientBandit.init_probs GradientBandit.xsum
  GradientBandit.derive_probs GradientBandit.estimate_values
  Strategy.estimate_values
  BanditPlayer.zeros BanditPlayer.initial_preferences BanditPlayer.init
  BanditPlayer.get_arms_id BanditPlayer.use_arm BanditPlayer.run_step
  BanditPlayer.run BanditPlayer.reset
  py_mod Benchmark.init Benchmark.plot_graphs Benchmark.fold_rewards
  Benchmark.run
  : program.

Ltac rdec :=
  repeat first
    [ progress autounfold with program
    | progress simpl
    | match goal with
    | |- context [Rlt_dec ?a ?b] =>
        destruct (Rlt_dec a b); [try (exfalso; lra) | try (exfalso; lra)]
    | |- context [Rle_dec ?a ?b] =>
        destruct (Rle_dec a b); [try (exfalso; lra) | try (exfalso; lra)]
    | |- context [Req_dec_T ?a ?b] =>
        destruct (Req_dec_T a b); [try (exfalso; lra) | try (exfalso; lra)]
      end ].

Lemma get_ok {A : Type} (a : list A) (i : nat) (x : A) :
  get a i = Ok x <-> nth_error a i = Some x.
Proof.
  unfold get. destruct (nth_error a i); split; intros H;
    inversion H; subst; reflexivity.
Qed.

Lemma get_lt {A : Type} (a : list A) (i : nat) :
  (i < length a)%nat -> exists x, get a i = Ok x.
Proof.
  intros H. unfold get. destruct (nth_error a i) eqn:E; eauto.
  apply nth_error_None in E. lia.
Qed.

Lemma upd_length {A : Type} (a : list A) (i : nat) (v : A) :
  length (upd a i v) = length a.
Proof.
  revert i; induction a as [|h t IH]; intros [|i]; simpl; auto.
Qed.

Lemma upd_same {A : Type} (a : list A) (i : nat) (v : A) :
  (i < length a)%nat -> nth_error (upd a i v) i = Some v.
Proof.
  revert i; induction a as [|h t IH]; intros [|i]; simpl; intros H;
    try lia; auto. apply IH. lia.
Qed.

Lemma upd_other {A : Type} (a : list A) (i j : nat) (v : A) :
  i <> j -> nth_error (upd a i v) j = nth_error a j.
Proof.
  revert i j; induction a as [|h t IH]; intros [|i] [|j] H; simpl; auto.
  congruence.
Qed.

Lemma set_ok {A : Type} (a : list A) (i : nat) (v : A) (a' : list A) :
  set a i v = Ok a' <-> (i < length a)%nat /\ a' = upd a i v.
Proof.
  unfold set. destruct (Nat.ltb_spec i (length a)); split.
  - intros E; inversion E; auto.
  - intros [_ ->]; reflexivity.
  - discriminate.
  - intros [? _]; lia.
Qed.

Lemma zip_with_length {A : Type} (f : A -> A -> A) (a b : list A) :
  length a = length b -> length (zip_with f a b) = length a.
Proof.
  revert b; induction a as [|x a IH]; intros [|y b]; simpl; intros H;
    try discriminate; auto.
Qed.

Lemma zip_with_nth {A : Type} (f : A -> A -> A) (a b : list A) (i : nat)
  (x y : A) :
  nth_error a i = Some x -> nth_error b i = Some y ->
  nth_error (zip_with f a b) i = Some (f x y).
Proof.
  revert b i; induction a as [|h a IH]; intros [|k b] [|i]; simpl;
    intros Ha Hb; try discriminate.
  - inversion Ha; inversion Hb; reflexivity.
  - auto.
Qed.

Lemma broadcast2_same {A : Type} (f : A -> A -> A) (a b : list A) :
  length a = length b -> broadcast2 f a b = Ok (zip_with f a b).
Proof.
  intros H. unfold broadcast2. rewrite H, Nat.eqb_refl. reflexivity.
Qed.

Lemma inplace2_same {A : Type} (f : A -> A -> A) (a b : list A) :
  length a = length b -> inplace2 f a b = Ok (zip_with f a b).
Proof.
  intros H. unfold inplace2. rewrite H, Nat.eqb_refl. reflexivity.
Qed.

(** ** The bandit *)

Lemma make_arms_length (d : R) (q : list (option R)) (g : rng) :
  length (fst (Bandit.make_arms d q g)) = length q.
Proof.
  revert g; induction q as [|v q IH]; intros g; simpl; auto.
  destruct (Arm.init d v g) as [a g1].
  specialize (IH g1). destruct (Bandit.make_arms d q g1) as [l g2].
  simpl in *. congruence.
Qed.

Lemma make_arms_explicit (d : R) (q : list (option R)) (g : rng) (i : nat)
  (x : R) :
  nth_error q i = Some (Some x) ->
  nth_error (fst (Bandit.make_arms d q g)) i = Some (Arm.mk x d).
Proof.
  revert g i; induction q as [|v q IH]; intros g i H.
  - destruct i; discriminate.
  - simpl. destruct (Arm.init d v g) as [a g1] eqn:Ea.
    specialize (IH g1). destruct (Bandit.make_arms d q g1) as [l g2].
    destruct i as [|i]; simpl in *.
    + inversion H; subst. inversion Ea; reflexivity.
    + auto.
Qed.

(** When every value is explicit, the arms carry exactly these values and
    the generator is left untouched. *)
Lemma make_arms_all_explicit (d : R) (vs : list R) (g : rng) :
  Bandit.make_arms d (map Some vs) g = (map (fun x => Arm.mk x d) vs, g).
Proof.
  induction vs as [|x vs IH]; simpl; auto. rewrite IH. reflexivity.
Qed.

(** C7.  Constructing a bandit raises an exception exactly when an
    explicit value list is supplied whose length differs from the arm
    count [n], and the exception is then [ValueError].  When the lengths
    agree the stored specification is the supplied list, there is one arm
    per entry, and every explicit entry is the true value of its arm.
    Without a list, construction succeeds with [n] arms (none when [n] is
    negative, as [[None] * n] is empty then). *)
Theorem bandit_init_configuration n q incr_dev g :
  ((exists e, Bandit.init n q incr_dev g = Err e) <->
   (exists v, q = Some v /\ Z.of_nat (length v) <> n)) /\
  (forall e, Bandit.init n q incr_dev g = Err e -> e = ValueError) /\
  (forall v, q = Some v -> Z.of_nat (length v) = n ->
     exists b g', Bandit.init n q incr_dev g = Ok (b, g') /\
       Bandit.q b = v /\ Bandit.n b = n /\
       length (Bandit.arms b) = length v /\
       forall i x, nth_error v i = Some (Some x) ->
         nth_error (Bandit.arms b) i = Some (Arm.mk x incr_dev)) /\
  (q = None ->
     exists b g', Bandit.init n q incr_dev g = Ok (b, g') /\
       Bandit.n b = n /\ length (Bandit.arms b) = Z.to_nat n).
Proof.
  unfold Bandit.init, Bandit.set_q.
  destruct q as [v|].
  - destruct (Z.eqb_spec (Z.of_nat (length v)) n) as [E|E]; simpl.
    + pose proof (make_arms_length incr_dev v g) as HL.
      pose proof (fun i x => make_arms_explicit incr_dev v g i x) as HX.
      destruct (Bandit.make_arms incr_dev v g) as [l g'].
      repeat split.
      * intros [e He]; discriminate.
      * intros (v' & Hv & Hn). inversion Hv; subst. contradiction.
      * intros e He; discriminate.
      * intros v' Hv _. inversion Hv; subst v'.
        exists (Bandit.mk n v incr_dev l), g'. simpl in *. auto.
      * discriminate.
    + repeat split.
      * intros _. exists v; auto.
      * intros _. exists ValueError; reflexivity.
      * intros e He; inversion He; reflexivity.
      * intros v' Hv Hn. inversion Hv; subst. contradiction.
      * discriminate.
  - simpl.
    pose proof (make_arms_length incr_dev (repeat None (Z.to_nat n)) g) as HL.
    destruct (Bandit.make_arms incr_dev (repeat None (Z.to_nat n)) g) as [l g'].
    rewrite repeat_length in HL. simpl in HL.
    repeat split.
    + intros [e He]; discriminate.
    + intros (v & Hv & _); discriminate.
    + intros e He; discriminate.
    + intros v Hv; discriminate.
    + intros _. exists (Bandit.mk n (repeat None (Z.to_nat n)) incr_dev l), g'.
      simpl. auto.
Qed.

(** [Bandit(n=2, q=[1.0])] is refused; [Bandit(n=2, q=[1.0, -1.0])] and
    [Bandit(n=2)] are built with two arms. *)
Example bandit_init_mismatch (g : rng) :
  Bandit.init 2 (Some [Some 1]) 0 g = Err ValueError.
Proof. reflexivity. Qed.

Example bandit_init_unspecified (g : rng) :
  exists b g', Bandit.init 2 None 0 g = Ok (b, g') /\
               length (Bandit.arms b) = 2%nat.
Proof. eexists. eexists. split; reflexivity. Qed.

Lemma drift_length (l l' : list Arm.t) (g g' : rng) :
  Bandit.drift l g = Ok (l', g') -> length l' = length l.
Proof.
  revert l' g g'; induction l as [|a l IH]; simpl; intros l' g g' H.
  - inversion H; reflexivity.
  - inv_ok. simpl. f_equal. eauto.
Qed.

(** [Bandit.action] writes the arms only: the specification [q], the arm
    count and the drift deviation are left as they were. *)
Lemma action_frame (b b' : Bandit.t) (i : nat) (g g' : rng) (r : R) :
  Bandit.action b i g = Ok (r, b', g') ->
  Bandit.q b' = Bandit.q b /\ Bandit.n b' = Bandit.n b /\
  Bandit.incr_dev b' = Bandit.incr_dev b /\
  length (Bandit.arms b') = length (Bandit.arms b).
Proof.
  unfold Bandit.action. intros H. inv_ok. simpl.
  repeat split. eapply drift_length; eauto.
Qed.

Lemma actions_frame (idxs : list nat) (b b' : Bandit.t) (g g' : rng)
  (rs : list R) :
  bandit_actions b idxs g = Ok (rs, b', g') ->
  Bandit.q b' = Bandit.q b /\ Bandit.n b' = Bandit.n b /\
  Bandit.incr_dev b' = Bandit.incr_dev b.
Proof.
  revert b g rs; induction idxs as [|i idxs IH]; simpl; intros b g rs H.
  - inversion H; auto.
  - inv_ok.
    match goal with
    | H1 : Bandit.action _ _ _ = Ok _, H2 : bandit_actions _ _ _ = Ok _ |- _ =>
        apply action_frame in H1; apply IH in H2;
        destruct H1 as (<- & <- & <- & _); exact H2
    end.
Qed.

(** C8.  Take a bandit built from the explicit values [vs].  After any
    sequence of [action] calls, each of which may drift every arm,
    [reset] gives back arms whose true values are exactly [vs]: the
    stored specification is the one supplied at construction, and the
    arms are rebuilt from it. *)
Theorem bandit_reset_restores_explicit_values
  (vs : list R) (d : R) (g0 g1 g2 g3 g4 : rng) (b b1 : Bandit.t)
  (idxs : list nat) (rs : list R) :
  Bandit.init (Z.of_nat (length vs)) (Some (map Some vs)) d g0 = Ok (b, g1) ->
  bandit_actions b idxs g2 = Ok (rs, b1, g3) ->
  Bandit.q b1 = map Some vs /\
  exists b2,
    Bandit.reset b1 g4 = (b2, g4) /\
    Bandit.q b2 = map Some vs /\
    map Arm.q (Bandit.arms b2) = vs.
Proof.
  intros Hinit Hact.
  apply actions_frame in Hact. destruct Hact as (Hq & Hn & Hd).
  unfold Bandit.init, Bandit.set_q in Hinit.
  rewrite length_map, Z.eqb_refl in Hinit. simpl in Hinit.
  rewrite make_arms_all_explicit in Hinit. inversion Hinit; subst b g1.
  simpl in *. split; [assumption|].
  unfold Bandit.reset. rewrite Hq, make_arms_all_explicit.
  eexists. split; [reflexivity|]. simpl.
  split; [reflexivity|]. rewrite map_map. simpl. apply map_id.
Qed.

Lemma bandit_reset_restores_explicit_values_witness :
  exists b1,
    map Arm.q (Bandit.arms b1) = [1 + 1 * 1 + 1 * 1; -1 + 1 * 1 + 1 * 1] /\
    Bandit.q b1 = map Some [1; -1] /\
    exists b2,
      Bandit.reset b1 (constant_rng 1 0 0) = (b2, constant_rng 1 0 0) /\
      Bandit.q b2 = map Some [1; -1] /\
      map Arm.q (Bandit.arms b2) = [1; -1].
Proof.
  eexists. split; [|
    eapply (bandit_reset_restores_explicit_values [1; -1] 1
              (constant_rng 1 0 0) _ (constant_rng 1 0 0) _
              (constant_rng 1 0 0) _ _ [0; 1]%nat _)].
  2: reflexivity.
  2: { unfold bandit_actions, Bandit.action, Bandit.drift, Arm.reset_q,
         random_normal, Arm.action, random_normal1.
       rdec. reflexivity. }
  simpl. f_equal; [lra | f_equal; lra].
Defined.

(** ** UCB *)

Lemma argmax_from_constant (c : R) (k : nat) :
  forall bi i, argmax_from (Fin c) bi i (repeat (Fin c) k) = bi.
Proof.
  induction k as [|k IH]; intros bi i; simpl; [reflexivity|].
  destruct (Rle_dec c c) as [_|H]; [apply IH | exfalso; lra].
Qed.

(** The preference vector of a fresh or reset player is constant. *)
Lemma initial_preferences_constant (o : bool) (b : R) (n : Z)
  (q : list xreal) :
  BanditPlayer.initial_preferences o b n = Ok q ->
  exists c, q = repeat (Fin c) (Z.to_nat n).
Proof.
  unfold BanditPlayer.initial_preferences, BanditPlayer.zeros.
  destruct (n <? 0)%Z; simpl; [discriminate|]. intros H. inversion H.
  destruct o.
  - exists (0 + b). rewrite map_repeat. reflexivity.
  - exists 0. reflexivity.
Qed.

(** C10.  [UCB.estimate_values] reads the incoming preference vector for
    its length only: with the same internal state, action counts, index
    and reward, two preference vectors of equal length give the same new
    state and the same returned vector (or the same exception).  Hence a
    player that uses UCB gets the same reward, the same new player state
    and the same generator from [use_arm] whatever preference vector of
    that length it held before: its vector is replaced by the output of
    UCB and plays no part in it.  The first greedy choice does not depend
    on the optimistic baseline either: the initial vectors of a player,
    with or without a baseline, have the same length and the same
    [np.argmax]. *)
Theorem ucb_ignores_preference_values
  (u : UCB.t) (prefs1 prefs2 : list xreal) (counts : list nat)
  (indx : nat) (reward : R) :
  length prefs1 = length prefs2 ->
  UCB.estimate_values u prefs1 counts indx reward =
  UCB.estimate_values u prefs2 counts indx reward /\
  (forall (p : BanditPlayer.t) (g : rng),
     BanditPlayer.strategy p = Strategy.Ucb u ->
     BanditPlayer.use_arm (with_preferences p prefs1) indx g =
     BanditPlayer.use_arm (with_preferences p prefs2) indx g) /\
  (forall (o1 o2 : bool) (b1 b2 : R) (n : Z) (q1 q2 : list xreal),
     BanditPlayer.initial_preferences o1 b1 n = Ok q1 ->
     BanditPlayer.initial_preferences o2 b2 n = Ok q2 ->
     length q1 = length q2 /\ argmax q1 = argmax q2).
Proof.
  intros HL.
  assert (E : forall cs i r,
             UCB.estimate_values u prefs1 cs i r =
             UCB.estimate_values u prefs2 cs i r).
  { intros cs i r. unfold UCB.estimate_values. rewrite HL. reflexivity. }
  split; [apply E|]. split.
  - intros p g Hs. unfold BanditPlayer.use_arm, with_preferences. simpl.
    rewrite Hs. simpl.
    destruct (get (BanditPlayer.number_of_actions p) indx) as [k|e];
      simpl; [|reflexivity].
    destruct (set (BanditPlayer.number_of_actions p) indx (k + 1)%nat)
      as [cs|e]; simpl; [|reflexivity].
    destruct (Bandit.action (BanditPlayer.bandit p) indx g) as [[[r b] g']|e];
      simpl; [|reflexivity].
    rewrite E. reflexivity.
  - intros o1 o2 b1 b2 n q1 q2 H1 H2.
    apply initial_preferences_constant in H1, H2.
    destruct H1 as [c1 ->]. destruct H2 as [c2 ->].
    rewrite !repeat_length. split; [reflexivity|].
    destruct (Z.to_nat n) as [|k]; simpl; [reflexivity|].
    rewrite !argmax_from_constant. reflexivity.
Qed.

Lemma ucb_ignores_preference_values_witness :
  UCB.estimate_values (UCB.init 2) [Fin 5; Fin 5] [1; 0]%nat 0 3 =
  UCB.estimate_values (UCB.init 2) [Fin 0; Fin 0] [1; 0]%nat 0 3 /\
  forall (p : BanditPlayer.t) (g : rng),
    BanditPlayer.strategy p = Strategy.Ucb (UCB.init 2) ->
    BanditPlayer.use_arm (with_preferences p [Fin 5; Fin 5]) 0 g =
    BanditPlayer.use_arm (with_preferences p [Fin 0; Fin 0]) 0 g.
Proof.
  destruct (ucb_ignores_preference_values (UCB.init 2) [Fin 5; Fin 5]
              [Fin 0; Fin 0] [1; 0]%nat 0%nat 3 eq_refl) as (H1 & H2 & _).
  split; [exact H1 | exact H2].
Defined.

(** ** The count handed to a strategy *)

Lemma xdiv_one_count (k : nat) :
  (1 <= k)%nat -> xdiv (Fin 1) (Fin (INR k)) = Fin (1 / INR k).
Proof.
  intros H. unfold xdiv.
  destruct (Req_dec_T (INR k) 0) as [E|E]; [|reflexivity].
  exfalso. apply (not_0_INR k); [lia | exact E].
Qed.

Lemma sample_average_step_fin (old : R) (k : nat) (reward : R) :
  (1 <= k)%nat ->
  sample_average_step (Fin old) k reward =
  Fin (old + 1 / INR k * (reward + - old)).
Proof.
  intros H. unfold sample_average_step. rewrite xdiv_one_count by exact H.
  reflexivity.
Qed.

(** C9.  When [use_arm] reaches the call of [estimate_values], the count
    array it passes holds at the chosen index the old count plus one, so
    at least 1: [use_arm] continues with exactly that call, the divisor
    [number_of_actions[indx]] is not zero, the quotient
    [1 / number_of_actions[indx]] of [SampleAverages] and of the internal
    values of [UCB] is the real number 1/k, and the sample-average step
    of a finite estimate is finite. *)
Theorem use_arm_passes_positive_count
  (p : BanditPlayer.t) (indx : nat) (g g' : rng) (prefs : list xreal)
  (counts : list nat) (i : nat) (reward : R) (b : Bandit.t) :
  use_arm_call p indx g = Ok (prefs, counts, i, reward, b, g') ->
  BanditPlayer.use_arm p indx g =
    ('(s, prefs') <- Strategy.estimate_values (BanditPlayer.strategy p)
                       prefs counts i reward ;;
     Ok (reward,
         BanditPlayer.mk (BanditPlayer.eps p) (BanditPlayer.n_steps p) s
           (BanditPlayer.optimist p) (BanditPlayer.baseline p) b
           (BanditPlayer.rewards p) counts prefs',
         g')) /\
  exists k,
    get (BanditPlayer.number_of_actions p) indx = Ok k /\
    get counts i = Ok (k + 1)%nat /\
    (1 <= k + 1)%nat /\
    INR (k + 1) <> 0 /\
    xdiv (Fin 1) (Fin (INR (k + 1))) = Fin (1 / INR (k + 1)) /\
    forall old,
      sample_average_step (Fin old) (k + 1) reward =
      Fin (old + 1 / INR (k + 1) * (reward + - old)).
Proof.
  unfold use_arm_call, BanditPlayer.use_arm. intros H.
  destruct (get (BanditPlayer.number_of_actions p) indx) as [k|e] eqn:Ek;
    simpl in *; [|discriminate].
  destruct (set (BanditPlayer.number_of_actions p) indx (k + 1)%nat)
    as [cs|e] eqn:Es; simpl in *; [|discriminate].
  destruct (Bandit.action (BanditPlayer.bandit p) indx g)
    as [[[r b0] g0]|e]; simpl in *; [|discriminate].
  inversion H; subst. split; [reflexivity|].
  apply set_ok in Es. destruct Es as [Hlt ->].
  exists k. repeat split.
  - apply get_ok. apply upd_same. exact Hlt.
  - lia.
  - apply not_0_INR. lia.
  - apply xdiv_one_count. lia.
  - intros old. apply sample_average_step_fin. lia.
Qed.

Lemma two_arms_init (g : rng) :
  Bandit.init 2 (Some [Some 1; Some (-1)]) 0 g = Ok (two_arms, g).
Proof. reflexivity. Qed.

Lemma fresh_player_init (s : Strategy.t) (n_steps : nat) :
  BanditPlayer.init two_arms 0 n_steps s false 5 = Ok (fresh_player s n_steps).
Proof. reflexivity. Qed.

Lemma use_arm_passes_positive_count_witness :
  exists k,
    get (BanditPlayer.number_of_actions (fresh_player Strategy.SA 1)) 0 = Ok k /\
    get [1; 0]%nat 0 = Ok (k + 1)%nat /\
    (1 <= k + 1)%nat /\
    INR (k + 1) <> 0 /\
    xdiv (Fin 1) (Fin (INR (k + 1))) = Fin (1 / INR (k + 1)) /\
    forall old,
      sample_average_step (Fin old) (k + 1) (1 + 1 * 0) =
      Fin (old + 1 / INR (k + 1) * (1 + 1 * 0 + - old)).
Proof.
  eapply proj2.
  eapply (use_arm_passes_positive_count (fresh_player Strategy.SA 1) 0
            (constant_rng 0 0 0)).
  unfold use_arm_call, fresh_player, two_arms, constant_rng.
  rdec. reflexivity.
Defined.

(** ** Arrays of finite floats *)

Lemma fold_left_Rplus (l : list R) (a : R) :
  fold_left Rplus l a = a + Rsum l.
Proof.
  unfold Rsum. revert a; induction l as [|x l IH]; intros a; simpl.
  - lra.
  - rewrite (IH (a + x)), (IH (0 + x)). lra.
Qed.

Lemma Rsum_cons (x : R) (l : list R) : Rsum (x :: l) = x + Rsum l.
Proof. unfold Rsum at 1. simpl. rewrite fold_left_Rplus. lra. Qed.

Lemma Rsum_app (l1 l2 : list R) : Rsum (l1 ++ l2) = Rsum l1 + Rsum l2.
Proof.
  induction l1 as [|x l1 IH]; simpl.
  - unfold Rsum at 2. simpl. lra.
  - rewrite !Rsum_cons, IH. lra.
Qed.

Lemma Rsum_map_div (l : list R) (s : R) :
  Rsum (map (fun x => x / s) l) = Rsum l / s.
Proof.
  induction l as [|x l IH]; simpl.
  - unfold Rsum. simpl. lra.
  - rewrite !Rsum_cons, IH. lra.
Qed.

Lemma Rsum_exp_pos (l : list R) : l <> [] -> 0 < Rsum (map exp l).
Proof.
  assert (H : forall l, 0 <= Rsum (map exp l)).
  { induction l0 as [|x l0 IH]; simpl.
    - unfold Rsum; simpl; lra.
    - rewrite Rsum_cons. pose proof (exp_pos x). lra. }
  destruct l as [|x l]; [congruence|]. intros _. simpl.
  rewrite Rsum_cons. pose proof (exp_pos x). specialize (H l). lra.
Qed.

Lemma xsum_fin (l : list R) :
  GradientBandit.xsum (map Fin l) = Fin (Rsum l).
Proof.
  unfold GradientBandit.xsum.
  assert (H : forall a, fold_left xadd (map Fin l) (Fin a) = Fin (a + Rsum l)).
  { induction l as [|x l IH]; intros a; simpl.
    - unfold Rsum; simpl. f_equal; lra.
    - rewrite IH, Rsum_cons. f_equal; lra. }
  rewrite H. f_equal; lra.
Qed.

Lemma nth_error_map_Fin (l : list R) (i : nat) :
  nth_error (map Fin l) i = option_map Fin (nth_error l i).
Proof. apply nth_error_map. Qed.

Lemma upd_map {A B : Type} (f : A -> B) (l : list A) (i : nat) (v : A) :
  upd (map f l) i (f v) = map f (upd l i v).
Proof.
  revert i; induction l as [|x l IH]; intros [|i]; simpl; auto.
  rewrite IH. reflexivity.
Qed.

Lemma zip_with_map_Fin (f : xreal -> xreal -> xreal) (h : R -> R -> R)
  (a b : list R) :
  (forall x y, f (Fin x) (Fin y) = Fin (h x y)) ->
  zip_with f (map Fin a) (map Fin b) = map Fin (zip_with h a b).
Proof.
  intros H. revert b; induction a as [|x a IH]; intros [|y b]; simpl; auto.
  rewrite H, IH. reflexivity.
Qed.

(** The softmax of a non-empty vector of reals is a vector of reals that
    sums to 1. *)
Lemma derive_probs_fin (qs : list R) :
  qs <> [] ->
  GradientBandit.derive_probs (map Fin qs) =
    map Fin (map (fun x => x / Rsum (map exp qs)) (map exp qs)) /\
  Rsum (map (fun x => x / Rsum (map exp qs)) (map exp qs)) = 1.
Proof.
  intros Hne. pose proof (Rsum_exp_pos qs Hne) as Hpos. split.
  - unfold GradientBandit.derive_probs.
    replace (map xexp (map Fin qs)) with (map Fin (map exp qs))
      by (rewrite !map_map; reflexivity).
    rewrite xsum_fin, !map_map. apply map_ext. intros x.
    unfold xdiv. destruct (Req_dec_T (Rsum (map exp qs)) 0); [lra|reflexivity].
  - rewrite Rsum_map_div. field. lra.
Qed.

(** The uniform vector [np.ones(n) / n]. *)
Lemma init_probs_uniform (n : nat) :
  (1 <= n)%nat ->
  GradientBandit.init_probs None n = map Fin (repeat (1 / INR n) n).
Proof.
  intros H. unfold GradientBandit.init_probs.
  generalize n at 2 4. intros k. induction k as [|k IH]; simpl; auto.
  rewrite IH. f_equal. unfold xdiv.
  destruct (Req_dec_T (INR n) 0) as [E|E]; [|reflexivity].
  exfalso. apply (not_0_INR n); [lia | exact E].
Qed.

(** ** Gradient bandit *)

(** On real inputs of matching length, with a time that is not negative,
    the update succeeds and computes the two-phase vector. *)
Lemma gradient_estimate_values_fin (s : GradientBandit.t) (qs ps : list R)
  (counts : list nat) (a : nat) (r : R) :
  GradientBandit.init_probs (GradientBandit.probs s) (length qs) = map Fin ps ->
  length ps = length qs ->
  (a < length qs)%nat ->
  (0 <= GradientBandit.time s)%Z ->
  let m' := GradientBandit.mean_reward s +
            1 / IZR (GradientBandit.time s + 1) *
            (r - GradientBandit.mean_reward s) in
  let step := GradientBandit.alpha s * (r - m') in
  let qs' := gradient_two_phase step qs ps a in
  length qs' = length qs /\
  GradientBandit.estimate_values s (map Fin qs) counts a r =
    Ok (GradientBandit.mk (GradientBandit.alpha s) m'
          (GradientBandit.time s + 1)
          (Some (GradientBandit.derive_probs (map Fin qs'))),
        map Fin qs').
Proof.
  intros Hp HL Ha Ht m' step qs'.
  assert (HL1 : length (zip_with (fun q y => q + - y) qs (map (Rmult step) ps))
                = length qs).
  { apply zip_with_length. rewrite length_map. auto. }
  split.
  { unfold qs', gradient_two_phase. rewrite upd_length. exact HL1. }
  unfold GradientBandit.estimate_values.
  rewrite length_map, Hp.
  destruct (Z.eqb_spec (GradientBandit.time s + 1) 0) as [E|_]; [lia|].
  fold m'. fold step.
  replace (map (xmul (Fin step)) (map Fin ps))
    with (map Fin (map (Rmult step) ps))
    by (rewrite !map_map; reflexivity).
  rewrite inplace2_same by (rewrite !length_map; auto).
  rewrite (zip_with_map_Fin xsub (fun q y => q + - y)) by reflexivity.
  simpl.
  set (qs1 := zip_with (fun q y => q + - y) qs (map (Rmult step) ps)) in *.
  assert (Hg : get (map Fin qs1) a = Ok (Fin (nth a qs1 0))).
  { apply get_ok. rewrite nth_error_map_Fin.
    rewrite (nth_error_nth' qs1 0) by lia. reflexivity. }
  rewrite Hg. simpl.
  unfold set. rewrite length_map.
  destruct (Nat.ltb_spec a (length qs1)) as [_|Hge]; [|lia].
  simpl. rewrite (upd_map Fin). reflexivity.
Qed.

Lemma gradient_two_phase_nth (step : R) (qs ps : list R) (a j : nat)
  (q p : R) :
  nth_error qs j = Some q -> nth_error ps j = Some p ->
  nth_error (gradient_two_phase step qs ps a) j =
    Some (if (j =? a)%nat then q + step * (1 - p) else q - step * p).
Proof.
  intros Hq Hp. unfold gradient_two_phase.
  set (qs1 := zip_with (fun q y => q + - y) qs (map (Rmult step) ps)).
  assert (H1 : nth_error qs1 j = Some (q + - (step * p))).
  { apply (zip_with_nth (fun q y => q + - y) qs (map (Rmult step) ps) j q
             (step * p)); [exact Hq|].
    rewrite nth_error_map, Hp. reflexivity. }
  destruct (Nat.eqb_spec j a) as [->|Hne].
  - rewrite upd_same.
    + rewrite (nth_error_nth _ _ 0 H1). f_equal. lra.
    + apply nth_error_Some. congruence.
  - rewrite upd_other by congruence. rewrite H1. reflexivity.
Qed.

(** C5.  One call of [GradientBandit.estimate_values] on a real
    preference vector [qs], where [ps] is the probability vector the
    strategy holds before the call, or the uniform vector when it holds
    none yet (the first call), increments the time, updates the mean
    reward by the sample-average rule first, and returns the vector whose
    entry [j] is [qs[j] - alpha (r - m') ps[j]] for [j <> a] and
    [qs[a] + alpha (r - m') (1 - ps[a])] for the chosen index [a], where
    [m'] is the updated mean: the two phases of the source amount to the
    update by cases. *)
Theorem gradient_bandit_update (s : GradientBandit.t) (qs ps : list R)
  (counts : list nat) (a : nat) (r : R) :
  GradientBandit.probs s = Some (map Fin ps) \/
  (GradientBandit.probs s = None /\
   ps = repeat (1 / INR (length qs)) (length qs)) ->
  length ps = length qs ->
  (a < length qs)%nat ->
  (0 <= GradientBandit.time s)%Z ->
  exists (s' : GradientBandit.t) (qs' : list R),
    GradientBandit.estimate_values s (map Fin qs) counts a r =
      Ok (s', map Fin qs') /\
    qs' = gradient_two_phase
            (GradientBandit.alpha s * (r - GradientBandit.mean_reward s'))
            qs ps a /\
    GradientBandit.time s' = (GradientBandit.time s + 1)%Z /\
    GradientBandit.alpha s' = GradientBandit.alpha s /\
    GradientBandit.mean_reward s' =
      GradientBandit.mean_reward s +
      1 / IZR (GradientBandit.time s') * (r - GradientBandit.mean_reward s) /\
    (GradientBandit.probs s = None -> ps = repeat (1 / INR (length qs)) (length qs)) /\
    length qs' = length qs /\
    forall j q p,
      nth_error qs j = Some q -> nth_error ps j = Some p ->
      nth_error qs' j =
        Some (if (j =? a)%nat
              then q + GradientBandit.alpha s *
                       (r - GradientBandit.mean_reward s') * (1 - p)
              else q - GradientBandit.alpha s *
                       (r - GradientBandit.mean_reward s') * p).
Proof.
  intros Hheld HL Ha Ht.
  assert (Hp : GradientBandit.init_probs (GradientBandit.probs s) (length qs) =
               map Fin ps).
  { destruct Hheld as [Hs|[Hn Hu]].
    - rewrite Hs. reflexivity.
    - rewrite Hn, Hu. apply init_probs_uniform. lia. }
  destruct (gradient_estimate_values_fin s qs ps counts a r Hp HL Ha Ht)
    as [Hlen Hev].
  eexists. eexists. split; [exact Hev|]. simpl.
  repeat split; auto.
  - intros Hn. destruct Hheld as [Hs|[_ Hu]]; [congruence | exact Hu].
  - intros j q p Hq Hj. apply gradient_two_phase_nth; assumption.
Qed.

Lemma gradient_bandit_update_witness :
  (exists (s' : GradientBandit.t) (qs' : list R),
     GradientBandit.estimate_values
       (GradientBandit.mk (1 / 10) 1 1 (Some [Fin (1 / 4); Fin (3 / 4)]))
       [Fin 0; Fin 0] [1; 0]%nat 0 3 = Ok (s', map Fin qs') /\
     GradientBandit.time s' = 2%Z /\
     GradientBandit.mean_reward s' = 2 /\
     nth_error qs' 0 = Some (3 / 40) /\
     nth_error qs' 1 = Some (- 3 / 40)) /\
  (exists (s' : GradientBandit.t) (qs' : list R),
     GradientBandit.estimate_values
       (GradientBandit.mk (1 / 10) 1 1 None)
       [Fin 0; Fin 0; Fin 0] [1; 0; 0]%nat 0 3 = Ok (s', map Fin qs') /\
     GradientBandit.mean_reward s' = 2 /\
     nth_error qs' 0 = Some (1 / 15) /\
     nth_error qs' 1 = Some (- 1 / 30) /\
     nth_error qs' 2 = Some (- 1 / 30)).
Proof.
  split.
  - destruct (gradient_bandit_update
                (GradientBandit.mk (1 / 10) 1 1
                   (Some [Fin (1 / 4); Fin (3 / 4)]))
                [0; 0] [1 / 4; 3 / 4] [1; 0]%nat 0%nat 3
                (or_introl eq_refl) eq_refl (Nat.lt_0_succ 1) (Z.le_0_1))
      as (s' & qs' & Hev & _ & Ht & Hal & Hm & _ & _ & Hnth).
    simpl in Ht, Hal, Hm.
    assert (Hm2 : GradientBandit.mean_reward s' = 2).
    { rewrite Hm, Ht. lra. }
    exists s', qs'. split; [exact Hev|]. split; [exact Ht|].
    split; [exact Hm2|]. split.
    + rewrite (Hnth 0%nat 0 (1 / 4) eq_refl eq_refl). simpl.
      rewrite Hm2. f_equal. lra.
    + rewrite (Hnth 1%nat 0 (3 / 4) eq_refl eq_refl). simpl.
      rewrite Hm2. f_equal. lra.
  - destruct (gradient_bandit_update
                (GradientBandit.mk (1 / 10) 1 1 None)
                [0; 0; 0] (repeat (1 / INR 3) 3) [1; 0; 0]%nat 0%nat 3
                (or_intror (conj eq_refl eq_refl)) eq_refl
                (Nat.lt_0_succ 2) (Z.le_0_1))
      as (s' & qs' & Hev & _ & Ht & Hal & Hm & _ & _ & Hnth).
    simpl in Ht, Hal, Hm.
    assert (Hm2 : GradientBandit.mean_reward s' = 2).
    { rewrite Hm, Ht. lra. }
    exists s', qs'. split; [exact Hev|]. split; [exact Hm2|].
    split; [|split].
    + rewrite (Hnth 0%nat 0 (1 / INR 3) eq_refl eq_refl). simpl.
      rewrite Hm2. f_equal. lra.
    + rewrite (Hnth 1%nat 0 (1 / INR 3) eq_refl eq_refl). simpl.
      rewrite Hm2. f_equal. lra.
    + rewrite (Hnth 2%nat 0 (1 / INR 3) eq_refl eq_refl). simpl.
      rewrite Hm2. f_equal. lra.
Defined.

(** C6.  After a call of [GradientBandit.estimate_values] on a real
    preference vector, the probability vector held by the strategy is
    the softmax of the returned preferences: a vector of reals, one per
    arm, that sums to 1. *)
Theorem gradient_bandit_probs_sum_to_one (s : GradientBandit.t)
  (qs ps : list R) (counts : list nat) (a : nat) (r : R) :
  GradientBandit.init_probs (GradientBandit.probs s) (length qs) = map Fin ps ->
  length ps = length qs ->
  (a < length qs)%nat ->
  (0 <= GradientBandit.time s)%Z ->
  exists (s' : GradientBandit.t) (qs' ps' : list R),
    GradientBandit.estimate_values s (map Fin qs) counts a r =
      Ok (s', map Fin qs') /\
    GradientBandit.probs s' = Some (map Fin ps') /\
    ps' = map (fun x => exp x / Rsum (map exp qs')) qs' /\
    length ps' = length qs /\
    Rsum ps' = 1.
Proof.
  intros Hp HL Ha Ht.
  destruct (gradient_estimate_values_fin s qs ps counts a r Hp HL Ha Ht)
    as [Hlen Hev].
  set (qs' := gradient_two_phase _ qs ps a) in *.
  assert (Hne : qs' <> []).
  { intros E. rewrite E in Hlen. simpl in Hlen. lia. }
  destruct (derive_probs_fin qs' Hne) as [Hd Hs].
  eexists. exists qs'. eexists. split; [exact Hev|]. simpl.
  split; [rewrite Hd; reflexivity|].
  split; [rewrite map_map; reflexivity|].
  split; [rewrite !length_map; exact Hlen | exact Hs].
Qed.

Lemma gradient_bandit_probs_sum_to_one_witness :
  exists (s' : GradientBandit.t) (qs' ps' : list R),
    GradientBandit.estimate_values (GradientBandit.init (1 / 10))
      [Fin 0; Fin 5; Fin (-3)] [0; 1; 0]%nat 1 2 = Ok (s', map Fin qs') /\
    GradientBandit.probs s' = Some (map Fin ps') /\
    ps' = map (fun x => exp x / Rsum (map exp qs')) qs' /\
    length ps' = 3%nat /\
    Rsum ps' = 1.
Proof.
  apply (gradient_bandit_probs_sum_to_one (GradientBandit.init (1 / 10))
           [0; 5; -3] (repeat (1 / INR 3) 3) [0; 1; 0]%nat 1%nat 2).
  - apply (init_probs_uniform 3). lia.
  - reflexivity.
  - simpl. lia.
  - simpl. lia.
Defined.

(** ** UCB: the bonus and forced exploration *)

Lemma ln_time_pos (t : Z) : (2 <= t)%Z -> 0 < ln (IZR t).
Proof.
  intros H. rewrite <- ln_1. apply ln_increasing; [lra|].
  apply (IZR_lt 1 t). lia.
Qed.

(** The bonus of an arm that was tried is a real number. *)
Lemma bonus_tried (c : R) (t : Z) (n : nat) :
  (2 <= t)%Z -> (1 <= n)%nat ->
  UCB.bonus c t n = Fin (c * sqrt (ln (IZR t) / INR n)).
Proof.
  intros Ht Hn. unfold UCB.bonus, xlog_int.
  destruct (Z.ltb_spec 0 t) as [_|]; [|lia].
  unfold xdiv. destruct (Req_dec_T (INR n) 0) as [E|_].
  { exfalso. apply (not_0_INR n); [lia | exact E]. }
  unfold xsqrt. destruct (Rlt_dec (ln (IZR t) / INR n) 0) as [Hneg|_].
  { exfalso. pose proof (ln_time_pos t Ht) as Hl.
    assert (0 < INR n) by (apply lt_0_INR; lia).
    assert (0 < ln (IZR t) / INR n) by (apply Rdiv_lt_0_compat; assumption).
    lra. }
  reflexivity.
Qed.

(** The bonus of an untried arm is infinite, for a positive [c]. *)
Lemma bonus_untried (c : R) (t : Z) :
  (2 <= t)%Z -> 0 < c -> UCB.bonus c t 0 = PInf.
Proof.
  intros Ht Hc. unfold UCB.bonus, xlog_int.
  destruct (Z.ltb_spec 0 t) as [_|]; [|lia].
  pose proof (ln_time_pos t Ht) as Hl.
  unfold xdiv. simpl INR. destruct (Req_dec_T 0 0) as [_|E]; [|congruence].
  unfold Rsign. destruct (Rlt_dec 0 (ln (IZR t))) as [_|]; [|contradiction].
  simpl. unfold Rsign. destruct (Rlt_dec 0 c) as [_|]; [|contradiction].
  reflexivity.
Qed.

(** On an array of reals and positive infinities that holds an infinity,
    [np.argmax] returns the index of an infinity. *)
Lemma argmax_from_inf (l : list xreal) :
  forall (best : xreal) (bi i : nat),
    (forall x, In x l -> x = PInf \/ is_fin x) ->
    (best = PInf \/ is_fin best) ->
    (best = PInf \/ In PInf l) ->
    (argmax_from best bi i l = bi /\ best = PInf) \/
    ((i <= argmax_from best bi i l)%nat /\
     nth_error l (argmax_from best bi i l - i) = Some PInf).
Proof.
  induction l as [|x l IH]; intros best bi i Hl Hb Hinf.
  - simpl. destruct Hinf as [->|[]]. auto.
  - assert (Hx : x = PInf \/ is_fin x) by (apply Hl; left; reflexivity).
    assert (Hl' : forall y, In y l -> y = PInf \/ is_fin y)
      by (intros y Hy; apply Hl; right; exact Hy).
    simpl.
    assert (Hnan : is_nan best = false).
    { destruct Hb as [->|Hb]; [reflexivity|]. destruct best; simpl in *; tauto. }
    rewrite Hnan.
    destruct (xleb x best) eqn:Hle.
    + assert (Hinf' : best = PInf \/ In PInf l).
      { destruct Hinf as [->|[->|Hin]]; auto.
        destruct Hb as [->|Hb]; auto.
        destruct best; simpl in *; try tauto; discriminate. }
      destruct (IH best bi (S i) Hl' Hb Hinf') as [[E1 E2]|[E1 E2]]; auto.
      right. split; [lia|].
      replace (argmax_from best bi (S i) l - i)%nat
        with (S (argmax_from best bi (S i) l - S i)) by lia.
      exact E2.
    + assert (Hinf' : x = PInf \/ In PInf l).
      { destruct Hinf as [->|[->|Hin]]; auto.
        destruct Hx as [->|Hx]; auto.
        destruct x; simpl in *; try tauto; discriminate. }
      destruct (IH x i (S i) Hl' Hx Hinf') as [[E1 E2]|[E1 E2]].
      * right. rewrite E1. split; [lia|]. rewrite Nat.sub_diag. simpl.
        congruence.
      * right. split; [lia|].
        replace (argmax_from x i (S i) l - i)%nat
          with (S (argmax_from x i (S i) l - S i)) by lia.
        exact E2.
Qed.

Lemma argmax_picks_inf (out : list xreal) :
  (forall x, In x out -> x = PInf \/ is_fin x) ->
  In PInf out ->
  exists j, argmax out = Ok j /\ nth_error out j = Some PInf.
Proof.
  destruct out as [|x l]; intros Hl Hin; [destruct Hin|].
  simpl. eexists. split; [reflexivity|].
  assert (Hx : x = PInf \/ is_fin x) by (apply Hl; left; reflexivity).
  assert (Hinf : x = PInf \/ In PInf l) by (destruct Hin; auto).
  destruct (argmax_from_inf l x 0 1
              (fun y Hy => Hl y (or_intror Hy)) Hx Hinf) as [[E1 E2]|[E1 E2]].
  - rewrite E1. simpl. congruence.
  - destruct (argmax_from x 0 1 l) as [|j]; [lia|].
    simpl in *. rewrite Nat.sub_0_r in E2. exact E2.
Qed.

Lemma ucb_entry (c : R) (t : Z) (v : R) (n : nat) :
  (2 <= t)%Z -> 0 < c ->
  xadd (Fin v) (UCB.bonus c t n) = ucb_preference c t v n.
Proof.
  intros Ht Hc. unfold ucb_preference. destruct n as [|n].
  - rewrite bonus_untried by assumption. reflexivity.
  - rewrite bonus_tried by (auto; lia). reflexivity.
Qed.

(** The exploitation branch of [get_arms_id]: with [eps] in [0, 1] and
    a uniform draw that is not below [eps], the index is the [np.argmax]
    of the preferences. *)
Lemma get_arms_id_exploit (p : BanditPlayer.t) (g : rng) (j : nat) :
  0 <= BanditPlayer.eps p <= 1 ->
  ~ uniform_draws g (uniform_pos g) < BanditPlayer.eps p ->
  argmax (BanditPlayer.preferences p) = Ok j ->
  BanditPlayer.get_arms_id p g =
    Ok (j, mk_rng (normal_draws g) (uniform_draws g) (int_draws g)
             (normal_pos g) (S (uniform_pos g)) (int_pos g)).
Proof.
  intros He Hu Ha. unfold BanditPlayer.get_arms_id, random_binomial1.
  destruct (Rlt_dec (BanditPlayer.eps p) 0); [lra|].
  destruct (Rlt_dec 1 (BanditPlayer.eps p)); [lra|].
  destruct (Rlt_dec (uniform_draws g (uniform_pos g)) (BanditPlayer.eps p));
    [contradiction|].
  cbn [bind]. simpl. rewrite Ha. reflexivity.
Qed.

(** C3.  Take a call of [UCB.estimate_values] whose chosen arm has a
    count [k >= 1], in a state with real internal values and a time of at
    least 1, for a positive [c].  The call succeeds; the new time is the
    old one plus one; the internal value of the chosen arm moves by the
    sample-average rule and the others stay; entry [i] of the returned
    vector is [value'[i] + c * sqrt (ln time' / count[i])] with the new
    time and values, and is +infinity when [count[i]] is 0.  If some arm
    is untried, [np.argmax] of the returned vector is an untried arm,
    whose preference is +infinity while every tried arm has a real
    one; and a player that holds the returned vector as its preferences,
    as [use_arm] stores it, and takes the exploitation branch of
    [get_arms_id] is given an untried arm, which is none of the tried
    ones. *)
Theorem ucb_estimate_values_bonus (u : UCB.t) (prefs : list xreal)
  (counts : list nat) (vs : list R) (indx k : nat) (reward : R) :
  UCB.init_values (UCB.values u) (length prefs) = map Fin vs ->
  length counts = length vs ->
  nth_error counts indx = Some k ->
  (1 <= k)%nat ->
  (1 <= UCB.time u)%Z ->
  0 < UCB.c u ->
  exists (old : R) (vs' : list R) (out : list xreal),
    nth_error vs indx = Some old /\
    vs' = upd vs indx (old + 1 / INR k * (reward - old)) /\
    UCB.estimate_values u prefs counts indx reward =
      Ok (UCB.mk (UCB.c u) (UCB.time u + 1) (Some (map Fin vs')), out) /\
    length out = length counts /\
    (forall i v n,
       nth_error vs' i = Some v -> nth_error counts i = Some n ->
       nth_error out i = Some (ucb_preference (UCB.c u) (UCB.time u + 1) v n)) /\
    (forall i n x,
       nth_error counts i = Some n -> (1 <= n)%nat ->
       nth_error out i = Some x -> is_fin x) /\
    (forall i,
       nth_error counts i = Some 0%nat -> nth_error out i = Some PInf) /\
    (In 0%nat counts ->
     exists j, argmax out = Ok j /\
               nth_error counts j = Some 0%nat /\
               nth_error out j = Some PInf) /\
    (In 0%nat counts ->
     forall (p : BanditPlayer.t) (g : rng),
       BanditPlayer.preferences p = out ->
       0 <= BanditPlayer.eps p <= 1 ->
       ~ uniform_draws g (uniform_pos g) < BanditPlayer.eps p ->
       exists j g',
         BanditPlayer.get_arms_id p g = Ok (j, g') /\
         nth_error counts j = Some 0%nat /\
         nth_error (BanditPlayer.preferences p) j = Some PInf /\
         forall i n x,
           nth_error counts i = Some n -> (1 <= n)%nat ->
           nth_error (BanditPlayer.preferences p) i = Some x ->
           is_fin x /\ i <> j).
Proof.
  intros Hv HL Hk Hk1 Ht Hc.
  assert (Hlt : (indx < length vs)%nat).
  { rewrite <- HL. apply nth_error_Some. congruence. }
  destruct (nth_error vs indx) as [old|] eqn:Hold;
    [|apply nth_error_None in Hold; lia].
  set (vs' := upd vs indx (old + 1 / INR k * (reward - old))).
  set (t' := (UCB.time u + 1)%Z).
  set (out := zip_with xadd (map Fin vs') (map (UCB.bonus (UCB.c u) t') counts)).
  assert (Hlen' : length vs' = length vs) by apply upd_length.
  assert (Hev : UCB.estimate_values u prefs counts indx reward =
                Ok (UCB.mk (UCB.c u) t' (Some (map Fin vs')), out)).
  { unfold UCB.estimate_values. rewrite Hv.
    assert (Hg : get (map Fin vs) indx = Ok (Fin old)).
    { apply get_ok. rewrite nth_error_map_Fin, Hold. reflexivity. }
    rewrite Hg. cbn [bind].
    assert (Hg2 : get counts indx = Ok k) by (apply get_ok; exact Hk).
    rewrite Hg2. cbn [bind].
    rewrite sample_average_step_fin by exact Hk1.
    unfold set. rewrite length_map.
    destruct (Nat.ltb_spec indx (length vs)) as [_|]; [|lia].
    cbn [bind]. rewrite (upd_map Fin).
    change (upd vs indx (old + 1 / INR k * (reward + - old))) with vs'.
    fold t'.
    rewrite broadcast2_same by (rewrite !length_map; lia).
    reflexivity. }
  assert (Hout : forall i v n,
             nth_error vs' i = Some v -> nth_error counts i = Some n ->
             nth_error out i =
               Some (ucb_preference (UCB.c u) t' v n)).
  { intros i v n Hi Hn. unfold out.
    rewrite <- (ucb_entry (UCB.c u) t' v n) by (auto; unfold t'; lia).
    apply zip_with_nth.
    - rewrite nth_error_map_Fin, Hi. reflexivity.
    - rewrite nth_error_map, Hn. reflexivity. }
  assert (Hlo : length out = length counts).
  { unfold out. rewrite zip_with_length; rewrite !length_map; lia. }
  assert (Hval : forall i n, nth_error counts i = Some n ->
                   exists v, nth_error vs' i = Some v).
  { intros i n Hn. destruct (nth_error vs' i) as [v|] eqn:E; eauto.
    apply nth_error_None in E.
    assert (i < length counts)%nat by (apply nth_error_Some; congruence).
    lia. }
  assert (Hfin : forall i n x,
             nth_error counts i = Some n -> (1 <= n)%nat ->
             nth_error out i = Some x -> is_fin x).
  { intros i n x Hn Hn1 Hx. destruct (Hval i n Hn) as [v Hv'].
    rewrite (Hout i v n Hv' Hn) in Hx. inversion Hx; subst.
    unfold ucb_preference. destruct n; [lia|]. exact I. }
  assert (Hinf : forall i, nth_error counts i = Some 0%nat ->
                   nth_error out i = Some PInf).
  { intros i Hn. destruct (Hval i 0%nat Hn) as [v Hv'].
    rewrite (Hout i v 0%nat Hv' Hn). reflexivity. }
  assert (Harg : In 0%nat counts ->
                 exists j, argmax out = Ok j /\
                           nth_error counts j = Some 0%nat /\
                           nth_error out j = Some PInf);
    [|exists old, vs', out;
      do 7 (split; [first [reflexivity | assumption]|]);
      split; [exact Harg|];
      intros Hin p g Hp He Hu;
      destruct (Harg Hin) as (j & Hj & Hc0 & Hjv);
      exists j; eexists;
      split; [apply get_arms_id_exploit; [exact He | exact Hu | rewrite Hp; exact Hj]|];
      split; [exact Hc0|];
      split; [rewrite Hp; exact Hjv|];
      intros i n x Hn Hn1 Hx; rewrite Hp in Hx;
      split; [exact (Hfin i n x Hn Hn1 Hx)|];
      intros E; subst i; rewrite Hc0 in Hn; inversion Hn; subst n; lia].
  intros Hin. apply In_nth_error in Hin. destruct Hin as [i0 Hi0].
  destruct (argmax_picks_inf out) as (j & Hj & Hjv).
  - intros x Hx. apply In_nth_error in Hx. destruct Hx as [i Hi].
    assert (Hic : (i < length counts)%nat).
    { rewrite <- Hlo. apply nth_error_Some. congruence. }
    destruct (nth_error counts i) as [n|] eqn:Hn;
      [|apply nth_error_None in Hn; lia].
    destruct n as [|n].
    + left. rewrite (Hinf i Hn) in Hi. congruence.
    + right. apply (Hfin i (S n) x Hn); [lia | exact Hi].
  - apply (nth_error_In out i0). apply Hinf. exact Hi0.
  - exists j. repeat split; auto.
    assert (Hjc : (j < length counts)%nat).
    { rewrite <- Hlo. apply nth_error_Some. congruence. }
    destruct (nth_error counts j) as [n|] eqn:Hn;
      [|apply nth_error_None in Hn; lia].
    destruct n as [|n]; [reflexivity|].
    exfalso. apply (Hfin j (S n) PInf Hn); [lia | exact Hjv].
Qed.

Lemma ucb_estimate_values_bonus_witness :
  exists (vs' : list R) (out : list xreal) (p1 : BanditPlayer.t)
         (g1 g2 : rng),
    UCB.estimate_values (UCB.init 2) [Fin 0; Fin 0] [1; 0]%nat 0 (1 + 1 * 0) =
      Ok (UCB.mk 2 2 (Some (map Fin vs')), out) /\
    nth_error vs' 0 = Some (0 + 1 / INR 1 * (1 + 1 * 0 - 0)) /\
    nth_error out 1 = Some PInf /\
    argmax out = Ok 1%nat /\
    BanditPlayer.use_arm (fresh_player (Strategy.Ucb (UCB.init 2)) 2) 0
      (constant_rng 0 0 0) = Ok (1 + 1 * 0, p1, g1) /\
    BanditPlayer.preferences p1 = out /\
    BanditPlayer.get_arms_id p1 g1 = Ok (1%nat, g2).
Proof.
  destruct (ucb_estimate_values_bonus (UCB.init 2) [Fin 0; Fin 0]
              [1; 0]%nat [0; 0] 0%nat 1%nat (1 + 1 * 0)
              eq_refl eq_refl eq_refl (le_n 1) (Z.le_refl 1) Rlt_0_2)
    as (old & vs' & out & Hold & Hvs & Hev & _ & _ & _ & Hinf & Harg & Hget).
  simpl in Hold. inversion Hold; subst old.
  assert (Hin : In 0%nat [1; 0]%nat) by (right; left; reflexivity).
  assert (Hone : forall j, nth_error [1; 0]%nat j = Some 0%nat -> j = 1%nat).
  { intros [|[|[|j]]] Hj; simpl in Hj; try discriminate; reflexivity. }
  assert (Hact : Bandit.action two_arms 0 (constant_rng 0 0 0) =
                 Ok (1 + 1 * 0, two_arms,
                     mk_rng (fun _ => 0) (fun _ => 0) (fun _ => 0%nat) 1 0 0)).
  { unfold two_arms, constant_rng. rdec. reflexivity. }
  set (p1 := BanditPlayer.mk 0 2
               (Strategy.Ucb (UCB.mk 2 2 (Some (map Fin vs')))) false 5
               two_arms (repeat 0 2) [1; 0]%nat out).
  assert (Huse : BanditPlayer.use_arm
                   (fresh_player (Strategy.Ucb (UCB.init 2)) 2) 0
                   (constant_rng 0 0 0) =
                 Ok (1 + 1 * 0, p1,
                     mk_rng (fun _ => 0) (fun _ => 0) (fun _ => 0%nat) 1 0 0)).
  { unfold BanditPlayer.use_arm, fresh_player.
    cbn [BanditPlayer.number_of_actions BanditPlayer.bandit
         BanditPlayer.strategy BanditPlayer.preferences BanditPlayer.eps
         BanditPlayer.n_steps BanditPlayer.optimist BanditPlayer.baseline
         BanditPlayer.rewards].
    change (get [0; 0]%nat 0) with (Ok 0%nat). cbn [bind].
    change (set [0; 0]%nat 0 (0 + 1)%nat) with (Ok [1; 0]%nat). cbn [bind].
    rewrite Hact. cbn [bind]. unfold Strategy.estimate_values.
    rewrite Hev. reflexivity. }
  destruct (Hget Hin p1 (mk_rng (fun _ => 0) (fun _ => 0) (fun _ => 0%nat) 1 0 0)
              eq_refl) as (j & g2 & Hj & Hc & _).
  { simpl. lra. }
  { simpl. lra. }
  rewrite (Hone j Hc) in Hj.
  exists vs', out, p1. eexists. exists g2.
  split; [exact Hev|].
  split; [rewrite Hvs; reflexivity|].
  split; [apply (Hinf 1%nat); reflexivity|].
  split.
  { destruct (Harg Hin) as (i & Hi & Hci & _). rewrite Hi, (Hone i Hci).
    reflexivity. }
  split; [exact Huse|]. split; [reflexivity | exact Hj].
Defined.

(** ** Sample averages *)

Lemma pulls_of_snoc (a i : nat) (r : R) (idxs : list nat) (rs : list R) :
  length idxs = length rs ->
  pulls_of a (idxs ++ [i]) (rs ++ [r]) =
  pulls_of a idxs rs ++ (if (i =? a)%nat then [r] else []).
Proof.
  revert rs; induction idxs as [|j idxs IH]; intros [|x rs] H;
    simpl in H; try discriminate.
  - simpl. destruct (i =? a)%nat; reflexivity.
  - simpl. rewrite IH by lia. destruct (j =? a)%nat; reflexivity.
Qed.

(** The incremental mean: folding one more value into the mean of [l]
    with weight [1 / (length l + 1)] gives the mean of the longer list,
    whatever the old estimate was when [l] is empty. *)
Lemma mean_snoc (l : list R) (v r : R) :
  (l <> [] -> v = mean l) ->
  v + 1 / INR (length l + 1) * (r - v) = mean (l ++ [r]).
Proof.
  intros Hv. unfold mean. rewrite Rsum_app, length_app. simpl length.
  replace (Rsum [r]) with r by (unfold Rsum; simpl; lra).
  rewrite plus_INR. simpl INR.
  destruct l as [|x l].
  - simpl. unfold Rsum. simpl. field.
  - rewrite Hv by discriminate. unfold mean.
    assert (0 < INR (length (x :: l))) by (apply lt_0_INR; simpl; lia).
    field. split; lra.
Qed.

Lemma use_arm_averages (n : nat) (p p1 : BanditPlayer.t) (i : nat)
  (g g1 : rng) (r : R) (hi : list nat) (hr : list R) :
  BanditPlayer.strategy p = Strategy.SA ->
  averages_history n p hi hr ->
  BanditPlayer.use_arm p i g = Ok (r, p1, g1) ->
  BanditPlayer.strategy p1 = Strategy.SA /\
  averages_history n p1 (hi ++ [i]) (hr ++ [r]).
Proof.
  intros Hs (Hlen & Hcn & Hpn & Hall) Hu.
  unfold BanditPlayer.use_arm in Hu. rewrite Hs in Hu.
  unfold Strategy.estimate_values, SampleAverages.estimate_values in Hu.
  inv_ok.
  repeat match goal with
  | H : get _ _ = Ok _ |- _ => apply get_ok in H
  | H : set _ _ _ = Ok _ |- _ => apply set_ok in H; destruct H as [? ?]
  end.
  subst. simpl. split; [reflexivity|].
  destruct (Hall i ltac:(lia)) as (Hci & v & Hvi & Hmean).
  repeat match goal with
  | H1 : nth_error ?l ?i = Some ?x, H2 : nth_error ?l ?i = Some ?y |- _ =>
      rewrite H1 in H2; inversion H2; subst; clear H2
  end.
  match goal with
  | H : nth_error (upd _ i _) i = Some _ |- _ =>
      rewrite upd_same in H by lia; inversion H; subst; clear H
  end.
  unfold averages_history. simpl.
  rewrite !length_app, !upd_length. simpl.
  split; [lia|]. split; [lia|]. split; [lia|].
  intros a Ha. rewrite pulls_of_snoc by assumption.
  destruct (Nat.eqb_spec i a) as [->|Hne].
  - rewrite !upd_same by lia. rewrite length_app. simpl. split; [reflexivity|].
    rewrite sample_average_step_fin by lia.
    eexists. split; [reflexivity|]. intros _.
    apply (mean_snoc (pulls_of a hi hr) v r Hmean).
  - rewrite !upd_other by assumption. rewrite app_nil_r. apply Hall. exact Ha.
Qed.

Lemma use_arms_averages (n : nat) (idxs : list nat) :
  forall (p p' : BanditPlayer.t) (g g' : rng) (rs : list R)
         (hi : list nat) (hr : list R),
    BanditPlayer.strategy p = Strategy.SA ->
    averages_history n p hi hr ->
    use_arms p idxs g = Ok (rs, p', g') ->
    BanditPlayer.strategy p' = Strategy.SA /\
    averages_history n p' (hi ++ idxs) (hr ++ rs).
Proof.
  induction idxs as [|i idxs IH]; intros p p' g g' rs hi hr Hs Hinv Hu;
    simpl in Hu.
  - inversion Hu; subst. rewrite !app_nil_r. auto.
  - inv_ok.
    match goal with
    | H1 : BanditPlayer.use_arm _ _ _ = Ok (?r, ?p1, _),
      H2 : use_arms _ _ _ = Ok _ |- _ =>
        destruct (use_arm_averages n _ _ _ _ _ _ hi hr Hs Hinv H1)
          as [Hs1 Hi1];
        destruct (IH _ _ _ _ _ _ _ Hs1 Hi1 H2) as [Hs2 Hi2]
    end.
    split; [exact Hs2|].
    rewrite <- !app_assoc in Hi2. exact Hi2.
Qed.

(** Before any pull, a player with zero counts and real preferences. *)
Lemma averages_history_start (p : BanditPlayer.t) (prefs0 : list R) :
  BanditPlayer.preferences p = map Fin prefs0 ->
  BanditPlayer.number_of_actions p = repeat 0%nat (length prefs0) ->
  averages_history (length prefs0) p [] [].
Proof.
  intros Hp Hc. unfold averages_history. rewrite Hp, Hc.
  rewrite repeat_length, length_map. repeat split.
  - simpl. apply nth_error_repeat. exact H.
  - destruct (nth_error prefs0 a) as [v|] eqn:E.
    + exists v. rewrite nth_error_map_Fin, E. split; [reflexivity|].
      simpl. congruence.
    + apply nth_error_None in E. lia.
Qed.

(** The log is a ghost: the loop with a log ends in the state in which
    the loop of the program ends. *)
Lemma steps_log_steps (count : nat) :
  forall (p p' : BanditPlayer.t) (first : nat) (g g' : rng),
    BanditPlayer.steps p first count g = Ok (p', g') ->
    exists idxs rs,
      steps_log p first count g = Ok (idxs, rs, p', g') /\
      length idxs = count.
Proof.
  induction count as [|count IH]; intros p p' first g g' H; simpl in H.
  - inversion H; subst. exists [], []. split; reflexivity.
  - unfold BanditPlayer.run_step in H. inv_ok.
    match goal with
    | H : BanditPlayer.steps _ _ _ _ = Ok _ |- _ =>
        apply IH in H; destruct H as (idxs & rs & Hl & Hn)
    end.
    simpl.
    repeat match goal with
    | H : ?m = Ok _ |- context [bind ?m _] => rewrite H; cbn [bind]
    end.
    eexists. eexists. split; [reflexivity|]. simpl. congruence.
Qed.

Lemma steps_log_averages (n count : nat) :
  forall (p p' : BanditPlayer.t) (first : nat) (g g' : rng)
         (idxs : list nat) (rs : list R) (hi : list nat) (hr : list R),
    BanditPlayer.strategy p = Strategy.SA ->
    averages_history n p hi hr ->
    steps_log p first count g = Ok (idxs, rs, p', g') ->
    BanditPlayer.strategy p' = Strategy.SA /\
    averages_history n p' (hi ++ idxs) (hr ++ rs).
Proof.
  induction count as [|count IH];
    intros p p' first g g' idxs rs hi hr Hs Hinv H; simpl in H.
  - inversion H; subst. rewrite !app_nil_r. auto.
  - inv_ok.
    match goal with
    | H1 : BanditPlayer.use_arm _ _ _ = Ok _,
      H2 : steps_log _ _ _ _ = Ok _ |- _ =>
        destruct (use_arm_averages n _ _ _ _ _ _ hi hr Hs Hinv H1)
          as [Hs1 Hi1];
        eapply IH in H2; [ | exact Hs1 | exact Hi1 ];
        destruct H2 as [Hs2 Hi2]
    end.
    split; [exact Hs2|]. rewrite <- !app_assoc in Hi2. exact Hi2.
Qed.

(** C4.  Take a player that follows [SampleAverages], with zero counts
    and any real initial preferences (zeros, an optimistic baseline, or
    anything else).  After any sequence of [use_arm] calls, and at the
    end of [run], every arm that was pulled [k >= 1] times holds the
    count [k] and, as its preference, the arithmetic mean of the [k]
    rewards it received: the initial preference has no weight. *)
Theorem sample_averages_exact_mean (p : BanditPlayer.t) (prefs0 : list R) :
  BanditPlayer.strategy p = Strategy.SA ->
  BanditPlayer.preferences p = map Fin prefs0 ->
  BanditPlayer.number_of_actions p = repeat 0%nat (length prefs0) ->
  (forall idxs g rs p' g',
     use_arms p idxs g = Ok (rs, p', g') ->
     forall a, pulls_of a idxs rs <> [] ->
       (a < length prefs0)%nat ->
       nth_error (BanditPlayer.number_of_actions p') a =
         Some (length (pulls_of a idxs rs)) /\
       nth_error (BanditPlayer.preferences p') a =
         Some (Fin (mean (pulls_of a idxs rs)))) /\
  (forall g p' g',
     BanditPlayer.run p g = Ok (p', g') ->
     exists idxs rs,
       steps_log p 0 (BanditPlayer.n_steps p) g = Ok (idxs, rs, p', g') /\
       length idxs = BanditPlayer.n_steps p /\
       forall a, pulls_of a idxs rs <> [] ->
         (a < length prefs0)%nat ->
         nth_error (BanditPlayer.number_of_actions p') a =
           Some (length (pulls_of a idxs rs)) /\
         nth_error (BanditPlayer.preferences p') a =
           Some (Fin (mean (pulls_of a idxs rs)))).
Proof.
  intros Hs Hp Hc.
  pose proof (averages_history_start p prefs0 Hp Hc) as H0.
  assert (Hfinal : forall p' idxs rs,
            averages_history (length prefs0) p' idxs rs ->
            forall a, pulls_of a idxs rs <> [] -> (a < length prefs0)%nat ->
              nth_error (BanditPlayer.number_of_actions p') a =
                Some (length (pulls_of a idxs rs)) /\
              nth_error (BanditPlayer.preferences p') a =
                Some (Fin (mean (pulls_of a idxs rs)))).
  { intros p' idxs rs (_ & _ & _ & Hall) a Hne Ha.
    destruct (Hall a Ha) as (Hn & v & Hv & Hm).
    split; [exact Hn|]. rewrite Hv, (Hm Hne). reflexivity. }
  split.
  - intros idxs g rs p' g' Hu.
    destruct (use_arms_averages _ idxs p p' g g' rs [] [] Hs H0 Hu) as [_ Hi].
    simpl in Hi. apply Hfinal. exact Hi.
  - intros g p' g' Hr. unfold BanditPlayer.run in Hr.
    destruct (steps_log_steps _ _ _ _ _ _ Hr) as (idxs & rs & Hl & Hn).
    exists idxs, rs. split; [exact Hl|]. split; [exact Hn|].
    destruct (steps_log_averages _ _ _ _ _ _ _ _ _ [] [] Hs H0 Hl) as [_ Hi].
    simpl in Hi. apply Hfinal. exact Hi.
Qed.

Lemma optimistic_player_init (s : Strategy.t) (n_steps : nat) :
  BanditPlayer.init two_arms 0 n_steps s true 5 =
  Ok (optimistic_player s n_steps).
Proof. reflexivity. Qed.

Lemma sample_averages_exact_mean_witness :
  exists rs p' g',
    use_arms (optimistic_player Strategy.SA 3) [0; 1; 0]%nat counting_rng =
      Ok (rs, p', g') /\
    length rs = 3%nat /\
    nth_error (BanditPlayer.preferences p') 0 =
      Some (Fin (mean (pulls_of 0 [0; 1; 0]%nat rs))) /\
    nth_error (BanditPlayer.preferences p') 1 =
      Some (Fin (mean (pulls_of 1 [0; 1; 0]%nat rs))).
Proof.
  assert (E : exists rs p' g',
             use_arms (optimistic_player Strategy.SA 3) [0; 1; 0]%nat
               counting_rng = Ok (rs, p', g') /\ length rs = 3%nat).
  { eexists. eexists. eexists.
    unfold use_arms, optimistic_player, two_arms, counting_rng.
    split; [rdec; reflexivity | reflexivity]. }
  destruct E as (rs & p' & g' & E & Hlen).
  exists rs, p', g'. split; [exact E|]. split; [exact Hlen|].
  pose proof (proj1 (sample_averages_exact_mean
                       (optimistic_player Strategy.SA 3) [0 + 5; 0 + 5]
                       eq_refl eq_refl eq_refl)
                _ _ _ _ _ E) as H.
  destruct rs as [|r1 [|r2 [|r3 rs]]]; try discriminate.
  split.
  - apply (H 0%nat); [simpl; discriminate | simpl; lia].
  - apply (H 1%nat); [simpl; discriminate | simpl; lia].
Defined.

(** ** The running average of the benchmark *)

Lemma zip_with_nth_default (f : R -> R -> R) (a b : list R) (t : nat) :
  length a = length b -> (t < length a)%nat ->
  nth t (zip_with f a b) 0 = f (nth t a 0) (nth t b 0).
Proof.
  intros HL Ht.
  apply nth_error_nth.
  apply zip_with_nth; apply nth_error_nth'; lia.
Qed.

(** One fold on arrays of the same length: it succeeds, keeps the
    length, and moves every entry by [1 / epoch] of its distance to the
    reward. *)
Lemma fold_rewards_same (epoch : nat) (avg rs : list R) :
  length rs = length avg ->
  exists avg',
    Benchmark.fold_rewards epoch avg rs = Ok avg' /\
    length avg' = length avg /\
    forall t, (t < length avg)%nat ->
      nth t avg' 0 = nth t avg 0 + 1 / INR epoch * (nth t rs 0 - nth t avg 0).
Proof.
  intros HL. unfold Benchmark.fold_rewards.
  rewrite broadcast2_same by exact HL. cbn [bind].
  assert (HL2 : length (zip_with Rminus rs avg) = length avg).
  { rewrite zip_with_length; auto. }
  rewrite inplace2_same by (rewrite length_map; lia).
  eexists. split; [reflexivity|]. split.
  - rewrite zip_with_length; rewrite ?length_map; lia.
  - intros t Ht.
    rewrite zip_with_nth_default by (rewrite ?length_map; lia).
    f_equal.
    rewrite (nth_indep _ 0 (1 / INR epoch * 0)) by (rewrite length_map; lia).
    rewrite (map_nth (Rmult (1 / INR epoch))).
    rewrite zip_with_nth_default by lia. reflexivity.
Qed.

Lemma at_step_snoc (t : nat) (hist : list (list R)) (rs : list R) :
  at_step t (hist ++ [rs]) = at_step t hist ++ [nth t rs 0].
Proof. unfold at_step. rewrite map_app. reflexivity. Qed.

(** The running average is the mean: fed with the remaining arrays
    [rss] after the history [hist], the average ends as the mean of all
    the arrays, step by step. *)
Lemma average_epochs_mean (n : nat) (rss : list (list R)) :
  forall (hist : list (list R)) (avg : list R),
    length avg = n ->
    Forall (fun rs => length rs = n) rss ->
    (forall t, (t < n)%nat -> hist <> [] ->
       nth t avg 0 = mean (at_step t hist)) ->
    exists avg',
      average_epochs (S (length hist)) avg rss = Ok avg' /\
      length avg' = n /\
      forall t, (t < n)%nat -> hist ++ rss <> [] ->
        nth t avg' 0 = mean (at_step t (hist ++ rss)).
Proof.
  induction rss as [|rs rss IH]; intros hist avg Hlen Hall Hmean.
  - exists avg. rewrite app_nil_r. auto.
  - inversion Hall as [|? ? Hrs Hrest]; subst.
    destruct (fold_rewards_same (S (length hist)) avg rs) as (avg1 & Hf & Hl1 & Hn1);
      [congruence|].
    destruct (IH (hist ++ [rs]) avg1) as (avg' & He & Hl' & Hm'); auto.
    + intros t Ht _. rewrite Hn1 by lia.
      rewrite at_step_snoc.
      replace (S (length hist)) with (length (at_step t hist) + 1)%nat
        by (unfold at_step; rewrite length_map; lia).
      apply mean_snoc. intros Hne. apply Hmean; [exact Ht|].
      intros E. subst hist. apply Hne. reflexivity.
    + exists avg'. simpl. rewrite Hf. cbn [bind].
      rewrite length_app in He. simpl in He.
      replace (length hist + 1)%nat with (S (length hist)) in He by lia.
      split; [exact He|]. split; [exact Hl'|].
      intros t Ht _. rewrite <- app_assoc in Hm'. simpl in Hm'.
      apply Hm'; [exact Ht|]. destruct hist; discriminate.
Qed.

(** [use_arm] leaves the reward array and the step budget alone. *)
Lemma use_arm_shape (p p1 : BanditPlayer.t) (i : nat) (g g1 : rng) (r : R) :
  BanditPlayer.use_arm p i g = Ok (r, p1, g1) ->
  BanditPlayer.rewards p1 = BanditPlayer.rewards p /\
  BanditPlayer.n_steps p1 = BanditPlayer.n_steps p.
Proof.
  unfold BanditPlayer.use_arm. intros H. inv_ok. simpl. auto.
Qed.

Lemma steps_shape (count : nat) :
  forall (p p' : BanditPlayer.t) (first : nat) (g g' : rng),
    BanditPlayer.steps p first count g = Ok (p', g') ->
    length (BanditPlayer.rewards p') = length (BanditPlayer.rewards p) /\
    BanditPlayer.n_steps p' = BanditPlayer.n_steps p.
Proof.
  induction count as [|count IH]; intros p p' first g g' H; simpl in H.
  - inversion H; auto.
  - unfold BanditPlayer.run_step in H. inv_ok.
    match goal with
    | H1 : BanditPlayer.use_arm _ _ _ = Ok _,
      H2 : set _ _ _ = Ok _,
      H3 : BanditPlayer.steps _ _ _ _ = Ok _ |- _ =>
        apply use_arm_shape in H1; destruct H1 as [Hr Hn];
        apply set_ok in H2; destruct H2 as [_ ->];
        apply IH in H3; simpl in H3; destruct H3 as [Hr3 Hn3]
    end.
    rewrite upd_length in Hr3. split; congruence.
Qed.

Lemma reset_shape (p p' : BanditPlayer.t) (g g' : rng) :
  BanditPlayer.reset p g = Ok (p', g') ->
  rewards_shape p' /\ BanditPlayer.n_steps p' = BanditPlayer.n_steps p.
Proof.
  unfold BanditPlayer.reset, rewards_shape. intros H.
  destruct (Bandit.reset (BanditPlayer.bandit p) g) as [b g1].
  inv_ok. simpl. split; [apply repeat_length | reflexivity].
Qed.

(** The logs are ghosts. *)
Lemma run_players_log_ghost (epoch : nat) (ps : list BanditPlayer.t) :
  forall (avgs avgs' : list (list R)) (g g' : rng)
         (ps' : list BanditPlayer.t),
    Benchmark.run_players epoch ps avgs g = Ok (ps', avgs', g') ->
    exists log, run_players_log epoch ps avgs g = Ok (log, ps', avgs', g').
Proof.
  induction ps as [|p ps IH]; intros avgs avgs' g g' ps' H; simpl in H.
  - inversion H; subst. exists []. reflexivity.
  - inv_ok.
    match goal with
    | H : Benchmark.run_players _ _ _ _ = Ok _ |- _ =>
        apply IH in H; destruct H as [log Hl]
    end.
    simpl.
    repeat match goal with
    | H : ?m = Ok _ |- context [bind ?m _] => rewrite H; cbn [bind]
    end.
    eexists. reflexivity.
Qed.

Lemma run_epochs_log_ghost (log_time : Z) (count : nat) :
  forall (epoch : nat) (ps ps' : list BanditPlayer.t)
         (avgs avgs' : list (list R)) (g g' : rng),
    Benchmark.run_epochs log_time epoch count ps avgs g = Ok (ps', avgs', g') ->
    exists logs,
      run_epochs_log log_time epoch count ps avgs g =
      Ok (logs, ps', avgs', g').
Proof.
  induction count as [|count IH]; intros epoch ps ps' avgs avgs' g g' H;
    simpl in H.
  - inversion H; subst. exists []. reflexivity.
  - inv_ok.
    match goal with
    | H1 : Benchmark.run_players _ _ _ _ = Ok _,
      H2 : Benchmark.run_epochs _ _ _ _ _ _ = Ok _,
      H3 : py_mod _ _ = Ok _ |- _ =>
        apply run_players_log_ghost in H1; destruct H1 as [log Hl];
        apply IH in H2; destruct H2 as [logs Hls];
        simpl; rewrite Hl; cbn [bind]; rewrite H3; cbn [bind]
    end.
    cbv zeta. rewrite Hls. cbn [bind].
    eexists. reflexivity.
Qed.

Lemma nth_error_same_map {A B : Type} (f : A -> B) (l1 l2 : list A)
  (i : nat) (x : A) :
  map f l1 = map f l2 -> nth_error l2 i = Some x ->
  exists y, nth_error l1 i = Some y /\ f y = f x.
Proof.
  intros Hm Hx.
  assert (H : nth_error (map f l1) i = nth_error (map f l2) i) by congruence.
  rewrite !nth_error_map, Hx in H.
  destruct (nth_error l1 i) as [y|]; simpl in H; [|discriminate].
  exists y. split; [reflexivity | congruence].
Qed.

(** One epoch: every player runs with its reward array of [n_steps]
    entries, the array is folded into the average of the player, and the
    player is reset. *)
Lemma run_players_log_spec (epoch : nat) (ps : list BanditPlayer.t) :
  forall (avgs avgs' log : list (list R)) (g g' : rng)
         (ps' : list BanditPlayer.t),
    run_players_log epoch ps avgs g = Ok (log, ps', avgs', g') ->
    Forall rewards_shape ps ->
    Forall rewards_shape ps' /\
    map BanditPlayer.n_steps ps' = map BanditPlayer.n_steps ps /\
    forall i p, nth_error ps i = Some p ->
      exists avg rs avg',
        nth_error avgs i = Some avg /\
        nth_error log i = Some rs /\
        length rs = BanditPlayer.n_steps p /\
        nth_error avgs' i = Some avg' /\
        Benchmark.fold_rewards epoch avg rs = Ok avg'.
Proof.
  induction ps as [|p ps IH]; intros avgs avgs' log g g' ps' H Hsh;
    simpl in H.
  - inversion H; subst. repeat split; auto.
    intros [|i] q Hq; discriminate.
  - inversion Hsh as [|? ? Hp Hps]; subst. inv_ok.
    match goal with
    | Hrun : BanditPlayer.run _ _ = Ok _,
      Hget : get _ 0 = Ok _,
      Hres : BanditPlayer.reset _ _ = Ok _,
      Hrec : run_players_log _ _ _ _ = Ok _ |- _ =>
        apply steps_shape in Hrun; destruct Hrun as [Hr1 Hn1];
        apply get_ok in Hget;
        apply reset_shape in Hres; destruct Hres as [Hs2 Hn2];
        destruct (IH _ _ _ _ _ _ Hrec Hps) as (Hsh' & Hmap & Hnth)
    end.
    split; [constructor; assumption|].
    split; [simpl; f_equal; congruence|].
    intros [|i] q Hq; simpl in Hq.
    + inversion Hq; subst q.
      eexists. eexists. eexists. simpl.
      repeat split; try eassumption; try reflexivity.
      unfold rewards_shape in Hp. congruence.
    + destruct (Hnth i q Hq) as (avg & rs & avg' & Ha & Hl & Hlen & Ha' & Hf).
      exists avg, rs, avg'. simpl. repeat split; auto.
      destruct avgs; [destruct i; discriminate | exact Ha].
Qed.

Lemma run_epochs_log_spec (log_time : Z) (count : nat) :
  forall (epoch : nat) (ps ps' : list BanditPlayer.t)
         (avgs avgs' : list (list R)) (logs : list (list (list R)))
         (g g' : rng),
    run_epochs_log log_time epoch count ps avgs g =
      Ok (logs, ps', avgs', g') ->
    Forall rewards_shape ps ->
    length logs = count /\
    forall i p avg,
      nth_error ps i = Some p -> nth_error avgs i = Some avg ->
      exists avg',
        nth_error avgs' i = Some avg' /\
        average_epochs epoch avg (of_player i logs) = Ok avg' /\
        Forall (fun rs => length rs = BanditPlayer.n_steps p) (of_player i logs).
Proof.
  induction count as [|count IH];
    intros epoch ps ps' avgs avgs' logs g g' H Hsh; simpl in H.
  - inversion H; subst. split; [reflexivity|].
    intros i p avg Hp Ha. exists avg. simpl. auto.
  - inv_ok.
    match goal with
    | H1 : run_players_log _ _ _ _ = Ok _,
      H2 : run_epochs_log _ _ _ _ _ _ = Ok _ |- _ =>
        destruct (run_players_log_spec _ _ _ _ _ _ _ _ H1 Hsh)
          as (Hsh1 & Hmap & Hnth);
        destruct (IH _ _ _ _ _ _ _ _ H2 Hsh1) as (Hlen & Hrec)
    end.
    split; [simpl; congruence|].
    intros i p avg Hp Ha.
    destruct (Hnth i p Hp) as (avg0 & rs & avg1 & Ha0 & Hl & Hrs & Ha1 & Hf).
    assert (avg0 = avg) by congruence. subst avg0.
    destruct (nth_error_same_map BanditPlayer.n_steps _ _ i p Hmap Hp)
      as (p1 & Hp1 & Hn1).
    destruct (Hrec i p1 avg1 Hp1 Ha1) as (avg' & Ha' & Hav & Hall).
    exists avg'. split; [exact Ha'|].
    simpl. rewrite (nth_error_nth _ _ [] Hl). split.
    + rewrite Hf. cbn [bind]. exact Hav.
    + constructor; [exact Hrs|]. rewrite <- Hn1. exact Hall.
Qed.

(** C2.  The running average is the exact mean.  First, for every fixed
    sequence [rss] of per-epoch reward arrays of length [n], folding them
    in order into an average that starts at zero, with the weight
    [1 / epoch] for the epochs 1, 2, ..., succeeds and gives at every
    step [t] the arithmetic mean of the rewards at [t] over all the
    epochs.  Second, [Benchmark.run] does exactly this: when it returns,
    the average it holds for player [i] is, at every step, the mean over
    the epochs of the rewards this player recorded at that step. *)
Theorem benchmark_running_average :
  (forall (n : nat) (rss : list (list R)),
     Forall (fun rs => length rs = n) rss ->
     exists avg,
       average_epochs 1 (repeat 0 n) rss = Ok avg /\
       length avg = n /\
       forall t, (t < n)%nat -> rss <> [] ->
         nth t avg 0 = mean (at_step t rss)) /\
  (forall (players : list BanditPlayer.t) (n_epochs : nat) (log_time : Z)
          (g g' : rng) (b' : Benchmark.t),
     Forall rewards_shape players ->
     Benchmark.run (Benchmark.init players n_epochs log_time) g = Ok (b', g') ->
     exists logs,
       run_epochs_log log_time 1 n_epochs players
         (Benchmark.avg_rewards (Benchmark.init players n_epochs log_time)) g =
         Ok (logs, Benchmark.players b', Benchmark.avg_rewards b', g') /\
       length logs = n_epochs /\
       forall i p, nth_error players i = Some p ->
         exists avg,
           nth_error (Benchmark.avg_rewards b') i = Some avg /\
           length avg = BanditPlayer.n_steps p /\
           Forall (fun rs => length rs = BanditPlayer.n_steps p)
             (of_player i logs) /\
           forall t, (t < BanditPlayer.n_steps p)%nat -> (1 <= n_epochs)%nat ->
             nth t avg 0 = mean (at_step t (of_player i logs))).
Proof.
  assert (A : forall (n : nat) (rss : list (list R)),
             Forall (fun rs => length rs = n) rss ->
             exists avg,
               average_epochs 1 (repeat 0 n) rss = Ok avg /\
               length avg = n /\
               forall t, (t < n)%nat -> rss <> [] ->
                 nth t avg 0 = mean (at_step t rss)).
  { intros n rss Hall.
    destruct (average_epochs_mean n rss [] (repeat 0 n)) as (avg & He & Hl & Hm);
      [apply repeat_length | exact Hall | intros t _ Hne; congruence |].
    exists avg. auto. }
  split; [exact A|].
  intros players n_epochs log_time g g' b' Hsh Hrun.
  unfold Benchmark.run in Hrun. inv_ok.
  match goal with
  | H : Benchmark.run_epochs _ _ _ _ _ _ = Ok _ |- _ =>
      apply run_epochs_log_ghost in H; destruct H as [logs Hlog]
  end.
  exists logs. simpl in *. split; [exact Hlog|].
  destruct (run_epochs_log_spec _ _ _ _ _ _ _ _ _ _ Hlog Hsh) as [Hlen Hspec].
  split; [exact Hlen|].
  intros i p Hp.
  assert (Ha : nth_error
                 (map (fun q => repeat 0 (BanditPlayer.n_steps q)) players) i =
               Some (repeat 0 (BanditPlayer.n_steps p))).
  { rewrite nth_error_map, Hp. reflexivity. }
  destruct (Hspec i p _ Hp Ha) as (avg & Hav & He & Hall).
  destruct (A _ _ Hall) as (avg2 & He2 & Hl2 & Hm2).
  assert (avg2 = avg) by congruence. subst avg2.
  exists avg. repeat split; auto.
  intros t Ht Hn. apply Hm2; [exact Ht|].
  unfold of_player. destruct logs; simpl in *; [lia | discriminate].
Qed.

(** Two epochs of two steps of a greedy sample-average player: the
    rewards are 1, 2 and then 3, 4; the averages end at 2 and 3. *)
Lemma benchmark_two_epochs :
  exists b' g',
    Benchmark.run (Benchmark.init [fresh_player Strategy.SA 2] 2 100)
      counting_rng = Ok (b', g') /\
    exists a0 a1,
      Benchmark.avg_rewards b' = [[a0; a1]] /\ a0 = 2 /\ a1 = 3.
Proof.
  eexists. eexists.
  unfold fresh_player, two_arms, counting_rng.
  unfold Benchmark.run_epochs, Benchmark.run_players, BanditPlayer.steps.
  split.
  - rdec. reflexivity.
  - eexists. eexists. simpl. split; [reflexivity|]. split; lra.
Qed.

(** ** Reset of a player *)

(** [reset] rebuilds the reward array, the counts and the preferences as
    the constructor does, and hands the strategy over as it is. *)
Lemma reset_fields (p p' : BanditPlayer.t) (g g' : rng) :
  BanditPlayer.reset p g = Ok (p', g') ->
  BanditPlayer.rewards p' = repeat 0 (BanditPlayer.n_steps p) /\
  BanditPlayer.zeros 0%nat (Bandit.n (BanditPlayer.bandit p')) =
    Ok (BanditPlayer.number_of_actions p') /\
  BanditPlayer.initial_preferences (BanditPlayer.optimist p)
    (BanditPlayer.baseline p) (Bandit.n (BanditPlayer.bandit p')) =
    Ok (BanditPlayer.preferences p') /\
  BanditPlayer.strategy p' = BanditPlayer.strategy p.
Proof.
  unfold BanditPlayer.reset. intros H.
  destruct (Bandit.reset (BanditPlayer.bandit p) g) as [b g1].
  inv_ok. simpl. auto.
Qed.

(** C1.  A greedy player with [UCB(c=2)] on the stationary bandit of
    values 1 and -1 runs one step and is reset.  The reward array, the
    counts, the preferences and the bandit are those of the fresh player,
    but the strategy is not: its time is 2 instead of 1 and its value
    array exists and holds the reward of the first run.  Run again on the
    same draws, the reset player ends with a preference for arm 0 that is
    strictly above the one the fresh player ended with. *)
Theorem reset_keeps_strategy_state :
  exists p1 g1 p2 g2 p3 g3 v x y,
    BanditPlayer.run (fresh_player (Strategy.Ucb (UCB.init 2)) 1)
      (constant_rng 0 0 0) = Ok (p1, g1) /\
    BanditPlayer.reset p1 g1 = Ok (p2, g2) /\
    BanditPlayer.rewards p2 =
      BanditPlayer.rewards (fresh_player (Strategy.Ucb (UCB.init 2)) 1) /\
    BanditPlayer.number_of_actions p2 =
      BanditPlayer.number_of_actions
        (fresh_player (Strategy.Ucb (UCB.init 2)) 1) /\
    BanditPlayer.preferences p2 =
      BanditPlayer.preferences (fresh_player (Strategy.Ucb (UCB.init 2)) 1) /\
    BanditPlayer.bandit p2 =
      BanditPlayer.bandit (fresh_player (Strategy.Ucb (UCB.init 2)) 1) /\
    BanditPlayer.strategy (fresh_player (Strategy.Ucb (UCB.init 2)) 1) =
      Strategy.Ucb (UCB.mk 2 1 None) /\
    BanditPlayer.strategy p2 =
      Strategy.Ucb (UCB.mk 2 2 (Some [Fin v; Fin 0])) /\
    v = 1 /\
    BanditPlayer.run p2 (constant_rng 0 0 0) = Ok (p3, g3) /\
    nth_error (BanditPlayer.preferences p1) 0 = Some (Fin x) /\
    nth_error (BanditPlayer.preferences p3) 0 = Some (Fin y) /\
    x < y.
Proof.
  assert (L2 : 0 < ln 2) by (apply (ln_time_pos 2); lia).
  assert (L3 : 0 < ln 3) by (apply (ln_time_pos 3); lia).
  assert (L23 : ln 2 < ln 3) by (apply ln_increasing; lra).
  assert (Hs : sqrt (ln 2 / 1) < sqrt (ln 3 / 1))
    by (apply sqrt_lt_1_alt; lra).
  do 9 eexists.
  unfold fresh_player, two_arms, constant_rng, BanditPlayer.steps.
  split; [rdec; reflexivity|].
  split; [rdec; reflexivity|].
  do 6 (split; [reflexivity|]).
  split; [lra|].
  split; [rdec; reflexivity|].
  split; [reflexivity|]. split; [reflexivity|].
  lra.
Qed.

(** * Further properties of the code *)

(** ** The stateless strategies *)

Lemma get_err {A : Type} (a : list A) (i : nat) :
  (length a <= i)%nat -> get a i = Err IndexError.
Proof.
  intros H. unfold get. apply nth_error_None in H. rewrite H. reflexivity.
Qed.

Lemma get_cases {A : Type} (a : list A) (i : nat) :
  (exists x, (i < length a)%nat /\ nth_error a i = Some x /\ get a i = Ok x) \/
  ((length a <= i)%nat /\ get a i = Err IndexError).
Proof.
  destruct (Nat.lt_ge_cases i (length a)) as [H|H].
  - left. destruct (nth_error a i) as [x|] eqn:E.
    + exists x. unfold get. rewrite E. auto.
    + apply nth_error_None in E. lia.
  - right. split; [exact H | apply get_err; exact H].
Qed.

Lemma set_lt {A : Type} (a : list A) (i : nat) (v : A) :
  (i < length a)%nat -> set a i v = Ok (upd a i v).
Proof.
  intros H. unfold set. destruct (Nat.ltb_spec i (length a)); [reflexivity|lia].
Qed.

(** X1.  [SampleAverages.estimate_values] raises exactly when the index
    is outside the preferences or outside the counts, and then it raises
    [IndexError]; when it returns, the vector has the length of the
    input and differs from it at the chosen index only. *)
Theorem sample_averages_frame (prefs : list xreal) (counts : list nat)
  (indx : nat) (reward : R) :
  ((exists e, SampleAverages.estimate_values prefs counts indx reward = Err e)
   <-> (length prefs <= indx \/ length counts <= indx)%nat) /\
  (forall e, SampleAverages.estimate_values prefs counts indx reward = Err e ->
     e = IndexError) /\
  (forall out, SampleAverages.estimate_values prefs counts indx reward = Ok out ->
     length out = length prefs /\
     forall j, j <> indx -> nth_error out j = nth_error prefs j).
Proof.
  unfold SampleAverages.estimate_values.
  destruct (get_cases prefs indx) as [(old & Hlt & _ & ->)|[Hge ->]];
    cbn [bind].
  - destruct (get_cases counts indx) as [(k & Hk & _ & ->)|[Hgk ->]];
      cbn [bind].
    + rewrite set_lt by exact Hlt. repeat split.
      * intros [e He]; discriminate.
      * intros [H|H]; lia.
      * intros e He; discriminate.
      * inversion H; subst. apply upd_length.
      * intros j Hj. inversion H; subst. apply upd_other. congruence.
    + repeat split; try discriminate.
      * intros _. right. exact Hgk.
      * intros _. eexists; reflexivity.
      * intros e He. inversion He; reflexivity.
  - repeat split; try discriminate.
    + intros _. left. exact Hge.
    + intros _. eexists; reflexivity.
    + intros e He. inversion He; reflexivity.
Qed.

Lemma constant_step_fin (alpha : R) (prefs : list xreal) (counts : list nat)
  (indx : nat) (v r : R) :
  nth_error prefs indx = Some (Fin v) ->
  ConstantStepSize.estimate_values alpha prefs counts indx r =
  Ok (upd prefs indx (Fin (v + alpha * (r - v)))).
Proof.
  intros H. unfold ConstantStepSize.estimate_values.
  assert (Hg : get prefs indx = Ok (Fin v)) by (apply get_ok; exact H).
  rewrite Hg. cbn [bind]. rewrite set_lt; [reflexivity|].
  apply nth_error_Some. congruence.
Qed.

Lemma recency_sum_snoc (alpha r : R) (l : list R) :
  recency_sum alpha (l ++ [r]) =
  recency_sum alpha l + (1 - alpha) ^ length l * (alpha * r).
Proof.
  induction l as [|x l IH]; simpl.
  - lra.
  - rewrite IH. lra.
Qed.

Lemma recency_sum_constant (alpha r : R) (l : list R) :
  Forall (eq r) l ->
  recency_sum alpha l = (1 - (1 - alpha) ^ length l) * r.
Proof.
  induction 1 as [|x l Hx Hl IH]; simpl.
  - lra.
  - subst x. rewrite IH. lra.
Qed.

(** X2.  [ConstantStepSize] keeps an exponential recency-weighted
    average.  After updates of the same arm with the rewards [rs], from a
    real estimate [v], the call sequence has succeeded whatever the
    counts are, the other entries are untouched, and the estimate is
    [(1 - alpha)^k v] plus the rewards weighted by [alpha (1 - alpha)^age].
    When all the rewards equal [r], the distance of the estimate to [r]
    has been multiplied by [(1 - alpha)^k]. *)
Theorem constant_step_size_recency (alpha : R) (rs : list R) :
  forall (prefs : list xreal) (counts : list nat) (indx : nat) (v : R),
    nth_error prefs indx = Some (Fin v) ->
    exists out,
      constant_steps alpha prefs counts indx rs = Ok out /\
      length out = length prefs /\
      (forall j, j <> indx -> nth_error out j = nth_error prefs j) /\
      nth_error out indx =
        Some (Fin ((1 - alpha) ^ length rs * v + recency_sum alpha (rev rs))) /\
      forall r, Forall (eq r) rs ->
        (1 - alpha) ^ length rs * v + recency_sum alpha (rev rs) - r =
        (1 - alpha) ^ length rs * (v - r).
Proof.
  induction rs as [|r1 rs IH]; intros prefs counts indx v Hv.
  - exists prefs. simpl. repeat split; auto.
    + rewrite Hv. do 2 f_equal. lra.
    + intros r _. lra.
  - simpl constant_steps. rewrite (constant_step_fin alpha _ _ _ v r1 Hv).
    cbn [bind].
    assert (Hlt : (indx < length prefs)%nat)
      by (apply nth_error_Some; congruence).
    destruct (IH (upd prefs indx (Fin (v + alpha * (r1 - v)))) counts indx
                (v + alpha * (r1 - v)) (upd_same _ _ _ Hlt))
      as (out & He & Hl & Hf & Hn & _).
    exists out. split; [exact He|].
    split; [rewrite Hl; apply upd_length|].
    split; [intros j Hj; rewrite Hf by exact Hj; apply upd_other; congruence|].
    assert (Hclosed :
              (1 - alpha) ^ length rs * (v + alpha * (r1 - v)) +
              recency_sum alpha (rev rs) =
              (1 - alpha) ^ length (r1 :: rs) * v +
              recency_sum alpha (rev (r1 :: rs))).
    { simpl. rewrite recency_sum_snoc, length_rev. lra. }
    split; [rewrite Hn, Hclosed; reflexivity|].
    intros r Hall.
    rewrite (recency_sum_constant alpha r (rev (r1 :: rs)))
      by (apply Forall_rev; exact Hall).
    rewrite length_rev. lra.
Qed.

Lemma constant_step_size_recency_witness :
  exists out,
    constant_steps (1 / 2) [Fin 5; Fin 5] [0; 0]%nat 0 [1; 1] = Ok out /\
    nth_error out 1 = Some (Fin 5) /\
    nth_error out 0 =
      Some (Fin ((1 - 1 / 2) ^ 2 * 5 + recency_sum (1 / 2) [1; 1])) /\
    (1 - 1 / 2) ^ 2 * 5 + recency_sum (1 / 2) [1; 1] - 1 =
      (1 - 1 / 2) ^ 2 * (5 - 1).
Proof.
  destruct (constant_step_size_recency (1 / 2) [1; 1] [Fin 5; Fin 5]
              [0; 0]%nat 0%nat 5 eq_refl) as (out & He & _ & Hf & Hn & Hc).
  exists out. split; [exact He|].
  split; [rewrite (Hf 1%nat) by discriminate; reflexivity|].
  split; [exact Hn|].
  apply (Hc 1). repeat constructor.
Defined.

(** ** Pulling a bandit *)

Lemma skip_normal_0 (g : rng) : skip_normal 0 g = g.
Proof. destruct g; reflexivity. Qed.

Lemma skip_normal_S (k : nat) (g : rng) :
  skip_normal k (skip_normal 1 g) = skip_normal (S k) g.
Proof. unfold skip_normal. simpl. f_equal. lia. Qed.

Lemma next_normal_S (k : nat) (g : rng) :
  next_normal k (skip_normal 1 g) = next_normal (S k) g.
Proof. unfold next_normal, skip_normal. simpl. f_equal. lia. Qed.

Lemma drift_stationary (l : list Arm.t) (g : rng) :
  Forall (fun a => Arm.incr_dev a = 0) l -> Bandit.drift l g = Ok (l, g).
Proof.
  intros H. revert g. induction H as [|a l Ha Hl IH]; intros g; simpl.
  - reflexivity.
  - unfold Arm.reset_q. destruct (Req_dec_T (Arm.incr_dev a) 0); [|contradiction].
    cbn [bind]. rewrite IH. reflexivity.
Qed.

(** X3.  On a stationary bandit (every arm with a zero drift deviation),
    [action] with an index in range returns the true value of that arm
    plus one standard normal draw, leaves the bandit as it was and
    consumes exactly this one draw; with an index out of range it raises
    [IndexError]. *)
Theorem bandit_action_stationary (b : Bandit.t) (indx : nat) (g : rng) :
  Forall (fun a => Arm.incr_dev a = 0) (Bandit.arms b) ->
  (forall a, nth_error (Bandit.arms b) indx = Some a ->
     Bandit.action b indx g =
       Ok (Arm.q a + 1 * next_normal 0 g, b, skip_normal 1 g)) /\
  ((length (Bandit.arms b) <= indx)%nat ->
     Bandit.action b indx g = Err IndexError).
Proof.
  intros H. unfold Bandit.action. rewrite drift_stationary by exact H.
  cbn [bind]. split.
  - intros a Ha. apply get_ok in Ha. rewrite Ha. cbn [bind].
    destruct b; reflexivity.
  - intros Hge. rewrite get_err by exact Hge. reflexivity.
Qed.

Lemma bandit_action_stationary_witness :
  (forall a, nth_error (Bandit.arms two_arms) 1 = Some a ->
     Bandit.action two_arms 1 counting_rng =
       Ok (Arm.q a + 1 * next_normal 0 counting_rng, two_arms,
           skip_normal 1 counting_rng)) /\
  ((length (Bandit.arms two_arms) <= 1)%nat ->
     Bandit.action two_arms 1 counting_rng = Err IndexError).
Proof.
  apply (bandit_action_stationary two_arms 1 counting_rng).
  repeat constructor.
Defined.

Lemma drift_positive (d : R) (l : list Arm.t) :
  0 < d ->
  Forall (fun a => Arm.incr_dev a = d) l ->
  forall g, exists l',
    Bandit.drift l g = Ok (l', skip_normal (length l) g) /\
    length l' = length l /\
    forall i a, nth_error l i = Some a ->
      nth_error l' i = Some (Arm.mk (Arm.q a + (0 + d * next_normal i g)) d).
Proof.
  intros Hd H. induction H as [|a l Ha Hl IH]; intros g.
  - exists []. simpl. rewrite skip_normal_0. repeat split.
    intros [|i] a Hi; discriminate.
  - destruct (IH (skip_normal 1 g)) as (l' & Hdr & Hlen & Hnth).
    exists (Arm.mk (Arm.q a + (0 + d * next_normal 0 g)) d :: l').
    simpl. unfold Arm.reset_q, random_normal. rewrite Ha.
    destruct (Req_dec_T d 0) as [E|_]; [lra|].
    destruct (Rlt_dec d 0) as [E|_]; [lra|].
    cbn [bind].
    change (mk_rng (normal_draws g) (uniform_draws g) (int_draws g)
              (S (normal_pos g)) (uniform_pos g) (int_pos g))
      with (skip_normal 1 g).
    rewrite Hdr. cbn [bind]. rewrite skip_normal_S.
    split; [reflexivity|]. split; [simpl; congruence|].
    intros [|i] x Hx; simpl in Hx.
    + inversion Hx; subst. reflexivity.
    + simpl. rewrite (Hnth i x Hx), next_normal_S. reflexivity.
Qed.

(** X4.  On a bandit whose arms all drift with the deviation [d > 0],
    [action] first moves the true value of every arm, pulled or not, by
    [d] times a draw of its own, taken in the order of the arms, and
    then returns the moved value of the chosen arm plus the next draw:
    [n + 1] draws in all.  The arm count, the specification [q] and the
    deviation are unchanged.  An index out of range raises
    [IndexError]. *)
Theorem bandit_action_drift (b : Bandit.t) (d : R) (indx : nat) (g : rng) :
  0 < d ->
  Forall (fun a => Arm.incr_dev a = d) (Bandit.arms b) ->
  (forall a, nth_error (Bandit.arms b) indx = Some a ->
     exists b',
       Bandit.action b indx g =
         Ok (Arm.q a + (0 + d * next_normal indx g) +
             1 * next_normal (length (Bandit.arms b)) g,
             b', skip_normal (S (length (Bandit.arms b))) g) /\
       Bandit.n b' = Bandit.n b /\ Bandit.q b' = Bandit.q b /\
       Bandit.incr_dev b' = Bandit.incr_dev b /\
       length (Bandit.arms b') = length (Bandit.arms b) /\
       forall i x, nth_error (Bandit.arms b) i = Some x ->
         nth_error (Bandit.arms b') i =
           Some (Arm.mk (Arm.q x + (0 + d * next_normal i g)) d)) /\
  ((length (Bandit.arms b) <= indx)%nat ->
     Bandit.action b indx g = Err IndexError).
Proof.
  intros Hd H.
  destruct (drift_positive d (Bandit.arms b) Hd H g) as (l' & Hdr & Hlen & Hnth).
  unfold Bandit.action. rewrite Hdr. cbn [bind]. split.
  - intros a Ha. pose proof (Hnth indx a Ha) as Ha'.
    apply get_ok in Ha'. rewrite Ha'. cbn [bind].
    eexists. split.
    + reflexivity.
    + simpl. repeat split; auto.
  - intros Hge. rewrite get_err by lia. reflexivity.
Qed.

Lemma drifting_arms_init (d : R) (g : rng) :
  Bandit.init 2 (Some [Some 1; Some (-1)]) d g = Ok (drifting_arms d, g).
Proof. reflexivity. Qed.

Lemma bandit_action_drift_witness :
  exists b',
    Bandit.action (drifting_arms 1) 0 counting_rng =
      Ok (1 + (0 + 1 * next_normal 0 counting_rng) +
          1 * next_normal 2 counting_rng,
          b', skip_normal 3 counting_rng) /\
    Bandit.q b' = [Some 1; Some (-1)] /\
    nth_error (Bandit.arms b') 1 =
      Some (Arm.mk (-1 + (0 + 1 * next_normal 1 counting_rng)) 1).
Proof.
  destruct (proj1 (bandit_action_drift (drifting_arms 1) 1 0 counting_rng
                     Rlt_0_1 ltac:(repeat constructor))
              (Arm.mk 1 1) eq_refl)
    as (b' & Hact & _ & Hq & _ & _ & Hnth).
  exists b'. split; [exact Hact|]. split; [exact Hq|].
  apply (Hnth 1%nat (Arm.mk (-1) 1)). reflexivity.
Defined.

(** X5.  A negative drift deviation is accepted by the constructors, but
    then no arm can be pulled: on a bandit with at least one arm whose
    first arm has a negative deviation, [action] raises [ValueError] for
    every index, in range or not, since the drift of the first arm asks
    for a normal draw with a negative scale. *)
Theorem bandit_action_negative_deviation (b : Bandit.t) (a : Arm.t)
  (l : list Arm.t) (indx : nat) (g : rng) :
  Bandit.arms b = a :: l ->
  Arm.incr_dev a < 0 ->
  Bandit.action b indx g = Err ValueError.
Proof.
  intros Hb Ha. unfold Bandit.action. rewrite Hb. simpl.
  unfold Arm.reset_q, random_normal.
  destruct (Req_dec_T (Arm.incr_dev a) 0) as [E|_]; [lra|].
  destruct (Rlt_dec (Arm.incr_dev a) 0) as [_|E]; [|contradiction].
  reflexivity.
Qed.

Lemma bandit_action_negative_deviation_witness :
  Bandit.init 2 (Some [Some 1; Some (-1)]) (-1) counting_rng =
    Ok (drifting_arms (-1), counting_rng) /\
  Bandit.action (drifting_arms (-1)) 0 counting_rng = Err ValueError /\
  Bandit.action (drifting_arms (-1)) 7 counting_rng = Err ValueError.
Proof.
  split; [reflexivity|].
  split;
    apply (bandit_action_negative_deviation (drifting_arms (-1))
             (Arm.mk 1 (-1)) [Arm.mk (-1) (-1)]); try reflexivity; simpl; lra.
Defined.

(** ** Building and resetting a bandit *)

Lemma make_arms_unspecified (d : R) (k : nat) :
  forall g,
    Bandit.make_arms d (repeat None k) g =
    (map (fun i => Arm.mk (0 + 1 * next_normal i g) d) (seq 0 k),
     skip_normal k g).
Proof.
  induction k as [|k IH]; intros g; simpl.
  - rewrite skip_normal_0. reflexivity.
  - unfold random_normal1.
    change (mk_rng (normal_draws g) (uniform_draws g) (int_draws g)
              (S (normal_pos g)) (uniform_pos g) (int_pos g))
      with (skip_normal 1 g).
    rewrite IH, skip_normal_S. f_equal. f_equal.
    rewrite <- seq_shift, map_map. apply map_ext. intros i.
    rewrite next_normal_S. reflexivity.
Qed.

Lemma make_arms_incr_dev (d : R) (q : list (option R)) :
  forall g, Forall (fun a => Arm.incr_dev a = d) (fst (Bandit.make_arms d q g)).
Proof.
  induction q as [|v q IH]; intros g; simpl; [constructor|].
  destruct (Arm.init d v g) as [a g1] eqn:Ea.
  specialize (IH g1). destruct (Bandit.make_arms d q g1) as [l g2].
  simpl in *. constructor; [|exact IH].
  unfold Arm.init in Ea. destruct v.
  - inversion Ea; reflexivity.
  - destruct (random_normal1 0 g). inversion Ea; reflexivity.
Qed.

(** X6.  A bandit built without explicit values draws them: [Bandit(n)]
    takes [n] standard normal draws in the order of the arms, and so does
    every [reset], whatever the arms have become in between.  The values
    after a reset are therefore the next [n] draws of the generator, not
    those of the previous run. *)
Theorem bandit_unspecified_values_are_drawn (n : Z) (d : R) (g : rng) :
  exists b,
    Bandit.init n None d g = Ok (b, skip_normal (Z.to_nat n) g) /\
    Bandit.arms b =
      map (fun i => Arm.mk (0 + 1 * next_normal i g) d) (seq 0 (Z.to_nat n)) /\
    forall b1 g1,
      Bandit.q b1 = Bandit.q b -> Bandit.incr_dev b1 = d ->
      exists b2,
        Bandit.reset b1 g1 = (b2, skip_normal (Z.to_nat n) g1) /\
        Bandit.q b2 = Bandit.q b /\
        Bandit.arms b2 =
          map (fun i => Arm.mk (0 + 1 * next_normal i g1) d)
              (seq 0 (Z.to_nat n)).
Proof.
  unfold Bandit.init, Bandit.set_q. cbn [bind].
  rewrite make_arms_unspecified. eexists. split; [reflexivity|].
  split; [reflexivity|]. simpl.
  intros b1 g1 Hq Hd. unfold Bandit.reset.
  rewrite Hq, Hd, make_arms_unspecified. eexists. split; [reflexivity|].
  split; reflexivity.
Qed.

(** ** Choosing an arm *)

Lemma argmax_from_range (a : list xreal) :
  forall best bi i,
    argmax_from best bi i a = bi \/
    (i <= argmax_from best bi i a < i + length a)%nat.
Proof.
  induction a as [|x a IH]; intros best bi i; simpl; [auto|].
  destruct (is_nan best); [auto|].
  destruct (xleb x best).
  - destruct (IH best bi (S i)) as [H|H]; [auto | right; lia].
  - destruct (IH x i (S i)) as [H|H]; right; lia.
Qed.

Lemma argmax_lt (a : list xreal) (j : nat) :
  argmax a = Ok j -> (j < length a)%nat.
Proof.
  destruct a as [|x a]; simpl; intros H; inversion H; subst.
  destruct (argmax_from_range a x 0 1) as [E|E]; lia.
Qed.

Lemma xleb_trans (a b c : xreal) :
  xleb a b = true -> xleb b c = true -> xleb a c = true.
Proof.
  destruct a, b, c; simpl; try discriminate; try reflexivity.
  repeat match goal with
  | |- context [Rle_dec ?x ?y] => destruct (Rle_dec x y)
  end; intros; try discriminate; try reflexivity. lra.
Qed.

Lemma xleb_total (a b : xreal) :
  is_nan a = false -> is_nan b = false ->
  xleb a b = false -> xleb b a = true.
Proof.
  destruct a, b; simpl; try discriminate; try reflexivity.
  repeat match goal with
  | |- context [Rle_dec ?x ?y] => destruct (Rle_dec x y)
  end; intros; try discriminate; try reflexivity. lra.
Qed.

Lemma xleb_refl (a : xreal) : is_nan a = false -> xleb a a = true.
Proof.
  destruct a; simpl; try discriminate; try reflexivity.
  destruct (Rle_dec r r); [reflexivity | lra].
Qed.

(** On an array without NaN, [np.argmax] returns the first index of a
    greatest entry. *)
Lemma argmax_from_spec (a : list xreal) :
  forall (pre : list xreal) (best : xreal) (bi : nat),
    Forall (fun x => is_nan x = false) pre ->
    Forall (fun x => is_nan x = false) a ->
    nth_error pre bi = Some best ->
    (forall x, In x pre -> xleb x best = true) ->
    (forall k x, (k < bi)%nat -> nth_error pre k = Some x ->
       xleb best x = false) ->
    exists y,
      nth_error (pre ++ a) (argmax_from best bi (length pre) a) = Some y /\
      (forall x, In x (pre ++ a) -> xleb x y = true) /\
      (forall k x, (k < argmax_from best bi (length pre) a)%nat ->
         nth_error (pre ++ a) k = Some x -> xleb y x = false).
Proof.
  induction a as [|x a IH]; intros pre best bi Hpre Ha Hbi Hle Hlt.
  - simpl. rewrite app_nil_r. exists best. auto.
  - inversion Ha as [|? ? Hx Ha']; subst.
    assert (Hb : is_nan best = false).
    { apply nth_error_In in Hbi.
      exact (proj1 (Forall_forall _ pre) Hpre best Hbi). }
    simpl. rewrite Hb.
    assert (Hlen : length (pre ++ [x]) = S (length pre))
      by (rewrite length_app; simpl; lia).
    assert (Hpre' : Forall (fun z => is_nan z = false) (pre ++ [x]))
      by (apply Forall_app; split; [exact Hpre | repeat constructor; exact Hx]).
    replace (pre ++ x :: a) with ((pre ++ [x]) ++ a)
      by (rewrite <- app_assoc; reflexivity).
    rewrite <- Hlen.
    destruct (xleb x best) eqn:Hxb.
    + apply IH; auto.
      * rewrite nth_error_app1; [exact Hbi|].
        apply nth_error_Some. congruence.
      * intros z Hz. apply in_app_or in Hz. destruct Hz as [Hz|[<-|[]]]; auto.
      * intros k z Hk Hz. apply (Hlt k z Hk).
        rewrite nth_error_app1 in Hz; [exact Hz|].
        assert (bi < length pre)%nat by (apply nth_error_Some; congruence).
        lia.
    + assert (Hbx : xleb best x = true) by (apply xleb_total; assumption).
      apply IH; auto.
      * rewrite nth_error_app2 by lia. rewrite Nat.sub_diag. reflexivity.
      * intros z Hz. apply in_app_or in Hz. destruct Hz as [Hz|[<-|[]]].
        -- apply (xleb_trans z best x); auto.
        -- apply xleb_refl. exact Hx.
      * intros k z Hk Hz. rewrite nth_error_app1 in Hz by exact Hk.
        destruct (xleb x z) eqn:Hxz; [|reflexivity].
        apply nth_error_In in Hz.
        rewrite (xleb_trans x z best Hxz (Hle z Hz)) in Hxb. discriminate.
Qed.

Lemma argmax_spec (a : list xreal) :
  Forall (fun x => is_nan x = false) a -> a <> [] ->
  exists j y,
    argmax a = Ok j /\ nth_error a j = Some y /\
    (forall x, In x a -> xleb x y = true) /\
    (forall k x, (k < j)%nat -> nth_error a k = Some x -> xleb y x = false).
Proof.
  destruct a as [|x a]; intros Ha Hne; [congruence|].
  inversion Ha as [|? ? Hx Ha']; subst.
  destruct (argmax_from_spec a [x] x 0) as (y & H1 & H2 & H3); auto.
  - intros z [<-|[]]. apply xleb_refl. exact Hx.
  - intros k z Hk. lia.
  - exists (argmax_from x 0 1 a), y. simpl in *. auto.
Qed.

(** X7.  For a player whose preference vector has one entry per arm,
    [get_arms_id] returns an index exactly when [eps] lies in [0, 1] and
    the bandit has at least one arm; otherwise it raises [ValueError].
    The index it returns is in range, and the call takes one uniform
    draw and no normal draw. *)
Theorem get_arms_id_in_range (p : BanditPlayer.t) (g : rng) :
  length (BanditPlayer.preferences p) =
    Z.to_nat (Bandit.n (BanditPlayer.bandit p)) ->
  ((exists j g', BanditPlayer.get_arms_id p g = Ok (j, g')) <->
   (0 <= BanditPlayer.eps p <= 1 /\
    (1 <= Bandit.n (BanditPlayer.bandit p))%Z)) /\
  (forall e, BanditPlayer.get_arms_id p g = Err e -> e = ValueError) /\
  (forall j g', BanditPlayer.get_arms_id p g = Ok (j, g') ->
     (j < length (BanditPlayer.preferences p))%nat /\
     normal_pos g' = normal_pos g /\
     uniform_pos g' = S (uniform_pos g)).
Proof.
  intros HL. unfold BanditPlayer.get_arms_id, random_binomial1.
  assert (Herr :
    (~ (0 <= BanditPlayer.eps p <= 1 /\
        (1 <= Bandit.n (BanditPlayer.bandit p))%Z)) ->
    forall m : result (nat * rng), m = Err ValueError ->
      ((exists j g', m = Ok (j, g')) <->
       (0 <= BanditPlayer.eps p <= 1 /\
        (1 <= Bandit.n (BanditPlayer.bandit p))%Z)) /\
      (forall e, m = Err e -> e = ValueError) /\
      (forall j g', m = Ok (j, g') ->
         (j < length (BanditPlayer.preferences p))%nat /\
         normal_pos g' = normal_pos g /\
         uniform_pos g' = S (uniform_pos g))).
  { intros Hno m ->. split; [split|split].
    - intros (j & g' & Hx); discriminate.
    - intros Hyes. contradiction.
    - intros e He; inversion He; reflexivity.
    - intros j g' Hx; discriminate. }
  destruct (Rlt_dec (BanditPlayer.eps p) 0) as [H0|H0]; cbn [bind].
  { apply Herr; [lra | reflexivity]. }
  destruct (Rlt_dec 1 (BanditPlayer.eps p)) as [H1|H1]; cbn [bind].
  { apply Herr; [lra | reflexivity]. }
  destruct (Rlt_dec (uniform_draws g (uniform_pos g)) (BanditPlayer.eps p))
    as [Hu|Hu]; simpl.
  - unfold random_randint0.
    destruct (Z.leb_spec (Bandit.n (BanditPlayer.bandit p)) 0) as [Hn|Hn].
    + apply Herr; [lia | reflexivity].
    + split; [split|split].
      * intros _. split; [lra | lia].
      * intros _. eexists; eexists; reflexivity.
      * intros e He; discriminate.
      * intros j g' Hx. inversion Hx; subst. simpl.
        split; [|split; reflexivity].
        rewrite HL. apply Nat.mod_upper_bound. lia.
  - destruct (BanditPlayer.preferences p) as [|x a] eqn:Ep; simpl.
    + simpl in HL. apply Herr; [lia | reflexivity].
    + simpl in HL. split; [split|split].
      * intros _. split; [lra | lia].
      * intros _. eexists; eexists; reflexivity.
      * intros e He; discriminate.
      * intros j g' Hx. inversion Hx; subst. simpl.
        split; [|split; reflexivity].
        destruct (argmax_from_range a x 0 1) as [E|E]; lia.
Qed.

Lemma get_arms_id_in_range_witness :
  exists j g',
    BanditPlayer.get_arms_id (fresh_player Strategy.SA 1) counting_rng =
      Ok (j, g') /\
    (j < 2)%nat /\ uniform_pos g' = 1%nat.
Proof.
  destruct (get_arms_id_in_range (fresh_player Strategy.SA 1) counting_rng
              eq_refl) as (Hiff & _ & Hr).
  destruct (proj2 Hiff) as (j & g' & H).
  - simpl. split; [lra | lia].
  - exists j, g'. split; [exact H|].
    destruct (Hr j g' H) as (Hj & _ & Hu). split; [exact Hj | exact Hu].
Defined.

(** X8.  When the uniform draw is not below [eps], the player exploits:
    on preferences without NaN and with at least one arm, [get_arms_id]
    returns an index whose preference is greater than or equal to every
    preference and strictly greater than every preference before it, so
    ties go to the lowest index. *)
Theorem get_arms_id_greedy (p : BanditPlayer.t) (g : rng) :
  0 <= BanditPlayer.eps p <= 1 ->
  ~ uniform_draws g (uniform_pos g) < BanditPlayer.eps p ->
  Forall (fun x => is_nan x = false) (BanditPlayer.preferences p) ->
  BanditPlayer.preferences p <> [] ->
  exists j g' y,
    BanditPlayer.get_arms_id p g = Ok (j, g') /\
    nth_error (BanditPlayer.preferences p) j = Some y /\
    (forall x, In x (BanditPlayer.preferences p) -> xleb x y = true) /\
    (forall k x, (k < j)%nat ->
       nth_error (BanditPlayer.preferences p) k = Some x ->
       xleb y x = false).
Proof.
  intros He Hu Hn Hne.
  destruct (argmax_spec _ Hn Hne) as (j & y & Ha & Hy & Hmax & Hfirst).
  unfold BanditPlayer.get_arms_id, random_binomial1.
  destruct (Rlt_dec (BanditPlayer.eps p) 0); [lra|].
  destruct (Rlt_dec 1 (BanditPlayer.eps p)); [lra|].
  destruct (Rlt_dec (uniform_draws g (uniform_pos g)) (BanditPlayer.eps p));
    [contradiction|].
  cbn [bind]. simpl. rewrite Ha. cbn [bind].
  eexists. eexists. exists y. split; [reflexivity|]. auto.
Qed.

Lemma get_arms_id_greedy_witness :
  exists j g' y,
    BanditPlayer.get_arms_id
      (with_preferences (fresh_player Strategy.SA 1) [Fin 1; PInf; PInf])
      counting_rng = Ok (j, g') /\
    nth_error [Fin 1; PInf; PInf] j = Some y /\
    (forall x, In x [Fin 1; PInf; PInf] -> xleb x y = true) /\
    (forall k x, (k < j)%nat ->
       nth_error [Fin 1; PInf; PInf] k = Some x -> xleb y x = false).
Proof.
  apply (get_arms_id_greedy
           (with_preferences (fresh_player Strategy.SA 1) [Fin 1; PInf; PInf])
           counting_rng).
  - simpl. lra.
  - simpl. lra.
  - repeat constructor.
  - discriminate.
Defined.

(** ** A run raises no exception *)

Lemma drift_ok (l : list Arm.t) :
  Forall (fun a => 0 <= Arm.incr_dev a) l ->
  forall g, exists l' g',
    Bandit.drift l g = Ok (l', g') /\
    length l' = length l /\
    Forall (fun a => 0 <= Arm.incr_dev a) l'.
Proof.
  induction 1 as [|a l Ha Hl IH]; intros g; simpl.
  - exists [], g. repeat split. constructor.
  - unfold Arm.reset_q, random_normal.
    destruct (Req_dec_T (Arm.incr_dev a) 0) as [E|E]; cbn [bind].
    + destruct (IH g) as (l' & g' & Hd & Hlen & Hf). rewrite Hd. cbn [bind].
      eexists. eexists. split; [reflexivity|].
      split; [simpl; congruence | constructor; assumption].
    + destruct (Rlt_dec (Arm.incr_dev a) 0) as [Hneg|_]; [lra|]. cbn [bind].
      match goal with
      | |- context [Bandit.drift l ?g1] =>
          destruct (IH g1) as (l' & g' & Hd & Hlen & Hf)
      end.
      rewrite Hd. cbn [bind].
      eexists. eexists. split; [reflexivity|].
      split; [simpl; congruence | constructor; assumption].
Qed.

Lemma action_ok (b : Bandit.t) (indx : nat) (g : rng) :
  Forall (fun a => 0 <= Arm.incr_dev a) (Bandit.arms b) ->
  (indx < length (Bandit.arms b))%nat ->
  exists r b' g',
    Bandit.action b indx g = Ok (r, b', g') /\
    Bandit.n b' = Bandit.n b /\
    Bandit.q b' = Bandit.q b /\
    Bandit.incr_dev b' = Bandit.incr_dev b /\
    length (Bandit.arms b') = length (Bandit.arms b) /\
    Forall (fun a => 0 <= Arm.incr_dev a) (Bandit.arms b').
Proof.
  intros Hf Hlt. unfold Bandit.action.
  destruct (drift_ok _ Hf g) as (l' & g' & Hd & Hlen & Hf').
  rewrite Hd. cbn [bind].
  destruct (get_lt l' indx) as [a Ha]; [lia|].
  rewrite Ha. cbn [bind]. destruct (Arm.action a g') as [r g2].
  eexists. eexists. eexists. split; [reflexivity|]. simpl. auto.
Qed.

Lemma estimate_values_ok (n : nat) (s : Strategy.t) (prefs : list xreal)
  (counts : list nat) (indx : nat) (reward : R) :
  strategy_fits n s ->
  length prefs = n -> length counts = n -> (indx < n)%nat ->
  exists s' prefs',
    Strategy.estimate_values s prefs counts indx reward = Ok (s', prefs') /\
    length prefs' = n /\ strategy_fits n s'.
Proof.
  intros Hs Hp Hc Hi.
  destruct (get_lt prefs indx) as [old Hold]; [lia|].
  destruct (get_lt counts indx) as [k Hk]; [lia|].
  destruct s as [|alpha|u|b]; simpl.
  - unfold SampleAverages.estimate_values. rewrite Hold, Hk. cbn [bind].
    rewrite set_lt by lia. cbn [bind].
    eexists. eexists. split; [reflexivity|].
    rewrite upd_length. auto.
  - unfold ConstantStepSize.estimate_values. rewrite Hold. cbn [bind].
    rewrite set_lt by lia. cbn [bind].
    eexists. eexists. split; [reflexivity|].
    rewrite upd_length. auto.
  - unfold UCB.estimate_values.
    assert (Hv : length (UCB.init_values (UCB.values u) (length prefs)) = n).
    { unfold UCB.init_values. simpl in Hs.
      destruct (UCB.values u); [exact Hs | rewrite repeat_length; exact Hp]. }
    destruct (get_lt (UCB.init_values (UCB.values u) (length prefs)) indx)
      as [v Hg]; [lia|].
    rewrite Hg, Hk. cbn [bind]. rewrite set_lt by lia. cbn [bind].
    rewrite broadcast2_same by (rewrite upd_length, length_map; lia).
    cbn [bind]. eexists. eexists. split; [reflexivity|].
    split.
    + rewrite zip_with_length; rewrite upd_length; rewrite ?length_map; lia.
    + simpl. rewrite upd_length. exact Hv.
  - unfold GradientBandit.estimate_values. simpl in Hs.
    destruct Hs as [Ht Hps].
    destruct (Z.eqb_spec (GradientBandit.time b + 1) 0) as [E|_]; [lia|].
    assert (Hl : length (GradientBandit.init_probs (GradientBandit.probs b)
                           (length prefs)) = n).
    { unfold GradientBandit.init_probs.
      destruct (GradientBandit.probs b);
        [exact Hps | rewrite length_map, repeat_length; exact Hp]. }
    rewrite inplace2_same by (rewrite length_map; lia). cbn [bind].
    match goal with
    | |- context [get ?l indx] =>
        assert (Hz : length l = n)
          by (rewrite zip_with_length; rewrite ?length_map; lia);
        destruct (get_lt l indx) as [q Hq]; [lia|];
        rewrite Hq; cbn [bind]; rewrite set_lt by lia; cbn [bind]
    end.
    eexists. eexists. split; [reflexivity|].
    split; [rewrite upd_length; exact Hz|].
    simpl. split; [lia|].
    unfold GradientBandit.derive_probs.
    rewrite !length_map, upd_length. exact Hz.
Qed.

Lemma get_arms_id_ok (p : BanditPlayer.t) (g : rng) :
  can_run p ->
  exists j g',
    BanditPlayer.get_arms_id p g = Ok (j, g') /\
    (j < length (BanditPlayer.preferences p))%nat.
Proof.
  intros (He & Hn & _ & _ & _ & _ & _ & Hpl & _).
  unfold BanditPlayer.get_arms_id, random_binomial1.
  destruct (Rlt_dec (BanditPlayer.eps p) 0); [lra|].
  destruct (Rlt_dec 1 (BanditPlayer.eps p)); [lra|]. cbn [bind].
  destruct (Rlt_dec (uniform_draws g (uniform_pos g)) (BanditPlayer.eps p));
    simpl.
  - unfold random_randint0.
    destruct (Z.leb_spec (Bandit.n (BanditPlayer.bandit p)) 0); [lia|].
    eexists. eexists. split; [reflexivity|].
    rewrite Hpl. apply Nat.mod_upper_bound. lia.
  - destruct (argmax (BanditPlayer.preferences p)) as [j|e] eqn:Ea.
    + cbn [bind]. exists j. eexists. split; [reflexivity|].
      apply argmax_lt. exact Ea.
    + destruct (BanditPlayer.preferences p); [simpl in Hpl; lia|discriminate].
Qed.

Lemma use_arm_ok (p : BanditPlayer.t) (indx : nat) (g : rng) :
  can_run p ->
  (indx < Z.to_nat (Bandit.n (BanditPlayer.bandit p)))%nat ->
  exists r p' g',
    BanditPlayer.use_arm p indx g = Ok (r, p', g') /\
    can_run p' /\
    BanditPlayer.rewards p' = BanditPlayer.rewards p /\
    BanditPlayer.n_steps p' = BanditPlayer.n_steps p.
Proof.
  intros (He & Hn & Hq & Hd & Ha & Hf & Hc & Hp & Hs) Hi.
  unfold BanditPlayer.use_arm.
  destruct (get_lt (BanditPlayer.number_of_actions p) indx) as [k Hk]; [lia|].
  rewrite Hk. cbn [bind]. rewrite set_lt by lia. cbn [bind].
  destruct (action_ok (BanditPlayer.bandit p) indx g Hf)
    as (r & b' & g' & Hact & Hn' & Hq' & Hd' & Hlen' & Hf'); [lia|].
  rewrite Hact. cbn [bind].
  destruct (estimate_values_ok (Z.to_nat (Bandit.n (BanditPlayer.bandit p)))
              (BanditPlayer.strategy p) (BanditPlayer.preferences p)
              (upd (BanditPlayer.number_of_actions p) indx (k + 1)%nat)
              indx r Hs Hp)
    as (s' & prefs' & Hev & Hlp & Hs'); [rewrite upd_length; exact Hc | exact Hi |].
  rewrite Hev. cbn [bind].
  eexists. eexists. eexists. split; [reflexivity|].
  unfold can_run. simpl. rewrite Hn', Hq', Hd', upd_length.
  repeat split; auto; try lra; try lia.
Qed.

Lemma steps_ok (count : nat) :
  forall (p : BanditPlayer.t) (first : nat) (g : rng),
    can_run p ->
    (first + count <= length (BanditPlayer.rewards p))%nat ->
    exists p' g',
      BanditPlayer.steps p first count g = Ok (p', g') /\
      can_run p' /\
      length (BanditPlayer.rewards p') = length (BanditPlayer.rewards p) /\
      BanditPlayer.n_steps p' = BanditPlayer.n_steps p.
Proof.
  induction count as [|count IH]; intros p first g Hp Hlen; simpl.
  - exists p, g. auto.
  - unfold BanditPlayer.run_step.
    pose proof Hp as (_ & _ & _ & _ & _ & _ & _ & Hpl & _).
    destruct (get_arms_id_ok p g Hp) as (j & g1 & Hj & Hjl).
    rewrite Hj. cbn [bind].
    destruct (use_arm_ok p j g1 Hp) as (r & p1 & g2 & Hu & Hp1 & Hr1 & Hn1);
      [lia|].
    rewrite Hu. cbn [bind]. rewrite set_lt by (rewrite Hr1; lia). cbn [bind].
    match goal with
    | |- context [BanditPlayer.steps ?q (S first) count g2] =>
        destruct (IH q (S first) g2) as (p' & g' & Hst & Hp' & Hl' & Hn')
    end.
    + exact Hp1.
    + simpl. rewrite upd_length, Hr1. lia.
    + exists p', g'. split; [exact Hst|]. split; [exact Hp'|].
      simpl in Hl', Hn'. rewrite upd_length in Hl'. split; congruence.
Qed.

(** The constructor builds a player that can run. *)
Lemma init_can_run (b : Bandit.t) (eps : R) (n_steps : nat)
  (s : Strategy.t) (o : bool) (baseline : R) :
  0 <= eps <= 1 ->
  (1 <= Bandit.n b)%Z ->
  length (Bandit.q b) = Z.to_nat (Bandit.n b) ->
  0 <= Bandit.incr_dev b ->
  length (Bandit.arms b) = Z.to_nat (Bandit.n b) ->
  Forall (fun a => 0 <= Arm.incr_dev a) (Bandit.arms b) ->
  strategy_fits (Z.to_nat (Bandit.n b)) s ->
  exists p,
    BanditPlayer.init b eps n_steps s o baseline = Ok p /\
    can_run p /\ rewards_shape p.
Proof.
  intros He Hn Hq Hd Ha Hf Hs.
  unfold BanditPlayer.init, BanditPlayer.initial_preferences, BanditPlayer.zeros.
  destruct (Z.ltb_spec (Bandit.n b) 0) as [|_]; [lia|]. cbn [bind].
  eexists. split; [reflexivity|].
  unfold can_run, rewards_shape. simpl.
  rewrite !repeat_length.
  repeat split; auto; try lra.
  destruct o; [rewrite length_map|]; apply repeat_length.
Qed.

(** X9.  A run raises no exception.  If [eps] is a probability, the
    bandit has at least one arm and no negative drift deviation, and the
    counts, the preferences and the arrays of the strategy have one entry
    per arm, then [run] returns, for each of the four strategies and any
    draws; the player it returns satisfies the same conditions and its
    reward array still has [n_steps] entries, so it can be reset and run
    again. *)
Theorem run_raises_nothing (p : BanditPlayer.t) (g : rng) :
  can_run p ->
  rewards_shape p ->
  exists p' g',
    BanditPlayer.run p g = Ok (p', g') /\
    can_run p' /\ rewards_shape p' /\
    exists p'' g'',
      BanditPlayer.reset p' g' = Ok (p'', g'') /\
      can_run p'' /\ rewards_shape p''.
Proof.
  intros Hp Hr. unfold BanditPlayer.run, rewards_shape in *.
  destruct (steps_ok (BanditPlayer.n_steps p) p 0 g Hp) as
    (p' & g' & Hst & Hp' & Hl & Hn); [lia|].
  exists p', g'. split; [exact Hst|]. split; [exact Hp'|].
  split; [congruence|].
  destruct Hp' as (He & Hn1 & Hq & Hd & Ha & Hf & Hc & Hpl & Hs).
  unfold BanditPlayer.reset, Bandit.reset.
  pose proof (make_arms_length (Bandit.incr_dev (BanditPlayer.bandit p'))
                (Bandit.q (BanditPlayer.bandit p')) g') as HL.
  pose proof (make_arms_incr_dev (Bandit.incr_dev (BanditPlayer.bandit p'))
                (Bandit.q (BanditPlayer.bandit p')) g') as HD.
  destruct (Bandit.make_arms (Bandit.incr_dev (BanditPlayer.bandit p'))
              (Bandit.q (BanditPlayer.bandit p')) g') as [l g2].
  simpl in HL, HD. simpl.
  unfold BanditPlayer.initial_preferences, BanditPlayer.zeros.
  destruct (Z.ltb_spec (Bandit.n (BanditPlayer.bandit p')) 0) as [|_]; [lia|].
  cbn [bind]. eexists. eexists. split; [reflexivity|].
  unfold can_run. simpl. rewrite !repeat_length.
  repeat split; auto; try lra; try lia.
  - eapply Forall_impl; [|exact HD]. simpl. intros a E. rewrite E. exact Hd.
  - destruct (BanditPlayer.optimist p'); [rewrite length_map|];
      apply repeat_length.
Qed.

Lemma fresh_player_can_run (s : Strategy.t) (n_steps : nat) :
  strategy_fits 2 s -> can_run (fresh_player s n_steps).
Proof.
  intros Hs. unfold can_run. simpl.
  repeat split; try lra; try lia; try exact Hs.
  repeat constructor; simpl; lra.
Qed.

Lemma run_raises_nothing_witness :
  exists p' g',
    BanditPlayer.run (fresh_player (Strategy.Ucb (UCB.init 2)) 3)
      counting_rng = Ok (p', g') /\
    length (BanditPlayer.rewards p') = 3%nat /\
    exists p'' g'', BanditPlayer.reset p' g' = Ok (p'', g'').
Proof.
  destruct (run_raises_nothing (fresh_player (Strategy.Ucb (UCB.init 2)) 3)
              counting_rng
              (fresh_player_can_run (Strategy.Ucb (UCB.init 2)) 3 I) eq_refl)
    as (p' & g' & Hrun & _ & Hsh & p'' & g'' & Hres & _).
  exists p', g'. split; [exact Hrun|]. split.
  - unfold rewards_shape in Hsh. rewrite Hsh.
    destruct (steps_shape _ _ _ _ _ _ Hrun) as [_ Hn]. exact Hn.
  - exists p'', g''. exact Hres.
Defined.

(** ** What a run records *)

Lemma firstn_upd_S {A : Type} (l : list A) (i : nat) (v : A) :
  (i < length l)%nat -> firstn (S i) (upd l i v) = firstn i l ++ [v].
Proof.
  revert i; induction l as [|x l IH]; intros [|i] H; simpl in *; try lia.
  - reflexivity.
  - f_equal. apply IH. lia.
Qed.

Lemma skipn_upd_gt {A : Type} (l : list A) (i k : nat) (v : A) :
  (i < k)%nat -> skipn k (upd l i v) = skipn k l.
Proof.
  revert i k; induction l as [|x l IH]; intros [|i] [|k] H; simpl;
    try lia; try reflexivity.
  apply IH. lia.
Qed.

Lemma list_sum_upd (l : list nat) (i k v : nat) :
  nth_error l i = Some k ->
  (list_sum (upd l i v) + k = list_sum l + v)%nat.
Proof.
  revert i; induction l as [|x l IH]; intros [|i] H; simpl in *;
    try discriminate.
  - inversion H; subst. lia.
  - specialize (IH i H). lia.
Qed.

Lemma use_arm_counts (p p1 : BanditPlayer.t) (j : nat) (g g1 : rng) (r : R) :
  BanditPlayer.use_arm p j g = Ok (r, p1, g1) ->
  exists k,
    nth_error (BanditPlayer.number_of_actions p) j = Some k /\
    BanditPlayer.number_of_actions p1 =
      upd (BanditPlayer.number_of_actions p) j (k + 1)%nat /\
    BanditPlayer.rewards p1 = BanditPlayer.rewards p.
Proof.
  unfold BanditPlayer.use_arm. intros H. inv_ok.
  match goal with
  | H1 : get _ _ = Ok ?k, H2 : set _ _ _ = Ok _ |- _ =>
      apply get_ok in H1; apply set_ok in H2; destruct H2 as [_ ->];
      exists k
  end.
  simpl. auto.
Qed.

Lemma steps_log_records (count : nat) :
  forall (p p' : BanditPlayer.t) (first : nat) (g g' : rng)
         (idxs : list nat) (rs : list R),
    steps_log p first count g = Ok (idxs, rs, p', g') ->
    length idxs = count /\ length rs = count /\
    BanditPlayer.rewards p' =
      firstn first (BanditPlayer.rewards p) ++ rs ++
      skipn (first + count) (BanditPlayer.rewards p) /\
    length (BanditPlayer.number_of_actions p') =
      length (BanditPlayer.number_of_actions p) /\
    list_sum (BanditPlayer.number_of_actions p') =
      (list_sum (BanditPlayer.number_of_actions p) + count)%nat /\
    forall a,
      nth_error (BanditPlayer.number_of_actions p') a =
      option_map (fun c => (c + count_occ Nat.eq_dec idxs a)%nat)
        (nth_error (BanditPlayer.number_of_actions p) a).
Proof.
  induction count as [|count IH]; intros p p' first g g' idxs rs H;
    simpl in H.
  - inversion H; subst. simpl. rewrite Nat.add_0_r, firstn_skipn.
    repeat split; try lia.
    intros a. destruct (nth_error (BanditPlayer.number_of_actions p') a);
      simpl; [f_equal; lia | reflexivity].
  - inv_ok.
    match goal with
    | H1 : BanditPlayer.use_arm _ ?j _ = Ok (?r, ?p1, _),
      H2 : set _ _ _ = Ok _,
      H3 : steps_log _ _ _ _ = Ok _ |- _ =>
        destruct (use_arm_counts _ _ _ _ _ _ H1) as (k & Hk & Hc & Hr);
        apply set_ok in H2; destruct H2 as [Hlt ->];
        apply IH in H3;
        cbn [BanditPlayer.rewards BanditPlayer.number_of_actions] in H3;
        destruct H3 as (Hli & Hlr & Hrw & Hlc & Hsum & Hcnt)
    end.
    rewrite Hr in *. rewrite Hc in *. rewrite upd_length in Hlc.
    split; [simpl; congruence|]. split; [simpl; congruence|].
    split.
    { rewrite Hrw, firstn_upd_S by exact Hlt.
      rewrite skipn_upd_gt by lia.
      rewrite <- app_assoc. simpl.
      replace (first + S count)%nat with (S (first + count)) by lia.
      reflexivity. }
    split; [exact Hlc|].
    split.
    { pose proof (list_sum_upd _ _ _ (k + 1)%nat Hk). lia. }
    intros a. rewrite Hcnt. simpl count_occ.
    match goal with
    | |- context [Nat.eq_dec ?j a] => destruct (Nat.eq_dec j a) as [->|Hne]
    end.
    + rewrite upd_same by (apply nth_error_Some; congruence).
      rewrite Hk. simpl. f_equal. lia.
    + rewrite upd_other by exact Hne. reflexivity.
Qed.

(** X10.  What [run] records.  When [run] returns on a player whose
    reward array has [n_steps] entries, the array holds exactly the
    rewards received, in the order of the steps; every arm's count has
    grown by the number of steps at which the arm was chosen, and the
    counts have grown by [n_steps] in total. *)
Theorem run_records (p p' : BanditPlayer.t) (g g' : rng) :
  rewards_shape p ->
  BanditPlayer.run p g = Ok (p', g') ->
  exists idxs rs,
    steps_log p 0 (BanditPlayer.n_steps p) g = Ok (idxs, rs, p', g') /\
    length idxs = BanditPlayer.n_steps p /\
    BanditPlayer.rewards p' = rs /\
    list_sum (BanditPlayer.number_of_actions p') =
      (list_sum (BanditPlayer.number_of_actions p) + BanditPlayer.n_steps p)%nat /\
    forall a,
      nth_error (BanditPlayer.number_of_actions p') a =
      option_map (fun c => (c + count_occ Nat.eq_dec idxs a)%nat)
        (nth_error (BanditPlayer.number_of_actions p) a).
Proof.
  intros Hsh Hrun. unfold BanditPlayer.run in Hrun.
  destruct (steps_log_steps _ _ _ _ _ _ Hrun) as (idxs & rs & Hlog & Hlen).
  exists idxs, rs. split; [exact Hlog|]. split; [exact Hlen|].
  destruct (steps_log_records _ _ _ _ _ _ _ _ Hlog)
    as (_ & Hlr & Hrw & _ & Hsum & Hcnt).
  split; [|split; assumption].
  rewrite Hrw. simpl. unfold rewards_shape in Hsh.
  rewrite skipn_all2 by lia. apply app_nil_r.
Qed.

Lemma run_records_witness :
  exists p' g' idxs rs,
    BanditPlayer.run (fresh_player Strategy.SA 2) counting_rng = Ok (p', g') /\
    steps_log (fresh_player Strategy.SA 2) 0 2 counting_rng =
      Ok (idxs, rs, p', g') /\
    BanditPlayer.rewards p' = rs /\
    list_sum (BanditPlayer.number_of_actions p') = 2%nat.
Proof.
  destruct (steps_ok 2 (fresh_player Strategy.SA 2) 0 counting_rng
              (fresh_player_can_run Strategy.SA 2 I) (le_n 2))
    as (p' & g' & Hrun & _).
  destruct (run_records (fresh_player Strategy.SA 2) p' counting_rng g'
              eq_refl Hrun) as (idxs & rs & Hlog & _ & Hrw & Hsum & _).
  exists p', g', idxs, rs. auto.
Defined.

(** ** Reset as a round trip *)

Lemma steps_static (count : nat) :
  forall (p p' : BanditPlayer.t) (first : nat) (g g' : rng),
    BanditPlayer.steps p first count g = Ok (p', g') ->
    BanditPlayer.eps p' = BanditPlayer.eps p /\
    BanditPlayer.optimist p' = BanditPlayer.optimist p /\
    BanditPlayer.baseline p' = BanditPlayer.baseline p /\
    Bandit.n (BanditPlayer.bandit p') = Bandit.n (BanditPlayer.bandit p) /\
    Bandit.q (BanditPlayer.bandit p') = Bandit.q (BanditPlayer.bandit p) /\
    Bandit.incr_dev (BanditPlayer.bandit p') =
      Bandit.incr_dev (BanditPlayer.bandit p) /\
    (BanditPlayer.strategy p = Strategy.SA ->
     BanditPlayer.strategy p' = Strategy.SA) /\
    (forall a, BanditPlayer.strategy p = Strategy.CSS a ->
               BanditPlayer.strategy p' = Strategy.CSS a).
Proof.
  induction count as [|count IH]; intros p p' first g g' H; simpl in H.
  - inversion H; subst. repeat split; auto.
  - unfold BanditPlayer.run_step, BanditPlayer.use_arm in H. inv_ok.
    match goal with
    | H1 : Bandit.action _ _ _ = Ok _,
      H2 : Strategy.estimate_values _ _ _ _ _ = Ok _,
      H3 : BanditPlayer.steps _ _ _ _ = Ok _ |- _ =>
        apply action_frame in H1; destruct H1 as (Hq & Hn & Hd & _);
        apply IH in H3; simpl in H3;
        destruct H3 as (E1 & E2 & E3 & E4 & E5 & E6 & E7 & E8);
        rename H2 into Hev
    end.
    repeat split; try congruence.
    + intros Hs. apply E7. rewrite Hs in Hev. simpl in Hev. inv_ok.
      reflexivity.
    + intros a Hs. apply E8. rewrite Hs in Hev. simpl in Hev. inv_ok.
      reflexivity.
Qed.

(** X11.  For the two stateless strategies, [reset] undoes a run.  A
    player built by the constructor on a bandit with explicit values,
    with [SampleAverages] or [ConstantStepSize], that has run and is then
    reset, is again exactly the player the constructor built, and the
    reset draws nothing from the generator. *)
Theorem reset_undoes_run_when_stateless
  (vs : list R) (d eps baseline : R) (n_steps : nat) (s : Strategy.t)
  (o : bool) (b : Bandit.t) (p0 p1 : BanditPlayer.t) (g0 g g1 : rng) :
  (s = Strategy.SA \/ exists a, s = Strategy.CSS a) ->
  Bandit.init (Z.of_nat (length vs)) (Some (map Some vs)) d g0 = Ok (b, g0) ->
  BanditPlayer.init b eps n_steps s o baseline = Ok p0 ->
  BanditPlayer.run p0 g = Ok (p1, g1) ->
  BanditPlayer.reset p1 g1 = Ok (p0, g1).
Proof.
  intros Hs Hb Hp Hrun.
  unfold Bandit.init, Bandit.set_q in Hb.
  rewrite length_map, Z.eqb_refl in Hb. simpl in Hb.
  rewrite make_arms_all_explicit in Hb. inversion Hb; subst b. clear Hb.
  unfold BanditPlayer.init in Hp. simpl in Hp.
  unfold BanditPlayer.run in Hrun.
  pose proof (steps_shape _ _ _ _ _ _ Hrun) as [_ Hn].
  pose proof (steps_static _ _ _ _ _ _ Hrun)
    as (E1 & E2 & E3 & E4 & E5 & E6 & E7 & E8).
  assert (Hst : BanditPlayer.strategy p1 = BanditPlayer.strategy p0).
  { destruct Hs as [->|[a ->]]; inv_ok; simpl in *.
    - rewrite E7; reflexivity.
    - rewrite (E8 a); reflexivity. }
  unfold BanditPlayer.reset, Bandit.reset.
  inv_ok. simpl in *.
  rewrite E5, E6, E4, make_arms_all_explicit. simpl.
  repeat match goal with
  | H : ?m = Ok _ |- context [bind ?m _] => rewrite H; cbn [bind]
  end.
  rewrite E2, E3.
  repeat match goal with
  | H : ?m = Ok _ |- context [bind ?m _] => rewrite H; cbn [bind]
  end.
  rewrite E1, Hn, Hst. reflexivity.
Qed.

Lemma optimistic_player_can_run (s : Strategy.t) (n_steps : nat) :
  strategy_fits 2 s -> can_run (optimistic_player s n_steps).
Proof.
  intros Hs. unfold can_run. simpl.
  repeat split; try lra; try lia; try exact Hs.
  repeat constructor; simpl; lra.
Qed.

Lemma reset_undoes_run_when_stateless_witness :
  exists p1 g1,
    BanditPlayer.run (optimistic_player Strategy.SA 2) counting_rng =
      Ok (p1, g1) /\
    BanditPlayer.reset p1 g1 = Ok (optimistic_player Strategy.SA 2, g1).
Proof.
  destruct (steps_ok 2 (optimistic_player Strategy.SA 2) 0 counting_rng
              (optimistic_player_can_run Strategy.SA 2 I) (le_n 2))
    as (p1 & g1 & Hrun & _).
  exists p1, g1. split; [exact Hrun|].
  apply (reset_undoes_run_when_stateless [1; -1] 0 0 5 2 Strategy.SA true
           two_arms (optimistic_player Strategy.SA 2) p1
           counting_rng counting_rng g1).
  - left. reflexivity.
  - reflexivity.
  - reflexivity.
  - exact Hrun.
Defined.

(** ** A bandit without arms *)

(** X12.  [Bandit(n)] accepts a count [n <= 0] and builds a bandit
    without arms.  For a negative [n] no player can be built on it
    ([np.zeros] refuses the length); for [n = 0] the player is built, but
    with an [eps] in [0, 1] it cannot choose an arm: [get_arms_id] raises
    [ValueError], and so does [run] as soon as there is a step to take. *)
Theorem player_on_empty_bandit (n : Z) (d eps baseline : R)
  (n_steps : nat) (s : Strategy.t) (o : bool) (g : rng) :
  (n <= 0)%Z ->
  0 <= eps <= 1 ->
  exists b,
    Bandit.init n None d g = Ok (b, g) /\
    Bandit.arms b = [] /\
    ((n < 0)%Z ->
       BanditPlayer.init b eps n_steps s o baseline = Err ValueError) /\
    (n = 0%Z ->
       exists p,
         BanditPlayer.init b eps n_steps s o baseline = Ok p /\
         forall g1,
           BanditPlayer.get_arms_id p g1 = Err ValueError /\
           ((1 <= n_steps)%nat -> BanditPlayer.run p g1 = Err ValueError)).
Proof.
  intros Hn He.
  unfold Bandit.init, Bandit.set_q. cbn [bind].
  replace (Z.to_nat n) with 0%nat by lia. simpl.
  eexists. split; [reflexivity|]. split; [reflexivity|]. split.
  - intros Hneg. unfold BanditPlayer.init, BanditPlayer.zeros. simpl.
    destruct (Z.ltb_spec n 0); [reflexivity | lia].
  - intros ->. unfold BanditPlayer.init, BanditPlayer.initial_preferences,
      BanditPlayer.zeros. simpl.
    eexists. split; [reflexivity|].
    assert (Hg : forall g1,
               BanditPlayer.get_arms_id
                 (BanditPlayer.mk eps n_steps s o baseline
                    (Bandit.mk 0 [] d []) (repeat 0 n_steps) []
                    (if o then [] else [])) g1 = Err ValueError).
    { intros g1. unfold BanditPlayer.get_arms_id, random_binomial1. simpl.
      destruct (Rlt_dec eps 0); [lra|]. destruct (Rlt_dec 1 eps); [lra|].
      cbn [bind].
      destruct (Rlt_dec (uniform_draws g1 (uniform_pos g1)) eps); simpl.
      - reflexivity.
      - destruct o; reflexivity. }
    intros g1. split; [apply Hg|].
    intros Hs. unfold BanditPlayer.run. simpl.
    destruct n_steps as [|k]; [lia|]. simpl.
    unfold BanditPlayer.run_step. rewrite Hg. reflexivity.
Qed.

Lemma player_on_empty_bandit_witness :
  exists b,
    Bandit.init 0 None 0 counting_rng = Ok (b, counting_rng) /\
    Bandit.arms b = [] /\
    exists p,
      BanditPlayer.init b 0 1 Strategy.SA false 5 = Ok p /\
      BanditPlayer.get_arms_id p counting_rng = Err ValueError /\
      BanditPlayer.run p counting_rng = Err ValueError.
Proof.
  destruct (player_on_empty_bandit 0 0 0 5 1 Strategy.SA false counting_rng
              (Z.le_refl 0) (conj (Rle_refl 0) Rle_0_1))
    as (b & Hb & Ha & _ & Hp).
  exists b. split; [exact Hb|]. split; [exact Ha|].
  destruct (Hp eq_refl) as (p & Hi & Hg).
  exists p. split; [exact Hi|].
  destruct (Hg counting_rng) as [H1 H2].
  split; [exact H1 | apply H2; lia].
Defined.

(** ** Gradient bandit: what an update conserves *)

Lemma Rsum_nil : Rsum [] = 0.
Proof. reflexivity. Qed.

Lemma Rsum_map_mult (c : R) (l : list R) :
  Rsum (map (Rmult c) l) = c * Rsum l.
Proof.
  induction l as [|x l IH]; simpl.
  - rewrite Rsum_nil. lra.
  - rewrite !Rsum_cons, IH. lra.
Qed.

Lemma Rsum_zip_sub (a b : list R) :
  length a = length b ->
  Rsum (zip_with (fun q y => q + - y) a b) = Rsum a - Rsum b.
Proof.
  revert b; induction a as [|x a IH]; intros [|y b] H; simpl in H;
    try discriminate; simpl.
  - rewrite Rsum_nil. lra.
  - rewrite !Rsum_cons, IH by lia. lra.
Qed.

Lemma Rsum_upd (l : list R) (i : nat) (v : R) :
  (i < length l)%nat -> Rsum (upd l i v) = Rsum l - nth i l 0 + v.
Proof.
  revert i; induction l as [|x l IH]; intros [|i] H; simpl in *; try lia.
  - rewrite !Rsum_cons. lra.
  - rewrite !Rsum_cons, IH by lia. lra.
Qed.

Lemma Rsum_repeat (x : R) (n : nat) : Rsum (repeat x n) = INR n * x.
Proof.
  induction n as [|n IH].
  - simpl. rewrite Rsum_nil. lra.
  - cbn [repeat]. rewrite Rsum_cons, IH, S_INR. lra.
Qed.

Lemma map_Fin_inj (a b : list R) : map Fin a = map Fin b -> a = b.
Proof.
  revert b; induction a as [|x a IH]; intros [|y b] H; simpl in H;
    try discriminate; [reflexivity|].
  inversion H; subst. f_equal. auto.
Qed.

(** X13.  An update of [GradientBandit] conserves the sum of the
    preferences.  On real inputs, when the probability vector held before
    the call sums to 1, which holds on the first call (uniform) and after
    every call (softmax), what the update takes from all the arms is what
    it gives to the chosen one: the returned preferences have the sum of
    the incoming ones, and the new probability vector sums to 1
    again. *)
Theorem gradient_bandit_conserves_sum (s : GradientBandit.t)
  (qs ps : list R) (counts : list nat) (a : nat) (r : R) :
  GradientBandit.init_probs (GradientBandit.probs s) (length qs) = map Fin ps ->
  length ps = length qs ->
  (a < length qs)%nat ->
  (0 <= GradientBandit.time s)%Z ->
  GradientBandit.probs s = None \/ Rsum ps = 1 ->
  exists (s' : GradientBandit.t) (qs' ps' : list R),
    GradientBandit.estimate_values s (map Fin qs) counts a r =
      Ok (s', map Fin qs') /\
    Rsum qs' = Rsum qs /\
    GradientBandit.probs s' = Some (map Fin ps') /\
    length ps' = length qs' /\
    Rsum ps' = 1.
Proof.
  intros Hp HL Ha Ht Hsum.
  destruct (gradient_estimate_values_fin s qs ps counts a r Hp HL Ha Ht)
    as [Hlen Hev].
  set (step := GradientBandit.alpha s * _) in *.
  set (qs' := gradient_two_phase step qs ps a) in *.
  assert (Hone : Rsum ps = 1).
  { destruct Hsum as [Hn|]; [|assumption].
    rewrite Hn, init_probs_uniform in Hp by lia.
    apply map_Fin_inj in Hp. rewrite <- Hp, Rsum_repeat.
    field. apply not_0_INR. lia. }
  assert (Hne : qs' <> []).
  { intros E. rewrite E in Hlen. simpl in Hlen. lia. }
  destruct (derive_probs_fin qs' Hne) as [Hd Hs].
  eexists. exists qs'. eexists. split; [exact Hev|]. split.
  - unfold qs', gradient_two_phase.
    set (qs1 := zip_with (fun q y => q + - y) qs (map (Rmult step) ps)).
    assert (H1 : Rsum qs1 = Rsum qs - step * Rsum ps).
    { unfold qs1. rewrite Rsum_zip_sub by (rewrite length_map; lia).
      rewrite Rsum_map_mult. reflexivity. }
    rewrite Rsum_upd.
    + rewrite H1, Hone. lra.
    + unfold qs1. rewrite zip_with_length; rewrite ?length_map; lia.
  - simpl. split; [rewrite Hd; reflexivity|].
    split; [rewrite !length_map; reflexivity | exact Hs].
Qed.

Lemma gradient_bandit_conserves_sum_witness :
  exists (s' : GradientBandit.t) (qs' ps' : list R),
    GradientBandit.estimate_values
      (GradientBandit.mk (1 / 10) 1 1 (Some [Fin (1 / 4); Fin (3 / 4)]))
      [Fin 2; Fin (-1)] [1; 0]%nat 0 3 = Ok (s', map Fin qs') /\
    Rsum qs' = Rsum [2; -1] /\
    GradientBandit.probs s' = Some (map Fin ps') /\
    length ps' = length qs' /\
    Rsum ps' = 1.
Proof.
  apply (gradient_bandit_conserves_sum
           (GradientBandit.mk (1 / 10) 1 1 (Some [Fin (1 / 4); Fin (3 / 4)]))
           [2; -1] [1 / 4; 3 / 4] [1; 0]%nat 0%nat 3).
  - reflexivity.
  - reflexivity.
  - simpl. lia.
  - simpl. lia.
  - right. unfold Rsum. simpl. lra.
Defined.

Lemma zip_sub_zero (qs ys : list R) :
  length ys = length qs -> Forall (eq 0) ys ->
  zip_with (fun q y => q + - y) qs ys = qs.
Proof.
  revert ys; induction qs as [|q qs IH]; intros [|y ys] HL Hz;
    simpl in HL; try discriminate; simpl; [reflexivity|].
  inversion Hz; subst. rewrite IH by (auto; lia). f_equal. lra.
Qed.

Lemma upd_nth_same (l : list R) (i : nat) (v : R) :
  v = nth i l 0 -> upd l i v = l.
Proof.
  revert i; induction l as [|x l IH]; intros [|i] H; simpl in *;
    try reflexivity.
  - subst. reflexivity.
  - rewrite IH by exact H. reflexivity.
Qed.

(** X14.  The first update of a [GradientBandit] moves nothing.  The
    mean reward is updated before it is used, and at time 0 the updated
    mean is the reward itself, so the step [alpha (reward - mean)] is
    zero: the call returns the real preferences it was given, whatever
    the reward, the chosen arm and [alpha] are.  Only the time, the mean
    reward and the probabilities (the softmax of these preferences) are
    set. *)
Theorem gradient_bandit_first_update (alpha mean0 : R)
  (probs0 : option (list xreal)) (qs ps : list R) (counts : list nat)
  (a : nat) (r : R) :
  GradientBandit.init_probs probs0 (length qs) = map Fin ps ->
  length ps = length qs ->
  (a < length qs)%nat ->
  exists ps',
    GradientBandit.estimate_values (GradientBandit.mk alpha mean0 0 probs0)
      (map Fin qs) counts a r =
      Ok (GradientBandit.mk alpha (mean0 + 1 / 1 * (r - mean0)) 1
            (Some (map Fin ps')),
          map Fin qs) /\
    mean0 + 1 / 1 * (r - mean0) = r /\
    ps' = map (fun x => exp x / Rsum (map exp qs)) qs /\
    Rsum ps' = 1.
Proof.
  intros Hp HL Ha.
  destruct (gradient_estimate_values_fin
              (GradientBandit.mk alpha mean0 0 probs0) qs ps counts a r
              Hp HL Ha (Z.le_refl 0)) as [Hlen Hev].
  simpl in Hev, Hlen.
  assert (Hstep : alpha * (r - (mean0 + 1 / 1 * (r - mean0))) = 0) by lra.
  rewrite Hstep in Hev, Hlen.
  assert (Hq : gradient_two_phase 0 qs ps a = qs).
  { unfold gradient_two_phase.
    rewrite zip_sub_zero.
    - apply upd_nth_same. lra.
    - rewrite length_map. exact HL.
    - clear. induction ps; simpl; constructor; [lra | assumption]. }
  rewrite Hq in Hev.
  assert (Hne : qs <> []) by (intros E; rewrite E in Ha; simpl in Ha; lia).
  destruct (derive_probs_fin qs Hne) as [Hd Hs].
  rewrite Hd in Hev.
  eexists. split; [exact Hev|]. split; [lra|].
  split; [rewrite map_map; reflexivity | exact Hs].
Qed.

Lemma gradient_bandit_first_update_witness :
  exists ps',
    GradientBandit.estimate_values (GradientBandit.init (1 / 10))
      [Fin 0; Fin 5] [0; 1]%nat 1 7 =
      Ok (GradientBandit.mk (1 / 10) (0 + 1 / 1 * (7 - 0)) 1
            (Some (map Fin ps')),
          [Fin 0; Fin 5]) /\
    0 + 1 / 1 * (7 - 0) = 7 /\
    ps' = map (fun x => exp x / Rsum (map exp [0; 5])) [0; 5] /\
    Rsum ps' = 1.
Proof.
  apply (gradient_bandit_first_update (1 / 10) 0 None [0; 5]
           (repeat (1 / INR 2) 2) [0; 1]%nat 1%nat 7).
  - apply (init_probs_uniform 2). lia.
  - reflexivity.
  - simpl. lia.
Defined.

(** ** UCB: the size of the bonus *)

Lemma ln_le_compat (x y : R) : 0 < x -> x <= y -> ln x <= ln y.
Proof.
  intros Hx [Hlt|Heq].
  - left. apply ln_increasing; assumption.
  - right. rewrite Heq. reflexivity.
Qed.

(** X15.  The exploration bonus of [UCB] favours the arms pulled least.
    For [c >= 0], a time of at least 2 and arms pulled at least once, the
    bonus [c * sqrt (ln time / count)] is a real number that is not
    negative, does not grow with the count and does not shrink with the
    time; the preference [UCB] returns for a tried arm is therefore never
    below its internal value. *)
Theorem ucb_bonus_monotone (c : R) (t1 t2 : Z) (n1 n2 : nat) :
  0 <= c ->
  (2 <= t1 <= t2)%Z ->
  (1 <= n1 <= n2)%nat ->
  exists b11 b12 b21 : R,
    UCB.bonus c t1 n1 = Fin b11 /\
    UCB.bonus c t1 n2 = Fin b12 /\
    UCB.bonus c t2 n1 = Fin b21 /\
    0 <= b12 /\ b12 <= b11 /\ b11 <= b21 /\
    forall v, exists x,
      xadd (Fin v) (UCB.bonus c t1 n1) = Fin x /\ v <= x.
Proof.
  intros Hc [Ht1 Ht2] [Hn1 Hn2].
  rewrite !bonus_tried by lia.
  pose proof (ln_time_pos t1 Ht1) as L1.
  assert (L12 : ln (IZR t1) <= ln (IZR t2)).
  { apply ln_le_compat; [apply (IZR_lt 0 t1); lia | apply IZR_le; lia]. }
  assert (N1 : 0 < INR n1) by (apply lt_0_INR; lia).
  assert (N2 : 0 < INR n2) by (apply lt_0_INR; lia).
  assert (N12 : INR n1 <= INR n2) by (apply le_INR; lia).
  assert (I12 : / INR n2 <= / INR n1) by (apply Rinv_le_contravar; assumption).
  assert (I1 : 0 < / INR n1) by (apply Rinv_0_lt_compat; exact N1).
  assert (D1 : ln (IZR t1) / INR n2 <= ln (IZR t1) / INR n1).
  { unfold Rdiv. apply Rmult_le_compat_l; [lra | exact I12]. }
  assert (D2 : ln (IZR t1) / INR n1 <= ln (IZR t2) / INR n1).
  { unfold Rdiv. apply Rmult_le_compat_r; [lra | exact L12]. }
  pose proof (sqrt_le_1_alt _ _ D1) as S1.
  pose proof (sqrt_le_1_alt _ _ D2) as S2.
  pose proof (sqrt_pos (ln (IZR t1) / INR n2)) as P.
  eexists. eexists. eexists.
  split; [reflexivity|]. split; [reflexivity|]. split; [reflexivity|].
  split; [apply Rmult_le_pos; assumption|].
  split; [apply Rmult_le_compat_l; assumption|].
  split; [apply Rmult_le_compat_l; assumption|].
  intros v. eexists. split; [reflexivity|].
  assert (0 <= c * sqrt (ln (IZR t1) / INR n1))
    by (apply Rmult_le_pos; [assumption | apply sqrt_pos]).
  lra.
Qed.

Lemma ucb_bonus_monotone_witness :
  exists b11 b12 b21 : R,
    UCB.bonus 2 2 1 = Fin b11 /\
    UCB.bonus 2 2 5 = Fin b12 /\
    UCB.bonus 2 9 1 = Fin b21 /\
    0 <= b12 /\ b12 <= b11 /\ b11 <= b21 /\
    forall v, exists x,
      xadd (Fin v) (UCB.bonus 2 2 1) = Fin x /\ v <= x.
Proof.
  apply (ucb_bonus_monotone 2 2 9 1 5).
  - lra.
  - lia.
  - lia.
Defined.

(** ** The benchmark *)

Lemma reset_is_reset (p p' : BanditPlayer.t) (g g' : rng) :
  BanditPlayer.reset p g = Ok (p', g') -> is_reset p'.
Proof.
  unfold BanditPlayer.reset, is_reset. intros H.
  destruct (Bandit.reset (BanditPlayer.bandit p) g) as [b g1].
  inv_ok. simpl. auto.
Qed.

Lemma run_players_reset (epoch : nat) (ps : list BanditPlayer.t) :
  forall (avgs avgs' : list (list R)) (g g' : rng)
         (ps' : list BanditPlayer.t),
    Benchmark.run_players epoch ps avgs g = Ok (ps', avgs', g') ->
    Forall is_reset ps' /\ length ps' = length ps.
Proof.
  induction ps as [|p ps IH]; intros avgs avgs' g g' ps' H; simpl in H.
  - inversion H; subst. split; [constructor | reflexivity].
  - inv_ok.
    match goal with
    | H1 : BanditPlayer.reset _ _ = Ok _,
      H2 : Benchmark.run_players _ _ _ _ = Ok _ |- _ =>
        apply reset_is_reset in H1; apply IH in H2; destruct H2 as [Hf Hl]
    end.
    split; [constructor; assumption | simpl; congruence].
Qed.

Lemma run_epochs_reset (log_time : Z) (count : nat) :
  forall (epoch : nat) (ps ps' : list BanditPlayer.t)
         (avgs avgs' : list (list R)) (g g' : rng),
    Benchmark.run_epochs log_time epoch count ps avgs g = Ok (ps', avgs', g') ->
    length ps' = length ps /\
    ((1 <= count)%nat \/ Forall is_reset ps -> Forall is_reset ps').
Proof.
  induction count as [|count IH]; intros epoch ps ps' avgs avgs' g g' H;
    simpl in H.
  - inversion H; subst. split; [reflexivity|]. intros [Hc|Hr]; [lia | exact Hr].
  - inv_ok.
    match goal with
    | H1 : Benchmark.run_players _ _ _ _ = Ok _,
      H2 : Benchmark.run_epochs _ _ _ _ _ _ = Ok _ |- _ =>
        apply run_players_reset in H1; destruct H1 as [Hf Hl];
        apply IH in H2; destruct H2 as [Hl2 Hr2]
    end.
    split; [congruence|]. intros _. apply Hr2. right. exact Hf.
Qed.

(** X16.  [Benchmark.run] hands the players back reset.  When it
    returns after at least one epoch, it holds as many players as
    before, and every one of them is as [reset] leaves it: a reward
    array of zeros, zero counts and the initial preferences, so that only
    the averages tell what happened.  With no epoch at all, the players
    and the averages are untouched. *)
Theorem benchmark_leaves_players_reset (b b' : Benchmark.t) (g g' : rng) :
  Benchmark.run b g = Ok (b', g') ->
  Benchmark.n_epochs b' = Benchmark.n_epochs b /\
  length (Benchmark.players b') = length (Benchmark.players b) /\
  ((1 <= Benchmark.n_epochs b)%nat -> Forall is_reset (Benchmark.players b')) /\
  (Benchmark.n_epochs b = 0%nat ->
     Benchmark.players b' = Benchmark.players b /\
     Benchmark.avg_rewards b' = Benchmark.avg_rewards b /\ g' = g).
Proof.
  unfold Benchmark.run. intros H. inv_ok. simpl.
  match goal with
  | H : Benchmark.run_epochs _ _ _ _ _ _ = Ok _ |- _ =>
      pose proof (run_epochs_reset _ _ _ _ _ _ _ _ _ H) as [Hl Hr];
      rename H into Hrun
  end.
  split; [reflexivity|]. split; [exact Hl|]. split.
  - intros Hn. apply Hr. left. exact Hn.
  - intros Hz. rewrite Hz in Hrun. simpl in Hrun. inversion Hrun. auto.
Qed.

Lemma benchmark_leaves_players_reset_witness :
  exists b' g',
    Benchmark.run (Benchmark.init [fresh_player Strategy.SA 2] 2 100)
      counting_rng = Ok (b', g') /\
    length (Benchmark.players b') = 1%nat /\
    Forall is_reset (Benchmark.players b').
Proof.
  destruct benchmark_two_epochs as (b' & g' & Hrun & _).
  exists b', g'. split; [exact Hrun|].
  destruct (benchmark_leaves_players_reset _ _ _ _ Hrun)
    as (_ & Hl & Hr & _).
  split; [exact Hl | apply Hr; simpl; lia].
Defined.

Lemma reset_ok (p : BanditPlayer.t) (g : rng) :
  can_run p ->
  exists p' g',
    BanditPlayer.reset p g = Ok (p', g') /\
    can_run p' /\ rewards_shape p' /\
    BanditPlayer.n_steps p' = BanditPlayer.n_steps p.
Proof.
  intros (He & Hn1 & Hq & Hd & Ha & Hf & Hc & Hpl & Hs).
  unfold BanditPlayer.reset, Bandit.reset.
  pose proof (make_arms_length (Bandit.incr_dev (BanditPlayer.bandit p))
                (Bandit.q (BanditPlayer.bandit p)) g) as HL.
  pose proof (make_arms_incr_dev (Bandit.incr_dev (BanditPlayer.bandit p))
                (Bandit.q (BanditPlayer.bandit p)) g) as HD.
  destruct (Bandit.make_arms (Bandit.incr_dev (BanditPlayer.bandit p))
              (Bandit.q (BanditPlayer.bandit p)) g) as [l g2].
  simpl in HL, HD. simpl.
  unfold BanditPlayer.initial_preferences, BanditPlayer.zeros.
  destruct (Z.ltb_spec (Bandit.n (BanditPlayer.bandit p)) 0) as [|_]; [lia|].
  cbn [bind]. eexists. eexists. split; [reflexivity|].
  unfold can_run, rewards_shape. simpl. rewrite !repeat_length.
  repeat split; auto; try lra; try lia.
  - eapply Forall_impl; [|exact HD]. simpl. intros a E. rewrite E. exact Hd.
  - destruct (BanditPlayer.optimist p); [rewrite length_map|];
      apply repeat_length.
Qed.

Lemma run_players_ok (epoch : nat) (ps : list BanditPlayer.t) :
  forall (avgs : list (list R)) (g : rng),
    Forall can_run ps -> Forall rewards_shape ps -> averages_shape ps avgs ->
    exists ps' avgs' g',
      Benchmark.run_players epoch ps avgs g = Ok (ps', avgs', g') /\
      Forall can_run ps' /\ Forall rewards_shape ps' /\
      averages_shape ps' avgs'.
Proof.
  induction ps as [|p ps IH]; intros avgs g Hc Hr Ha; simpl.
  - inversion Ha; subst. exists [], [], g. repeat split; constructor.
  - inversion Hc as [|? ? Hcp Hcs]; subst.
    inversion Hr as [|? ? Hrp Hrs]; subst.
    inversion Ha as [|? avg ? avgs0 Hap Has]; subst.
    unfold BanditPlayer.run. unfold rewards_shape in Hrp.
    destruct (steps_ok (BanditPlayer.n_steps p) p 0 g Hcp)
      as (p1 & g1 & Hst & Hc1 & Hl1 & Hn1); [lia|].
    rewrite Hst. cbn [bind].
    change (get (avg :: avgs0) 0) with (Ok avg). cbn [bind].
    destruct (fold_rewards_same epoch avg (BanditPlayer.rewards p1))
      as (avg' & Hf & Hla & _); [congruence|].
    rewrite Hf. cbn [bind].
    destruct (reset_ok p1 g1 Hc1) as (p2 & g2 & Hres & Hc2 & Hr2 & Hn2).
    rewrite Hres. cbn [bind tl].
    destruct (IH avgs0 g2 Hcs Hrs Has) as (ps' & avgs' & g' & Hrec & H1 & H2 & H3).
    rewrite Hrec. cbn [bind].
    eexists. eexists. eexists. split; [reflexivity|].
    repeat split; constructor; auto. congruence.
Qed.

Lemma run_epochs_ok (log_time : Z) (count : nat) :
  log_time <> 0%Z ->
  forall (epoch : nat) (ps : list BanditPlayer.t) (avgs : list (list R))
         (g : rng),
    Forall can_run ps -> Forall rewards_shape ps -> averages_shape ps avgs ->
    exists ps' avgs' g',
      Benchmark.run_epochs log_time epoch count ps avgs g =
        Ok (ps', avgs', g') /\
      Forall can_run ps' /\ Forall rewards_shape ps' /\
      averages_shape ps' avgs'.
Proof.
  intros Hlt.
  induction count as [|count IH]; intros epoch ps avgs g Hc Hr Ha; simpl.
  - exists ps, avgs, g. auto.
  - destruct (run_players_ok epoch ps avgs g Hc Hr Ha)
      as (ps1 & avgs1 & g1 & Hp & Hc1 & Hr1 & Ha1).
    rewrite Hp. cbn [bind]. unfold py_mod.
    destruct (Z.eqb_spec log_time 0) as [E|_]; [contradiction|].
    cbn [bind]. cbv zeta. apply IH; assumption.
Qed.

Lemma init_averages_shape (ps : list BanditPlayer.t) :
  averages_shape ps (map (fun p => repeat 0 (BanditPlayer.n_steps p)) ps).
Proof.
  induction ps as [|p ps IH]; simpl; constructor; auto.
  apply repeat_length.
Qed.

(** X17.  When a benchmark raises.  Take players that can all run (a
    probability for [eps], a bandit with at least one arm and no negative
    deviation, arrays of the right lengths) and have a reward array of
    [n_steps] entries.  If [log_time] is not zero, or there is no epoch,
    [Benchmark.run] returns for any draws, with every player still able
    to run and one average of [n_steps] entries per player.  If
    [log_time] is zero and there is an epoch, it raises
    [ZeroDivisionError]: the first epoch runs, and [epoch % log_time]
    fails. *)
Theorem benchmark_raises_nothing (players : list BanditPlayer.t)
  (n_epochs : nat) (log_time : Z) (g : rng) :
  Forall can_run players ->
  Forall rewards_shape players ->
  (log_time <> 0%Z \/ n_epochs = 0%nat ->
   exists b' g',
     Benchmark.run (Benchmark.init players n_epochs log_time) g =
       Ok (b', g') /\
     Forall can_run (Benchmark.players b') /\
     Forall rewards_shape (Benchmark.players b') /\
     averages_shape (Benchmark.players b') (Benchmark.avg_rewards b')) /\
  (log_time = 0%Z -> (1 <= n_epochs)%nat ->
   Benchmark.run (Benchmark.init players n_epochs log_time) g =
     Err ZeroDivisionError).
Proof.
  intros Hc Hr. unfold Benchmark.run, Benchmark.init. simpl. split.
  - intros [Hlt|Hz].
    + destruct (run_epochs_ok log_time n_epochs Hlt 1 players _ g Hc Hr
                  (init_averages_shape players))
        as (ps' & avgs' & g' & Hrun & H1 & H2 & H3).
      rewrite Hrun. cbn [bind]. cbv zeta.
      eexists. eexists. split; [reflexivity|]. simpl. auto.
    + subst n_epochs. simpl.
      eexists. eexists. split; [reflexivity|]. simpl.
      split; [exact Hc|]. split; [exact Hr | apply init_averages_shape].
  - intros Hz Hn. subst log_time.
    destruct n_epochs as [|k]; [lia|]. simpl.
    destruct (run_players_ok 1 players _ g Hc Hr (init_averages_shape players))
      as (ps' & avgs' & g' & Hrun & _).
    rewrite Hrun. reflexivity.
Qed.

Lemma benchmark_raises_nothing_witness :
  (exists b' g',
     Benchmark.run
       (Benchmark.init
          [fresh_player (Strategy.Ucb (UCB.init 2)) 3;
           optimistic_player (Strategy.CSS (1 / 10)) 3] 4 100)
       counting_rng = Ok (b', g') /\
     averages_shape (Benchmark.players b') (Benchmark.avg_rewards b')) /\
  Benchmark.run
    (Benchmark.init
       [fresh_player (Strategy.Ucb (UCB.init 2)) 3;
        optimistic_player (Strategy.CSS (1 / 10)) 3] 4 0)
    counting_rng = Err ZeroDivisionError.
Proof.
  assert (Hc : Forall can_run
                 [fresh_player (Strategy.Ucb (UCB.init 2)) 3;
                  optimistic_player (Strategy.CSS (1 / 10)) 3]).
  { constructor; [apply fresh_player_can_run; exact I|].
    constructor; [apply optimistic_player_can_run; exact I | constructor]. }
  assert (Hr : Forall rewards_shape
                 [fresh_player (Strategy.Ucb (UCB.init 2)) 3;
                  optimistic_player (Strategy.CSS (1 / 10)) 3])
    by (repeat constructor).
  split.
  - destruct (proj1 (benchmark_raises_nothing _ 4 100 counting_rng Hc Hr))
      as (b' & g' & Hrun & _ & _ & Hs).
    + left. discriminate.
    + exists b', g'. split; [exact Hrun | exact Hs].
  - apply (proj2 (benchmark_raises_nothing _ 4 0 counting_rng Hc Hr)).
    + reflexivity.
    + lia.
Defined.

Lemma Rsum_bounds (lo hi : R) (l : list R) :
  Forall (fun x => lo <= x <= hi) l ->
  INR (length l) * lo <= Rsum l <= INR (length l) * hi.
Proof.
  induction 1 as [|x l Hx Hl IH].
  - simpl. rewrite Rsum_nil. lra.
  - cbn [length]. rewrite Rsum_cons, S_INR. lra.
Qed.

Lemma mean_bounds (lo hi : R) (l : list R) :
  l <> [] ->
  Forall (fun x => lo <= x <= hi) l ->
  lo <= mean l <= hi.
Proof.
  intros Hne Hl. pose proof (Rsum_bounds lo hi l Hl) as [H1 H2].
  assert (Hn : 0 < INR (length l)).
  { apply lt_0_INR. destruct l; [congruence | simpl; lia]. }
  unfold mean. split.
  - apply Rmult_le_reg_r with (INR (length l)); [exact Hn|].
    unfold Rdiv. rewrite Rmult_assoc, Rinv_l by lra. lra.
  - apply Rmult_le_reg_r with (INR (length l)); [exact Hn|].
    unfold Rdiv. rewrite Rmult_assoc, Rinv_l by lra. lra.
Qed.

(** X18.  The running average stays within the rewards.  If every
    reward of every epoch lies between [lo] and [hi], then after one
    epoch or more every entry of the running average lies between [lo]
    and [hi] too, although the average starts at 0, which may lie
    outside. *)
Theorem running_average_within_rewards (n : nat) (lo hi : R)
  (rss : list (list R)) :
  rss <> [] ->
  Forall (fun rs => length rs = n) rss ->
  Forall (Forall (fun x => lo <= x <= hi)) rss ->
  exists avg,
    average_epochs 1 (repeat 0 n) rss = Ok avg /\
    length avg = n /\
    Forall (fun x => lo <= x <= hi) avg.
Proof.
  intros Hne Hlen Hb.
  destruct (average_epochs_mean n rss [] (repeat 0 n)) as (avg & He & Hl & Hm);
    [apply repeat_length | exact Hlen | intros t _ E; congruence |].
  exists avg. split; [exact He|]. split; [exact Hl|].
  apply Forall_forall. intros x Hx.
  apply In_nth_error in Hx. destruct Hx as [t Ht].
  assert (Hlt : (t < n)%nat) by (rewrite <- Hl; apply nth_error_Some; congruence).
  rewrite <- (nth_error_nth _ _ 0 Ht).
  rewrite (Hm t Hlt Hne). apply mean_bounds.
  - unfold at_step. destruct rss; [congruence | discriminate].
  - unfold at_step. apply Forall_forall. intros y Hy.
    apply in_map_iff in Hy. destruct Hy as (rs & <- & Hin).
    pose proof (proj1 (Forall_forall _ rss) Hlen rs Hin) as Hrl.
    pose proof (proj1 (Forall_forall _ rss) Hb rs Hin) as Hrb.
    cbv beta in Hrl, Hrb.
    apply (proj1 (Forall_forall _ rs) Hrb).
    apply nth_In. lia.
Qed.

Lemma running_average_within_rewards_witness :
  exists avg,
    average_epochs 1 (repeat 0 2) [[3; 4]; [5; 3]; [4; 4]] = Ok avg /\
    length avg = 2%nat /\
    Forall (fun x => 3 <= x <= 5) avg.
Proof.
  apply (running_average_within_rewards 2 3 5 [[3; 4]; [5; 3]; [4; 4]]).
  - discriminate.
  - repeat constructor.
  - repeat constructor; lra.
Defined.

(** ** Forced exploration of a greedy UCB player *)

Lemma ucb_estimate_values_fin (u : UCB.t) (prefs : list xreal)
  (counts : list nat) (vs : list R) (indx k : nat) (reward : R) :
  UCB.init_values (UCB.values u) (length prefs) = map Fin vs ->
  length counts = length vs ->
  nth_error counts indx = Some k ->
  (1 <= k)%nat -> (1 <= UCB.time u)%Z -> 0 < UCB.c u ->
  exists (vs' : list R) (out : list xreal),
    UCB.estimate_values u prefs counts indx reward =
      Ok (UCB.mk (UCB.c u) (UCB.time u + 1) (Some (map Fin vs')), out) /\
    length vs' = length vs /\ length out = length counts /\
    forall i n y,
      nth_error counts i = Some n -> nth_error out i = Some y ->
      if (n =? 0)%nat then y = PInf else is_fin y.
Proof.
  intros Hv HL Hk Hk1 Ht Hc.
  assert (Hlt : (indx < length vs)%nat).
  { rewrite <- HL. apply nth_error_Some. congruence. }
  destruct (nth_error vs indx) as [old|] eqn:Hold;
    [|apply nth_error_None in Hold; lia].
  set (vs' := upd vs indx (old + 1 / INR k * (reward + - old))).
  assert (Hlen' : length vs' = length vs) by apply upd_length.
  exists vs', (zip_with xadd (map Fin vs')
                 (map (UCB.bonus (UCB.c u) (UCB.time u + 1)) counts)).
  split; [|split; [exact Hlen' | split]].
  - unfold UCB.estimate_values. rewrite Hv.
    assert (Hg : get (map Fin vs) indx = Ok (Fin old)).
    { apply get_ok. rewrite nth_error_map_Fin, Hold. reflexivity. }
    rewrite Hg. cbn [bind].
    assert (Hg2 : get counts indx = Ok k) by (apply get_ok; exact Hk).
    rewrite Hg2. cbn [bind].
    rewrite sample_average_step_fin by exact Hk1.
    rewrite set_lt by (rewrite length_map; exact Hlt).
    cbn [bind]. rewrite (upd_map Fin). fold vs'.
    rewrite broadcast2_same by (rewrite !length_map; lia).
    reflexivity.
  - rewrite zip_with_length; rewrite !length_map; lia.
  - intros i n y Hn Hy.
    assert (Hi : (i < length vs')%nat).
    { rewrite Hlen', <- HL. apply nth_error_Some. congruence. }
    destruct (nth_error vs' i) as [v|] eqn:Ev;
      [|apply nth_error_None in Ev; lia].
    assert (Hz : nth_error
                   (zip_with xadd (map Fin vs')
                      (map (UCB.bonus (UCB.c u) (UCB.time u + 1)) counts)) i =
                 Some (xadd (Fin v) (UCB.bonus (UCB.c u) (UCB.time u + 1) n))).
    { apply zip_with_nth.
      - rewrite nth_error_map_Fin, Ev. reflexivity.
      - rewrite nth_error_map, Hn. reflexivity. }
    rewrite Hz, ucb_entry in Hy by (auto; lia).
    inversion Hy; subst y. unfold ucb_preference.
    destruct (n =? 0)%nat; [reflexivity | exact I].
Qed.

Lemma nth_error_ones_zeros (k m i : nat) :
  nth_error (repeat 1%nat k ++ repeat 0%nat m) i =
  if (i <? k)%nat then Some 1%nat
  else if (i <? k + m)%nat then Some 0%nat else None.
Proof.
  destruct (Nat.ltb_spec i k) as [H|H].
  - rewrite nth_error_app1 by (rewrite repeat_length; exact H).
    apply nth_error_repeat. exact H.
  - rewrite nth_error_app2 by (rewrite repeat_length; exact H).
    rewrite repeat_length.
    destruct (Nat.ltb_spec i (k + m)) as [H2|H2].
    + apply nth_error_repeat. lia.
    + apply nth_error_None. rewrite repeat_length. lia.
Qed.

Lemma upd_ones_zeros (k m : nat) :
  upd (repeat 1%nat k ++ repeat 0%nat (S m)) k (0 + 1)%nat =
  repeat 1%nat (S k) ++ repeat 0%nat m.
Proof.
  induction k as [|k IH]; simpl.
  - reflexivity.
  - f_equal. exact IH.
Qed.

(** The greedy choice of an exploring player is the first untried arm. *)
Lemma exploring_argmax (n k : nat) (p : BanditPlayer.t) :
  exploring n k p -> (k < n)%nat ->
  argmax (BanditPlayer.preferences p) = Ok k.
Proof.
  intros (Hc & Hn & _ & _ & Hcnt & H0 & H1) Hk.
  destruct Hc as (_ & _ & _ & _ & _ & _ & _ & Hpl & _).
  rewrite Hn in Hpl.
  destruct k as [|k].
  - destruct (H0 eq_refl) as [x Hx]. rewrite Hx.
    destruct n as [|n]; [lia|]. simpl.
    rewrite argmax_from_constant. reflexivity.
  - specialize (H1 ltac:(lia)).
    assert (Hnan : Forall (fun x => is_nan x = false)
                     (BanditPlayer.preferences p)).
    { apply Forall_forall. intros y Hy. apply In_nth_error in Hy.
      destruct Hy as [i Hi]. specialize (H1 i y Hi).
      destruct (i <? S k)%nat; [destruct y; simpl in *; tauto | subst; reflexivity]. }
    assert (Hne : BanditPlayer.preferences p <> []).
    { intros E. rewrite E in Hpl. simpl in Hpl. lia. }
    destruct (argmax_spec _ Hnan Hne) as (j & y & Ha & Hy & Hmax & Hfirst).
    rewrite Ha. f_equal.
    destruct (nth_error (BanditPlayer.preferences p) (S k)) as [z|] eqn:Ez;
      [|apply nth_error_None in Ez; lia].
    pose proof (H1 (S k) z Ez) as Hz. rewrite Nat.ltb_irrefl in Hz. subst z.
    assert (Hyinf : y = PInf).
    { pose proof (Hmax PInf (nth_error_In _ _ Ez)) as Hle.
      destruct y; simpl in Hle; try discriminate; reflexivity. }
    subst y.
    destruct (Nat.lt_trichotomy j (S k)) as [Hlt|[Heq|Hgt]].
    + pose proof (H1 j PInf Hy) as Hj.
      destruct (Nat.ltb_spec j (S k)); [contradiction | lia].
    + exact Heq.
    + pose proof (Hfirst (S k) PInf Hgt Ez) as Hx. discriminate.
Qed.

Lemma drift_uniform (l : list Arm.t) :
  forall l' g g',
    Bandit.drift l g = Ok (l', g') -> uniform_draws g' = uniform_draws g.
Proof.
  induction l as [|a l IH]; intros l' g g' H; simpl in H.
  - inversion H; reflexivity.
  - unfold Arm.reset_q, random_normal in H.
    destruct (Req_dec_T (Arm.incr_dev a) 0).
    + inv_ok. eauto.
    + destruct (Rlt_dec (Arm.incr_dev a) 0); inv_ok.
      match goal with
      | H : Bandit.drift _ _ = Ok _ |- _ => apply IH in H; exact H
      end.
Qed.

Lemma use_arm_uniform (p p' : BanditPlayer.t) (i : nat) (g g' : rng) (r : R) :
  BanditPlayer.use_arm p i g = Ok (r, p', g') ->
  uniform_draws g' = uniform_draws g.
Proof.
  unfold BanditPlayer.use_arm, Bandit.action, Arm.action, random_normal1.
  intros H. inv_ok. simpl.
  match goal with
  | H : Bandit.drift _ _ = Ok _ |- _ => apply drift_uniform in H; exact H
  end.
Qed.

Lemma exploring_step (n k : nat) (p : BanditPlayer.t) (g : rng) :
  exploring n k p -> (k < n)%nat -> uniform_nonneg g ->
  exists g1 r p1 g2,
    BanditPlayer.get_arms_id p g = Ok (k, g1) /\
    BanditPlayer.use_arm p k g1 = Ok (r, p1, g2) /\
    exploring n (S k) p1 /\
    BanditPlayer.rewards p1 = BanditPlayer.rewards p /\
    uniform_nonneg g2.
Proof.
  intros Hex Hk Hg.
  pose proof (exploring_argmax n k p Hex Hk) as Harg.
  destruct Hex as (Hc & Hn & He & (u & vs & Hs & Hcu & Htu & Hvs & Hlv) & Hcnt & _).
  (* the choice *)
  set (g1 := mk_rng (normal_draws g) (uniform_draws g) (int_draws g)
               (normal_pos g) (S (uniform_pos g)) (int_pos g)).
  assert (Hget : BanditPlayer.get_arms_id p g = Ok (k, g1)).
  { unfold BanditPlayer.get_arms_id, random_binomial1. rewrite He.
    destruct (Rlt_dec 0 0); [lra|]. destruct (Rlt_dec 1 0); [lra|].
    destruct (Rlt_dec (uniform_draws g (uniform_pos g)) 0) as [Hu|_].
    { specialize (Hg (uniform_pos g)). lra. }
    cbn [bind]. simpl. rewrite Harg. reflexivity. }
  exists g1.
  (* the pull *)
  destruct (use_arm_ok p k g1 Hc) as (r & p1 & g2 & Hu & Hc1 & Hr1 & Hn1);
    [lia|].
  exists r, p1, g2. split; [exact Hget|]. split; [exact Hu|].
  pose proof (use_arm_uniform _ _ _ _ _ _ Hu) as Hunif.
  split; [|split; [exact Hr1 | intros j; rewrite Hunif; apply Hg]].
  (* the new state *)
  pose proof Hc as (_ & _ & _ & _ & _ & _ & Hlc & Hlp & _).
  rewrite Hn in Hlc, Hlp.
  unfold BanditPlayer.use_arm in Hu.
  assert (Hk0 : nth_error (BanditPlayer.number_of_actions p) k = Some 0%nat).
  { rewrite Hcnt, nth_error_ones_zeros.
    destruct (Nat.ltb_spec k k); [lia|].
    destruct (Nat.ltb_spec k (k + (n - k))); [reflexivity | lia]. }
  rewrite (proj2 (get_ok _ _ _) Hk0) in Hu. cbn [bind] in Hu.
  rewrite set_lt in Hu by lia. cbn [bind] in Hu.
  assert (Hcnt' : upd (BanditPlayer.number_of_actions p) k (0 + 1)%nat =
                  repeat 1%nat (S k) ++ repeat 0%nat (n - S k)).
  { rewrite Hcnt. replace (n - k)%nat with (S (n - S k)) by lia.
    apply upd_ones_zeros. }
  rewrite Hcnt' in Hu.
  destruct (Bandit.action (BanditPlayer.bandit p) k g1) as [[[r' b'] g']|e]
    eqn:Hact; cbn [bind] in Hu; [|discriminate].
  apply action_frame in Hact. destruct Hact as (_ & Hnb & _).
  rewrite Hs in Hu. unfold Strategy.estimate_values in Hu.
  destruct (ucb_estimate_values_fin u (BanditPlayer.preferences p)
              (repeat 1%nat (S k) ++ repeat 0%nat (n - S k)) vs k 1 r')
    as (vs' & out & Hev & Hlv' & Hlo & Hout); auto.
  { rewrite Hlp. exact Hvs. }
  { rewrite length_app, !repeat_length. lia. }
  { rewrite nth_error_ones_zeros.
    destruct (Nat.ltb_spec k (S k)); [reflexivity | lia]. }
  rewrite Hev in Hu. cbn [bind] in Hu. inversion Hu; subst r' p1 g'.
  clear Hu. simpl in *.
  unfold exploring. simpl.
  split; [exact Hc1|]. split; [congruence|]. split; [exact He|].
  split.
  { exists (UCB.mk (UCB.c u) (UCB.time u + 1) (Some (map Fin vs'))), vs'.
    simpl. repeat split; auto; try lia. }
  split; [reflexivity|]. split; [intros E; discriminate|].
  intros _ i y Hy.
  assert (Hi : (i < n)%nat).
  { assert (i < length out)%nat by (apply nth_error_Some; congruence).
    rewrite Hlo, length_app, !repeat_length in H. lia. }
  pose proof (nth_error_ones_zeros (S k) (n - S k) i) as Hni.
  destruct (Nat.ltb_spec i (S k)) as [Hik|Hik].
  - exact (Hout i 1%nat y Hni Hy).
  - destruct (Nat.ltb_spec i (S k + (n - S k))); [|lia].
    exact (Hout i 0%nat y Hni Hy).
Qed.

Lemma steps_log_forget (count : nat) :
  forall (p p' : BanditPlayer.t) (first : nat) (g g' : rng)
         (idxs : list nat) (rs : list R),
    steps_log p first count g = Ok (idxs, rs, p', g') ->
    BanditPlayer.steps p first count g = Ok (p', g').
Proof.
  induction count as [|count IH]; intros p p' first g g' idxs rs H;
    simpl in H.
  - inversion H; subst. reflexivity.
  - inv_ok. simpl. unfold BanditPlayer.run_step.
    repeat match goal with
    | H : ?m = Ok _ |- context [bind ?m _] => rewrite H; cbn [bind]
    end.
    eapply IH. eassumption.
Qed.

Lemma exploring_steps (n m : nat) :
  forall (k : nat) (p : BanditPlayer.t) (first : nat) (g : rng),
    exploring n k p -> (k + m <= n)%nat ->
    (first + m <= length (BanditPlayer.rewards p))%nat ->
    uniform_nonneg g ->
    exists rs p' g',
      steps_log p first m g = Ok (seq k m, rs, p', g') /\
      exploring n (k + m) p'.
Proof.
  induction m as [|m IH]; intros k p first g Hex Hk Hr Hg.
  - exists [], p, g. simpl. rewrite Nat.add_0_r. auto.
  - destruct (exploring_step n k p g Hex ltac:(lia) Hg)
      as (g1 & r & p1 & g2 & Hget & Hu & Hex1 & Hr1 & Hg2).
    simpl steps_log. rewrite Hget. cbn [bind]. rewrite Hu. cbn [bind].
    rewrite set_lt by (rewrite Hr1; lia). cbn [bind].
    match goal with
    | |- context [steps_log ?q (S first) m g2] =>
        destruct (IH (S k) q (S first) g2) as (rs & p' & g' & Hlog & Hex')
    end.
    + exact Hex1.
    + lia.
    + simpl. rewrite upd_length, Hr1. lia.
    + exact Hg2.
    + rewrite Hlog. cbn [bind].
      eexists. eexists. eexists. split; [reflexivity|].
      replace (k + S m)%nat with (S k + m)%nat by lia. exact Hex'.
Qed.

(** X19.  A greedy [UCB] player tries every arm before it repeats one.
    Take a player that can run, just built or reset, with [eps = 0], a
    [UCB] strategy with [c > 0], a time of at least 1 and real internal
    values (a fresh one, or one carried over a reset), at least as many
    steps as arms, and uniform draws that are not negative.  Then the
    first [n] iterations of [run] raise nothing and choose the arms
    0, 1, ..., n - 1 in this order, each exactly once. *)
Theorem ucb_tries_every_arm (p : BanditPlayer.t) (u : UCB.t)
  (vs : list R) (g : rng) :
  can_run p ->
  is_reset p ->
  BanditPlayer.eps p = 0 ->
  BanditPlayer.strategy p = Strategy.Ucb u ->
  0 < UCB.c u ->
  (1 <= UCB.time u)%Z ->
  UCB.init_values (UCB.values u)
    (Z.to_nat (Bandit.n (BanditPlayer.bandit p))) = map Fin vs ->
  (Z.to_nat (Bandit.n (BanditPlayer.bandit p)) <= BanditPlayer.n_steps p)%nat ->
  uniform_nonneg g ->
  exists rs p' g',
    steps_log p 0 (Z.to_nat (Bandit.n (BanditPlayer.bandit p))) g =
      Ok (seq 0 (Z.to_nat (Bandit.n (BanditPlayer.bandit p))), rs, p', g') /\
    BanditPlayer.steps p 0 (Z.to_nat (Bandit.n (BanditPlayer.bandit p))) g =
      Ok (p', g') /\
    BanditPlayer.number_of_actions p' =
      repeat 1%nat (Z.to_nat (Bandit.n (BanditPlayer.bandit p))).
Proof.
  intros Hc (Hrw & Hz & Hip) He Hs Hcu Htu Hvs Hn Hg.
  set (n := Z.to_nat (Bandit.n (BanditPlayer.bandit p))) in *.
  assert (Hex : exploring n 0 p).
  { pose proof Hc as (_ & Hn1 & _ & _ & _ & _ & _ & _ & Hfit).
    unfold exploring. split; [exact Hc|]. split; [reflexivity|].
    split; [exact He|]. split.
    - exists u, vs. repeat split; auto.
      rewrite Hs in Hfit. simpl in Hfit. fold n in Hfit.
      assert (HL : length (UCB.init_values (UCB.values u) n) = n).
      { unfold UCB.init_values. destruct (UCB.values u);
          [exact Hfit | apply repeat_length]. }
      rewrite Hvs, length_map in HL. exact HL.
    - split.
      + unfold BanditPlayer.zeros in Hz.
        destruct (Z.ltb_spec (Bandit.n (BanditPlayer.bandit p)) 0); [lia|].
        inversion Hz. simpl. rewrite Nat.sub_0_r. reflexivity.
      + split; [|intros H; lia].
        intros _. apply initial_preferences_constant in Hip. exact Hip. }
  destruct (exploring_steps n n 0 p 0 g Hex) as (rs & p' & g' & Hlog & Hex');
    [lia | rewrite Hrw, repeat_length; lia | exact Hg |].
  exists rs, p', g'. split; [exact Hlog|].
  split; [eapply steps_log_forget; exact Hlog|].
  destruct Hex' as (_ & _ & _ & _ & Hcnt & _).
  rewrite Hcnt. simpl. rewrite Nat.sub_diag. simpl. apply app_nil_r.
Qed.

Lemma uniform_nonneg_counting : uniform_nonneg counting_rng.
Proof. intros k. simpl. lra. Qed.

Lemma ucb_tries_every_arm_witness :
  exists rs p' g',
    steps_log (fresh_player (Strategy.Ucb (UCB.init 2)) 5) 0 2 counting_rng =
      Ok ([0; 1]%nat, rs, p', g') /\
    BanditPlayer.number_of_actions p' = [1; 1]%nat.
Proof.
  destruct (ucb_tries_every_arm (fresh_player (Strategy.Ucb (UCB.init 2)) 5)
              (UCB.init 2) [0; 0] counting_rng)
    as (rs & p' & g' & Hlog & _ & Hcnt).
  - apply fresh_player_can_run. exact I.
  - repeat split.
  - reflexivity.
  - reflexivity.
  - simpl. lra.
  - simpl. lia.
  - reflexivity.
  - simpl. lia.
  - exact uniform_nonneg_counting.
  - exists rs, p', g'. split; [exact Hlog | exact Hcnt].
Defined.
